(** * gf.TiledLayer: the viewport-relative tile renderer

    A shallow embedding of [gf.TiledLayer] (renderTiles, clearTiles,
    moveTileSprite, _getInteractive, pan, _renderLeft/Right/Up/Down,
    _updateRenderSq) and the properties of its window, pool and live grid.

    Tile coordinates and pixel amounts are integers ([Z]); sprite positions
    are rationals ([Q]) because the isometric projection halves the tile
    size. Sprites are heap objects: a node is an index into the layer's
    sprite store, so that the live grid and the pool can alias a sprite. *)

From Stdlib Require Import ZArith QArith Lia String Ascii.
From stdpp Require Import base list.

Local Open Scope Z_scope.

(** ** JavaScript values and plain objects *)

(** The values a Tiled property can hold; [undefined] is [None] at the use
    site. *)
Inductive jsval : Type :=
  | JNull
  | JBool (b : bool)
  | JNum (n : Z)
  | JStr (s : string).

(** ToBoolean. *)
Definition truthy (v : jsval) : bool :=
  match v with
  | JNull => false
  | JBool b => b
  | JNum n => negb (n =? 0)
  | JStr s => negb (String.eqb s EmptyString)
  end.

(** ToBoolean of a possibly undefined value. *)
Definition truthy_opt (v : option jsval) : bool :=
  match v with
  | Some w => truthy w
  | None => false
  end.

(** A plain object used as a map with integer keys, in insertion order. *)
Definition obj (V : Type) : Type := list (Z * V).

(** [o[k]]; [None] is [undefined]. *)
Fixpoint oget {V} (k : Z) (o : obj V) : option V :=
  match o with
  | [] => None
  | (k', v) :: o' => if Z.eqb k k' then Some v else oget k o'
  end.

(** [o[k] = v]: an existing key keeps its place, a new key goes last. *)
Fixpoint oset {V} (k : Z) (v : V) (o : obj V) : obj V :=
  match o with
  | [] => [(k, v)]
  | (k', v') :: o' =>
      if Z.eqb k k' then (k, v) :: o' else (k', v') :: oset k v o'
  end.

(** [delete o[k]]. *)
Fixpoint odel {V} (k : Z) (o : obj V) : obj V :=
  match o with
  | [] => []
  | (k', v') :: o' =>
      if Z.eqb k k' then odel k o' else (k', v') :: odel k o'
  end.

(** Keys that are array indices are enumerated first, in ascending order. *)
Definition is_array_index (k : Z) : bool := (0 <=? k) && (k <? 4294967295).

Fixpoint insert_sorted (k : Z) (l : list Z) : list Z :=
  match l with
  | [] => [k]
  | k' :: l' => if k <=? k' then k :: l else k' :: insert_sorted k l'
  end.

Definition sort_keys (l : list Z) : list Z := foldr insert_sorted [] l.

(** The keys a [for (k in o)] loop visits: array indices ascending, then
    the other keys in insertion order. *)
Definition for_in {V} (o : obj V) : list Z :=
  sort_keys (filter (fun k => Is_true (is_array_index k)) (fst <$> o))
  ++ filter (fun k => ~ Is_true (is_array_index k)) (fst <$> o).

(** ** Data model *)

(** A node is the index of a sprite in the layer's sprite store. *)
Abbreviation node := nat (only parsing).

Module Vec.
Record t : Type := mk { x : Z; y : Z }.
End Vec.

Module Rect.
Record t : Type := mk {
  x : Z; y : Z; width : Z; height : Z;
  left : Z; right : Z; top : Z; bottom : Z
}.
End Rect.

Module Buffered.
Record t : Type := mk { left : bool; right : bool; top : bool; bottom : bool }.
End Buffered.

(** A property bag (tile, tileset, layer or map properties). *)
Module Props.
Record t : Type := mk {
  interactive : option jsval;
  interactiveTiles : option jsval;
  hitArea : option Z;
  tileHitArea : option Z;
  isCollidable : bool;
  type : option Z
}.
Definition empty : t := mk None None None None false None.
End Props.

Module Tileset.
Record t : Type := mk {
  tileSize : Vec.t;
  tileoffset : Vec.t;
  properties : Props.t;
  getTileTexture : option Z -> Z;
  getTileProperties : option Z -> Props.t
}.
End Tileset.

(** The owning TiledMap, as far as the layer reads it. *)
Module Map.
Record t : Type := mk {
  size : Vec.t;
  tileSize : Vec.t;
  scaledTileSize : Vec.t;
  position : Vec.t;
  orientation : string;
  properties : Props.t;
  getTileset : option Z -> option Tileset.t
}.
End Map.

(** Modelled from the spec: gf.Tile, the sprite class, is not among the
    sources. A sprite carries the binding the layer writes (texture,
    position, interactive flag, hit area, collision type, visibility),
    whether its physics body is enabled ([enablePhysics] /
    [disablePhysics]) and whether the seven pointer callbacks are set. *)
Module Tile.
Record t : Type := mk {
  texture : Z;
  position : Q * Q;
  interactive : bool;
  collisionType : option Z;
  visible : bool;
  hitArea : option Z;
  physics : bool;
  callbacks : bool
}.
Definition new (tex : Z) : t := mk tex (0%Q, 0%Q) false None true None false false.
Definition setVisible (b : bool) (s : t) : t :=
  mk (texture s) (position s) (interactive s) (collisionType s) b (hitArea s)
     (physics s) (callbacks s).
Definition setPhysics (b : bool) (s : t) : t :=
  mk (texture s) (position s) (interactive s) (collisionType s) (visible s)
     (hitArea s) b (callbacks s).
Definition enablePhysics : t -> t := setPhysics true.
Definition disablePhysics : t -> t := setPhysics false.
Definition setTexture (tex : Z) (s : t) : t :=
  mk tex (position s) (interactive s) (collisionType s) (visible s) (hitArea s)
     (physics s) (callbacks s).
Definition setPosition (px py : Q) (s : t) : t :=
  mk (texture s) (px, py) (interactive s) (collisionType s) (visible s)
     (hitArea s) (physics s) (callbacks s).
Definition setInteractive (b : bool) (s : t) : t :=
  mk (texture s) (position s) b (collisionType s) (visible s) (hitArea s)
     (physics s) (callbacks s).
Definition setCollisionType (c : option Z) (s : t) : t :=
  mk (texture s) (position s) (interactive s) c (visible s) (hitArea s)
     (physics s) (callbacks s).
Definition setHitArea (h : option Z) (s : t) : t :=
  mk (texture s) (position s) (interactive s) (collisionType s) (visible s) h
     (physics s) (callbacks s).
Definition bindCallbacks (s : t) : t :=
  mk (texture s) (position s) (interactive s) (collisionType s) (visible s)
     (hitArea s) (physics s) true.
End Tile.

(** What the layer is constructed with and never changes. *)
Record Layer : Type := mkLayer {
  tileIds : list Z;
  size : Vec.t;
  properties : Props.t;
  parent : Map.t
}.

(** The mutable part of a TiledLayer. [sprites] is the heap of gf.Tile
    objects (a node is its index); [children] is the display list that
    [addChild] extends, one entry per sprite ever created. *)
Record TiledLayer : Type := mkTiledLayer {
  tiles : obj (obj (option node));
  _tilePool : list node;
  _buffered : Buffered.t;
  _panDelta : Vec.t;
  _rendered : Rect.t;
  children : list node;
  sprites : list Tile.t
}.

Definition with_tiles (t : obj (obj (option node))) (s : TiledLayer) : TiledLayer :=
  mkTiledLayer t (_tilePool s) (_buffered s) (_panDelta s) (_rendered s)
    (children s) (sprites s).
Definition with_pool (p : list node) (s : TiledLayer) : TiledLayer :=
  mkTiledLayer (tiles s) p (_buffered s) (_panDelta s) (_rendered s)
    (children s) (sprites s).
Definition with_buffered (b : Buffered.t) (s : TiledLayer) : TiledLayer :=
  mkTiledLayer (tiles s) (_tilePool s) b (_panDelta s) (_rendered s)
    (children s) (sprites s).
Definition with_panDelta (v : Vec.t) (s : TiledLayer) : TiledLayer :=
  mkTiledLayer (tiles s) (_tilePool s) (_buffered s) v (_rendered s)
    (children s) (sprites s).
Definition with_rendered (r : Rect.t) (s : TiledLayer) : TiledLayer :=
  mkTiledLayer (tiles s) (_tilePool s) (_buffered s) (_panDelta s) r
    (children s) (sprites s).
Definition with_sprites (h : list Tile.t) (s : TiledLayer) : TiledLayer :=
  mkTiledLayer (tiles s) (_tilePool s) (_buffered s) (_panDelta s) (_rendered s)
    (children s) h.

(** [sprite.f(...)] on the sprite object [n]. *)
Definition on_sprite (f : Tile.t -> Tile.t) (n : node) (s : TiledLayer) : TiledLayer :=
  with_sprites (alter f n (sprites s)) s.

(** The layer as its constructor leaves it. gf.Rectangle is not among the
    sources; the four derived edges are stored as [_updateRenderSq] would
    compute them (they are read only after a [_render*] loop of zero
    iterations and the [_updateRenderSq] that follows it). *)
Definition new_layer : TiledLayer :=
  mkTiledLayer [] [] (Buffered.mk false false false false) (Vec.mk 0 0)
    (Rect.mk 0 0 0 0 0 (-1) 0 (-1)) [] [].

(** [this.tiles[x] && this.tiles[x][y]], with [null] and [undefined] both
    read as "no sprite". *)
Definition tile_at (t : obj (obj (option node))) (x y : Z) : option node :=
  match oget x t with
  | Some row => match oget y row with Some v => v | None => None end
  | None => None
  end.

(** [this.tiles[x][y] = v] on a row that exists. *)
Definition put_tile (x y : Z) (v : option node) (t : obj (obj (option node)))
  : obj (obj (option node)) :=
  match oget x t with
  | Some row => oset x (oset y v row) t
  | None => t
  end.

(** [if(!this.tiles[x]) this.tiles[x] = {}; this.tiles[x][y] = n]. *)
Definition place_tile (x y : Z) (n : node) (t : obj (obj (option node)))
  : obj (obj (option node)) :=
  match oget x t with
  | Some row => oset x (oset y (Some n) row) t
  | None => oset x [(y, Some n)] t
  end.

(** [delete this.tiles[x][y]]. *)
Definition del_tile (x y : Z) (t : obj (obj (option node)))
  : obj (obj (option node)) :=
  match oget x t with
  | Some row => oset x (odel y row) t
  | None => t
  end.

(** ** The methods of gf.TiledLayer *)

(** [_tilePool] is kept as a stack: its head is the array's last element,
    so [push] conses and [pop] takes the head. *)
Definition pool_push (n : node) (s : TiledLayer) : TiledLayer :=
  with_pool (n :: _tilePool s) s.

Definition _updateRenderSq (s : TiledLayer) : TiledLayer :=
  let r := _rendered s in
  with_rendered
    (Rect.mk (Rect.x r) (Rect.y r) (Rect.width r) (Rect.height r)
       (Rect.x r)
       (Rect.x r + Rect.width r - 1)
       (Rect.y r)
       (Rect.y r + Rect.height r - 1)) s.

(** Assignments to [x], [y], [width], [height] keep the derived edges until
    the next [_updateRenderSq]. *)
Definition set_rect_x (v : Z) (r : Rect.t) : Rect.t :=
  Rect.mk v (Rect.y r) (Rect.width r) (Rect.height r)
    (Rect.left r) (Rect.right r) (Rect.top r) (Rect.bottom r).
Definition set_rect_y (v : Z) (r : Rect.t) : Rect.t :=
  Rect.mk (Rect.x r) v (Rect.width r) (Rect.height r)
    (Rect.left r) (Rect.right r) (Rect.top r) (Rect.bottom r).
Definition set_rect_width (v : Z) (r : Rect.t) : Rect.t :=
  Rect.mk (Rect.x r) (Rect.y r) v (Rect.height r)
    (Rect.left r) (Rect.right r) (Rect.top r) (Rect.bottom r).
Definition set_rect_height (v : Z) (r : Rect.t) : Rect.t :=
  Rect.mk (Rect.x r) (Rect.y r) (Rect.width r) v
    (Rect.left r) (Rect.right r) (Rect.top r) (Rect.bottom r).

(** One pass of the body of the two loops of [clearTiles]. *)
Definition clear_cell (x y : Z) (s : TiledLayer) : TiledLayer :=
  let s1 :=
    match tile_at (tiles s) x y with
    | Some tile =>
        pool_push tile
          (on_sprite Tile.disablePhysics tile
             (on_sprite (Tile.setVisible false) tile s))
    | None => s
    end in
  with_tiles (del_tile x y (tiles s1)) s1.

Definition clear_row (x : Z) (s : TiledLayer) : TiledLayer :=
  match oget x (tiles s) with
  | Some row => foldl (fun s y => clear_cell x y s) s (for_in row)
  | None => s
  end.

Definition clearTiles (s : TiledLayer) : TiledLayer :=
  foldl (fun s x => clear_row x s) s (for_in (tiles s)).

(** [o.interactive !== undefined || o.interactiveTiles !== undefined]. *)
Definition defines_interactive (o : Props.t) : bool :=
  match Props.interactive o, Props.interactiveTiles o with
  | None, None => false
  | _, _ => true
  end.

(** [!!(v.interactive || v.interactiveTiles)]. *)
Definition interactive_value (v : Props.t) : bool :=
  truthy_opt (Props.interactive v) || truthy_opt (Props.interactiveTiles v).

Section Methods.

Variable L : Layer.

(** [this.tileIds[id]]; out of range is [undefined]. *)
Definition tileId_at (id : Z) : option Z :=
  if 0 <=? id then tileIds L !! Z.to_nat id else None.

Definition _getInteractive (set : option Tileset.t) (o : Props.t) : bool :=
  let v :=
    if defines_interactive o then Some o
    else if match set with
            | Some st => defines_interactive (Tileset.properties st)
            | None => false
            end
    then option_map Tileset.properties set
    else if defines_interactive (properties L) then Some (properties L)
    else if defines_interactive (Map.properties (parent L))
    then Some (Map.properties (parent L))
    else None in
  match v with
  | Some w => interactive_value w
  | None => false
  end.

(** The [position] pair computed by [moveTileSprite]. *)
Definition tile_position (set : Tileset.t) (toTileX toTileY : Z) : Q * Q :=
  let tsx := inject_Z (Vec.x (Map.tileSize (parent L))) in
  let tsy := inject_Z (Vec.y (Map.tileSize (parent L))) in
  let ssx := inject_Z (Vec.x (Tileset.tileSize set)) in
  let ssy := inject_Z (Vec.y (Tileset.tileSize set)) in
  let ox := inject_Z (Vec.x (Tileset.tileoffset set)) in
  let oy := inject_Z (Vec.y (Tileset.tileoffset set)) in
  let tx := inject_Z toTileX in
  let ty := inject_Z toTileY in
  if String.eqb (Map.orientation (parent L)) "isometric"
  then ((tx * (tsx / 2)) - (ty * (tsx / 2)) + (tsx - ssx) + ox,
        (ty * (tsy / 2)) + (tx * (tsy / 2)) + (tsy - ssy) + oy)%Q
  else ((tx * tsx) + ox, (ty * tsy) + oy)%Q.

(** Lines 264-284: what [moveTileSprite] writes on the sprite it binds. *)
Definition bind_tile (texture : Z) (props : Props.t) (pos : Q * Q)
    (hitArea : option Z) (interactive : bool) (t : Tile.t) : Tile.t :=
  let t := if Props.isCollidable props then Tile.enablePhysics t else t in
  let t := Tile.setTexture texture t in
  let t := Tile.setPosition (fst pos) (snd pos) t in
  let t := Tile.setInteractive interactive t in
  let t := Tile.setCollisionType (Props.type props) t in
  let t := Tile.setVisible true t in
  let t := Tile.setHitArea hitArea t in
  if interactive then Tile.bindCallbacks t else t.

(** [new gf.Tile(texture)] followed by [this.addChild(tile)]. *)
Definition new_tile (texture : Z) (s : TiledLayer) : node * TiledLayer :=
  let n := length (sprites s) in
  (n, mkTiledLayer (tiles s) (_tilePool s) (_buffered s) (_panDelta s)
        (_rendered s) (children s ++ [n]) (sprites s ++ [Tile.new texture])).

Definition moveTileSprite (fromTileX fromTileY toTileX toTileY : Z)
    (s : TiledLayer) : TiledLayer :=
  let id := toTileX + toTileY * Vec.x (size L) in
  let tileId := tileId_at id in
  match Map.getTileset (parent L) tileId with
  | None =>
      match tile_at (tiles s) fromTileX fromTileY with
      | Some t =>
          pool_push t
            (on_sprite (Tile.setVisible false) t
               (with_tiles (put_tile fromTileX fromTileY None (tiles s)) s))
      | None => s
      end
  | Some set =>
      let texture := Tileset.getTileTexture set tileId in
      let props := Tileset.getTileProperties set tileId in
      let hitArea :=
        match Props.hitArea props with
        | Some h => Some h
        | None => Props.tileHitArea (Tileset.properties set)
        end in
      let interactive := _getInteractive (Some set) props in
      let pos := tile_position set toTileX toTileY in
      let '(tile, s1) :=
        match tile_at (tiles s) fromTileX fromTileY with
        | Some t =>
            (Some t, with_tiles (put_tile fromTileX fromTileY None (tiles s)) s)
        | None =>
            match _tilePool s with
            | t :: p => (Some t, with_pool p s)
            | [] => (None, s)
            end
        end in
      let '(t, s2) :=
        match tile with
        | Some t => (t, s1)
        | None => new_tile texture s1
        end in
      let s3 := on_sprite (bind_tile texture props pos hitArea interactive) t s2 in
      with_tiles (place_tile toTileX toTileY t (tiles s3)) s3
  end.

(** The remainder [%] of the last statement is [Z.rem], which is what
    JavaScript computes on integers for a divisor other than 0. By 0
    JavaScript gives NaN, which this model does not represent: the
    accumulator set here is meant for a scaled tile size other than 0. *)
Definition renderTiles (startX startY numX numY : Z) (s : TiledLayer)
  : TiledLayer :=
  let s := clearTiles s in
  let startX := if startX <? 0 then 0 else startX in
  let startY := if startY <? 0 then 0 else startY in
  let endX :=
    if startX + numX <=? Vec.x (Map.size (parent L))
    then startX + numX else Vec.x (Map.size (parent L)) - startX in
  let endY :=
    if startY + numY <=? Vec.y (Map.size (parent L))
    then startY + numY else Vec.y (Map.size (parent L)) - startY in
  let s :=
    foldl (fun s x =>
             foldl (fun s y => moveTileSprite x y x y s) s
               (seqZ startY (endY - startY)))
      s (seqZ startX (endX - startX)) in
  let s :=
    with_rendered
      (set_rect_height (endY - startY)
         (set_rect_width (endX - startX)
            (set_rect_y startY (set_rect_x startX (_rendered s))))) s in
  let s := _updateRenderSq s in
  let s := with_buffered (Buffered.mk false false false false) s in
  with_panDelta
    (Vec.mk
       (Z.rem (Vec.x (Map.position (parent L)))
          (Vec.x (Map.scaledTileSize (parent L))))
       (Z.rem (Vec.y (Map.position (parent L)))
          (Vec.y (Map.scaledTileSize (parent L))))) s.

End Methods.

Section Panning.

Variable L : Layer.

Definition _renderLeft (forceNew : bool) (s : TiledLayer) : TiledLayer :=
  let s :=
    foldl (fun s i =>
             moveTileSprite L
               (if forceNew then -1 else Rect.right (_rendered s))
               (if forceNew then -1 else Rect.top (_rendered s) + i)
               (Rect.left (_rendered s) - 1)
               (Rect.top (_rendered s) + i) s)
      s (seqZ 0 (Rect.height (_rendered s))) in
  let s := with_rendered (set_rect_x (Rect.x (_rendered s) - 1) (_rendered s)) s in
  let s :=
    if forceNew
    then with_rendered (set_rect_width (Rect.width (_rendered s) + 1) (_rendered s)) s
    else s in
  _updateRenderSq s.

Definition _renderRight (forceNew : bool) (s : TiledLayer) : TiledLayer :=
  let s :=
    foldl (fun s i =>
             moveTileSprite L
               (if forceNew then -1 else Rect.left (_rendered s))
               (if forceNew then -1 else Rect.top (_rendered s) + i)
               (Rect.right (_rendered s) + 1)
               (Rect.top (_rendered s) + i) s)
      s (seqZ 0 (Rect.height (_rendered s))) in
  let s :=
    if negb forceNew
    then with_rendered (set_rect_x (Rect.x (_rendered s) + 1) (_rendered s)) s
    else s in
  let s :=
    if forceNew
    then with_rendered (set_rect_width (Rect.width (_rendered s) + 1) (_rendered s)) s
    else s in
  _updateRenderSq s.

Definition _renderUp (forceNew : bool) (s : TiledLayer) : TiledLayer :=
  let s :=
    foldl (fun s i =>
             moveTileSprite L
               (if forceNew then -1 else Rect.left (_rendered s) + i)
               (if forceNew then -1 else Rect.bottom (_rendered s))
               (Rect.left (_rendered s) + i)
               (Rect.top (_rendered s) - 1) s)
      s (seqZ 0 (Rect.width (_rendered s))) in
  let s := with_rendered (set_rect_y (Rect.y (_rendered s) - 1) (_rendered s)) s in
  let s :=
    if forceNew
    then with_rendered (set_rect_height (Rect.height (_rendered s) + 1) (_rendered s)) s
    else s in
  _updateRenderSq s.

Definition _renderDown (forceNew : bool) (s : TiledLayer) : TiledLayer :=
  let s :=
    foldl (fun s i =>
             moveTileSprite L
               (if forceNew then -1 else Rect.left (_rendered s) + i)
               (if forceNew then -1 else Rect.top (_rendered s))
               (Rect.left (_rendered s) + i)
               (Rect.bottom (_rendered s) + 1) s)
      s (seqZ 0 (Rect.width (_rendered s))) in
  let s :=
    if negb forceNew
    then with_rendered (set_rect_y (Rect.y (_rendered s) + 1) (_rendered s)) s
    else s in
  let s :=
    if forceNew
    then with_rendered (set_rect_height (Rect.height (_rendered s) + 1) (_rendered s)) s
    else s in
  _updateRenderSq s.

(** [while (cond) body], with a bound on the number of passes: [None] when
    the bound is reached with the condition still true. *)
Fixpoint while (fuel : nat) (cond : TiledLayer -> bool)
    (body : TiledLayer -> TiledLayer) (s : TiledLayer) : option TiledLayer :=
  if cond s then
    match fuel with
    | O => None
    | S fuel' => while fuel' cond body (body s)
    end
  else Some s.

Definition add_panDelta (dx dy : Z) (s : TiledLayer) : TiledLayer :=
  with_panDelta (Vec.mk (Vec.x (_panDelta s) + dx) (Vec.y (_panDelta s) + dy)) s.

Definition set_buffered_left (s : TiledLayer) : TiledLayer :=
  let b := _buffered s in
  with_buffered (Buffered.mk true (Buffered.right b) (Buffered.top b) (Buffered.bottom b)) s.
Definition set_buffered_right (s : TiledLayer) : TiledLayer :=
  let b := _buffered s in
  with_buffered (Buffered.mk (Buffered.left b) true (Buffered.top b) (Buffered.bottom b)) s.
Definition set_buffered_top (s : TiledLayer) : TiledLayer :=
  let b := _buffered s in
  with_buffered (Buffered.mk (Buffered.left b) (Buffered.right b) true (Buffered.bottom b)) s.
Definition set_buffered_bottom (s : TiledLayer) : TiledLayer :=
  let b := _buffered s in
  with_buffered (Buffered.mk (Buffered.left b) (Buffered.right b) (Buffered.top b) true) s.

(** The if / else-if chain that opens [pan]. *)
Definition pan_buffer (dx dy : Z) (s : TiledLayer) : TiledLayer :=
  if (0 <? dx) && negb (Buffered.left (_buffered s))
  then _renderLeft true (set_buffered_left s)
  else if (dx <? 0) && negb (Buffered.right (_buffered s))
  then _renderRight true (set_buffered_right s)
  else if (0 <? dy) && negb (Buffered.top (_buffered s))
  then _renderUp true (set_buffered_top s)
  else if (dy <? 0) && negb (Buffered.bottom (_buffered s))
  then _renderDown true (set_buffered_bottom s)
  else s.

Definition scaledX : Z := Vec.x (Map.scaledTileSize (parent L)).
Definition scaledY : Z := Vec.y (Map.scaledTileSize (parent L)).

Definition pan_fuel (fuel : nat) (dx dy : Z) (s : TiledLayer)
  : option TiledLayer :=
  let s := add_panDelta dx dy s in
  let s := pan_buffer dx dy s in
  s ← while fuel
        (fun s => scaledX <=? Vec.x (_panDelta s))
        (fun s => add_panDelta (- scaledX) 0 (_renderLeft false s)) s;
  s ← while fuel
        (fun s => Vec.x (_panDelta s) <=? - scaledX)
        (fun s => add_panDelta scaledX 0 (_renderRight false s)) s;
  s ← while fuel
        (fun s => scaledY <=? Vec.y (_panDelta s))
        (fun s => add_panDelta 0 (- scaledY) (_renderUp false s)) s;
  while fuel
    (fun s => Vec.y (_panDelta s) <=? - scaledY)
    (fun s => add_panDelta 0 scaledY (_renderDown false s)) s.

(** [pan], with as many passes allowed as the accumulated delta has pixels,
    which is enough whenever a scaled tile is at least one pixel wide and
    high ([None]: a loop does not end). *)
Definition pan (dx dy : Z) (s : TiledLayer) : option TiledLayer :=
  pan_fuel
    (Z.to_nat (Z.abs (Vec.x (_panDelta s) + dx) + Z.abs (Vec.y (_panDelta s) + dy)))
    dx dy s.

(** A renderTiles call followed by pan calls, one [(dx, dy)] per call. *)
Fixpoint pans (ds : list (Z * Z)) (s : TiledLayer) : option TiledLayer :=
  match ds with
  | [] => Some s
  | (dx, dy) :: ds' => s' ← pan dx dy s; pans ds' s'
  end.

End Panning.

(** ** The properties the layer is meant to keep *)

(** The sprites reachable from an object, entry by entry. *)
Definition gather {V} (w : V -> list node) (o : obj V) : list node :=
  o ≫= (fun kv => w (snd kv)).

Definition live_row (row : obj (option node)) : list node := gather option_list row.

(** The live nodes: every sprite stored in the tiles grid. *)
Definition live_nodes (t : obj (obj (option node))) : list node := gather live_row t.

(** A JavaScript object holds each key once. *)
Definition wf_tiles (t : obj (obj (option node))) : Prop :=
  NoDup (fst <$> t) /\ Forall (fun kv => NoDup (fst <$> snd kv)) t.

Definition in_window (r : Rect.t) (cx cy : Z) : Prop :=
  Rect.x r <= cx < Rect.x r + Rect.width r /\
  Rect.y r <= cy < Rect.y r + Rect.height r.

Definition in_bounds (L : Layer) (r : Rect.t) : Prop :=
  0 <= Rect.x r /\ 0 <= Rect.y r /\
  Rect.x r + Rect.width r <= Vec.x (Map.size (parent L)) /\
  Rect.y r + Rect.height r <= Vec.y (Map.size (parent L)).

(** The derived edges agree with [x], [y], [width], [height]. *)
Definition edges_ok (r : Rect.t) : Prop :=
  Rect.left r = Rect.x r /\ Rect.right r = Rect.x r + Rect.width r - 1 /\
  Rect.top r = Rect.y r /\ Rect.bottom r = Rect.y r + Rect.height r - 1.

Definition positive (r : Rect.t) : Prop := 0 < Rect.width r /\ 0 < Rect.height r.

(** Window containment: every live coordinate lies in the rendered
    rectangle. *)
Definition contained (s : TiledLayer) : Prop :=
  forall cx cy n, tile_at (tiles s) cx cy = Some n -> in_window (_rendered s) cx cy.

(** Conservation: the sprites ever created are [0 .. length sprites), in
    creation order on the display list, and the live nodes together with
    the pool are exactly those, each once. *)
Definition conserved (s : TiledLayer) : Prop :=
  children s = seq 0 (length (sprites s)) /\
  live_nodes (tiles s) ++ _tilePool s ≡ₚ children s.

Definition occupied (s : TiledLayer) (cx cy : Z) : bool :=
  match tile_at (tiles s) cx cy with Some _ => true | None => false end.

(** Whether the tile id at a coordinate has a tileset. *)
Definition resolves (L : Layer) (cx cy : Z) : bool :=
  match Map.getTileset (parent L) (tileId_at L (cx + cy * Vec.x (size L))) with
  | Some _ => true
  | None => false
  end.

(** The precedence rule in the spec's words: the first source that defines
    [interactive] or [interactiveTiles] decides, later ones are not looked
    at, and with no such source the flag is false. *)
Fixpoint first_defined (sources : list Props.t) : bool :=
  match sources with
  | [] => false
  | p :: rest =>
      if defines_interactive p then interactive_value p else first_defined rest
  end.

(** What [moveTileSprite] writes on the sprite it binds at [(x, y)] when
    the tile id there has tileset [set]. *)
Definition binding (L : Layer) (set : Tileset.t) (x y : Z) : Tile.t -> Tile.t :=
  let tileId := tileId_at L (x + y * Vec.x (size L)) in
  let props := Tileset.getTileProperties set tileId in
  bind_tile (Tileset.getTileTexture set tileId) props (tile_position L set x y)
    match Props.hitArea props with
    | Some h => Some h
    | None => Props.tileHitArea (Tileset.properties set)
    end
    (_getInteractive L (Some set) props).

(** What [clearTiles] does to a sprite it frees. *)
Definition freed (t : Tile.t) : Tile.t := Tile.disablePhysics (Tile.setVisible false t).

(** The sprite shows the tile of coordinate [(x, y)]: it is visible and has
    the texture, the position, the interactive flag, the collision type and
    the hit area that [moveTileSprite] takes from the tile id there. *)
Definition shows (L : Layer) (x y : Z) (t : Tile.t) : Prop :=
  exists set,
    let tileId := tileId_at L (x + y * Vec.x (size L)) in
    let props := Tileset.getTileProperties set tileId in
    Map.getTileset (parent L) tileId = Some set /\
    Tile.visible t = true /\
    Tile.texture t = Tileset.getTileTexture set tileId /\
    Tile.position t = tile_position L set x y /\
    Tile.interactive t = _getInteractive L (Some set) props /\
    Tile.collisionType t = Props.type props /\
    Tile.hitArea t =
      match Props.hitArea props with
      | Some h => Some h
      | None => Props.tileHitArea (Tileset.properties set)
      end.

(** ** Sample layers *)

Definition plain_tileset : Tileset.t :=
  Tileset.mk (Vec.mk 32 32) (Vec.mk 0 0) Props.empty
    (fun o => match o with Some i => i | None => 0 end)
    (fun _ => Props.empty).

Definition first_tileset (set : Tileset.t) (o : option Z) : option Tileset.t :=
  match o with
  | Some i => if 0 <? i then Some set else None
  | None => None
  end.

(** A [w] x [h] orthogonal map of 32-pixel tiles, every cell holding tile 1. *)
Definition full_layer (w h : Z) : Layer :=
  mkLayer (repeat 1 (Z.to_nat (w * h))) (Vec.mk w h) Props.empty
    (Map.mk (Vec.mk w h) (Vec.mk 32 32) (Vec.mk 32 32) (Vec.mk 0 0)
       "orthogonal" Props.empty (first_tileset plain_tileset)).

(** A 4 x 4 isometric map with 64 x 32 tiles and a matching tileset. *)
Definition iso_layer : Layer :=
  mkLayer (repeat 1 16%nat) (Vec.mk 4 4) Props.empty
    (Map.mk (Vec.mk 4 4) (Vec.mk 64 32) (Vec.mk 64 32) (Vec.mk 0 0)
       "isometric" Props.empty
       (first_tileset
          (Tileset.mk (Vec.mk 64 32) (Vec.mk 0 0) Props.empty
             (fun _ => 1) (fun _ => Props.empty)))).

(** A 2 x 1 map: a collidable, interactive tile next to an empty cell. *)
Definition solid_layer : Layer :=
  mkLayer [1; 0] (Vec.mk 2 1) Props.empty
    (Map.mk (Vec.mk 2 1) (Vec.mk 32 32) (Vec.mk 32 32) (Vec.mk 0 0)
       "orthogonal" Props.empty
       (first_tileset
          (Tileset.mk (Vec.mk 32 32) (Vec.mk 0 0) Props.empty
             (fun _ => 1)
             (fun _ => Props.mk (Some (JBool true)) None None None true None)))).

(** ** The loops as lists of moves *)

(** One [moveTileSprite] call: source and target coordinate. *)
Record move : Type := mkMove { fromX : Z; fromY : Z; toX : Z; toY : Z }.

Definition move_by (L : Layer) (c : move) (s : TiledLayer) : TiledLayer :=
  moveTileSprite L (fromX c) (fromY c) (toX c) (toY c) s.

Definition moves (L : Layer) (cs : list move) (s : TiledLayer) : TiledLayer :=
  foldl (fun s c => move_by L c s) s cs.

Definition target (c : move) : Z * Z := (toX c, toY c).

(** The calls each [_render*] loop makes on rectangle [r]. *)
Definition left_move (f : bool) (r : Rect.t) (i : Z) : move :=
  mkMove (if f then -1 else Rect.right r) (if f then -1 else Rect.top r + i)
    (Rect.left r - 1) (Rect.top r + i).
Definition right_move (f : bool) (r : Rect.t) (i : Z) : move :=
  mkMove (if f then -1 else Rect.left r) (if f then -1 else Rect.top r + i)
    (Rect.right r + 1) (Rect.top r + i).
Definition up_move (f : bool) (r : Rect.t) (i : Z) : move :=
  mkMove (if f then -1 else Rect.left r + i) (if f then -1 else Rect.bottom r)
    (Rect.left r + i) (Rect.top r - 1).
Definition down_move (f : bool) (r : Rect.t) (i : Z) : move :=
  mkMove (if f then -1 else Rect.left r + i) (if f then -1 else Rect.top r)
    (Rect.left r + i) (Rect.bottom r + 1).

(** The rectangle each [_render*] leaves. *)
Definition rect_of (x y w h : Z) : Rect.t :=
  Rect.mk x y w h x (x + w - 1) y (y + h - 1).
Definition grow (f : bool) (v : Z) : Z := if f then v + 1 else v.
Definition rect_left (f : bool) (r : Rect.t) : Rect.t :=
  rect_of (Rect.x r - 1) (Rect.y r) (grow f (Rect.width r)) (Rect.height r).
Definition rect_right (f : bool) (r : Rect.t) : Rect.t :=
  rect_of (if f then Rect.x r else Rect.x r + 1) (Rect.y r)
    (grow f (Rect.width r)) (Rect.height r).
Definition rect_up (f : bool) (r : Rect.t) : Rect.t :=
  rect_of (Rect.x r) (Rect.y r - 1) (Rect.width r) (grow f (Rect.height r)).
Definition rect_down (f : bool) (r : Rect.t) : Rect.t :=
  rect_of (Rect.x r) (if f then Rect.y r else Rect.y r + 1)
    (Rect.width r) (grow f (Rect.height r)).

(** The clamped start and end of [renderTiles] along one axis. *)
Definition clamp_start (start : Z) : Z := if start <? 0 then 0 else start.
Definition clamp_end (start num size : Z) : Z :=
  if clamp_start start + num <=? size
  then clamp_start start + num else size - clamp_start start.

(** The calls of the two nested loops of [renderTiles]. *)
Definition window_moves (x0 y0 w h : Z) : list move :=
  x ← seqZ x0 w; (fun y => mkMove x y x y) <$> seqZ y0 h.

(** The states in which panning keeps containment: a rectangle with
    consistent edges and at least one column and one row that holds every
    live coordinate; and those in which it keeps conservation too. *)
Definition framed (s : TiledLayer) : Prop :=
  edges_ok (_rendered s) /\ positive (_rendered s) /\ contained s.

Definition steady (s : TiledLayer) : Prop :=
  framed s /\ conserved s /\ wf_tiles (tiles s).

(** Conservation as the spec words it: no node is both live and pooled (nor
    live under two coordinates, nor pooled twice), every sprite ever
    created is live or pooled, and the counts add up. *)
Definition exactly_one (s : TiledLayer) : Prop :=
  NoDup (live_nodes (tiles s) ++ _tilePool s) /\
  (forall n, n ∈ children s <-> n ∈ live_nodes (tiles s) \/ n ∈ _tilePool s) /\
  (length (live_nodes (tiles s)) + length (_tilePool s) = length (children s))%nat.

(** How a layer [s] reached while [clearTiles] runs relates to the layer
    [s0] the call started from: the sprites are conserved, only the grid,
    the pool and the sprites change, a sprite is as it was or freed, and a
    sprite that has left the grid has been freed. *)
Definition clearing (s0 s : TiledLayer) : Prop :=
  wf_tiles (tiles s) /\
  live_nodes (tiles s) ++ _tilePool s ≡ₚ live_nodes (tiles s0) ++ _tilePool s0 /\
  children s = children s0 /\ _rendered s = _rendered s0 /\
  _buffered s = _buffered s0 /\ _panDelta s = _panDelta s0 /\
  length (sprites s) = length (sprites s0) /\
  (forall n, sprites s !! n = sprites s0 !! n \/
             sprites s !! n = freed <$> sprites s0 !! n) /\
  (forall cx cy n, tile_at (tiles s0) cx cy = Some n ->
     tile_at (tiles s) cx cy = Some n \/
     sprites s !! n = freed <$> sprites s0 !! n).

(** A property that every step of [pan] keeps. *)
Record pan_stable (L : Layer) (P : TiledLayer -> Prop) : Prop := mkPanStable {
  stable_add : forall a b s, P s -> P (add_panDelta a b s);
  stable_flag_left : forall s, P s -> P (set_buffered_left s);
  stable_flag_right : forall s, P s -> P (set_buffered_right s);
  stable_flag_top : forall s, P s -> P (set_buffered_top s);
  stable_flag_bottom : forall s, P s -> P (set_buffered_bottom s);
  stable_left : forall f s, P s -> P (_renderLeft L f s);
  stable_right : forall f s, P s -> P (_renderRight L f s);
  stable_up : forall f s, P s -> P (_renderUp L f s);
  stable_down : forall f s, P s -> P (_renderDown L f s)
}.

(** Two moves that share no coordinate. *)
Definition apart (c c' : move) : Prop :=
  ~ (fromX c' = fromX c /\ fromY c' = fromY c) /\
  ~ (fromX c' = toX c /\ fromY c' = toY c) /\
  ~ (toX c' = toX c /\ toY c' = toY c) /\
  ~ (toX c' = fromX c /\ toY c' = fromY c).

(** The four threshold shifts of [pan] (the [_render*] calls without
    [forceNew]), the moves each makes and their number. *)
Inductive edge : Type := ToLeft | ToRight | ToUp | ToDown.

Definition shift (L : Layer) (e : edge) (s : TiledLayer) : TiledLayer :=
  match e with
  | ToLeft => _renderLeft L false s
  | ToRight => _renderRight L false s
  | ToUp => _renderUp L false s
  | ToDown => _renderDown L false s
  end.

Definition shift_move (e : edge) (r : Rect.t) (i : Z) : move :=
  match e with
  | ToLeft => left_move false r i
  | ToRight => right_move false r i
  | ToUp => up_move false r i
  | ToDown => down_move false r i
  end.

Definition shift_length (e : edge) (r : Rect.t) : Z :=
  match e with
  | ToLeft | ToRight => Rect.height r
  | ToUp | ToDown => Rect.width r
  end.

(** Some edge is marked as buffered and the rectangle is not the empty one
    of the constructor. *)
Definition marked (s : TiledLayer) : Prop :=
  (Buffered.left (_buffered s) || Buffered.right (_buffered s) ||
   Buffered.top (_buffered s) || Buffered.bottom (_buffered s) = true) /\
  0 <= Rect.width (_rendered s) /\ 0 <= Rect.height (_rendered s) /\
  0 < Rect.width (_rendered s) + Rect.height (_rendered s).

(** Which edge a [pan] call pre-renders, if any: the if / else-if chain of
    [pan] read as a choice. *)
Definition buffer_choice (dx dy : Z) (b : Buffered.t) : option edge :=
  if (0 <? dx) && negb (Buffered.left b) then Some ToLeft
  else if (dx <? 0) && negb (Buffered.right b) then Some ToRight
  else if (0 <? dy) && negb (Buffered.top b) then Some ToUp
  else if (dy <? 0) && negb (Buffered.bottom b) then Some ToDown
  else None.

(** The flags with the chosen edge marked. *)
Definition mark (c : option edge) (b : Buffered.t) : Buffered.t :=
  match c with
  | Some ToLeft => Buffered.mk true (Buffered.right b) (Buffered.top b) (Buffered.bottom b)
  | Some ToRight => Buffered.mk (Buffered.left b) true (Buffered.top b) (Buffered.bottom b)
  | Some ToUp => Buffered.mk (Buffered.left b) (Buffered.right b) true (Buffered.bottom b)
  | Some ToDown => Buffered.mk (Buffered.left b) (Buffered.right b) (Buffered.top b) true
  | None => b
  end.

(** 1 when the choice is edge [e], 0 otherwise. *)
Definition toward (e : edge) (c : option edge) : Z :=
  match e, c with
  | ToLeft, Some ToLeft | ToRight, Some ToRight
  | ToUp, Some ToUp | ToDown, Some ToDown => 1
  | _, _ => 0
  end.

(** The number of edges marked as buffered. *)
Definition marks (b : Buffered.t) : Z :=
  Z.b2z (Buffered.left b) + Z.b2z (Buffered.right b) +
  Z.b2z (Buffered.top b) + Z.b2z (Buffered.bottom b).

(** The sum of the horizontal, resp. vertical, deltas of a list of pans. *)
Definition total_dx (ds : list (Z * Z)) : Z := foldr Z.add 0 (fst <$> ds).
Definition total_dy (ds : list (Z * Z)) : Z := foldr Z.add 0 (snd <$> ds).

(** Every live sprite carries the binding of the coordinate it is stored
    under, and every pooled sprite is hidden. *)
Definition showing (L : Layer) (s : TiledLayer) : Prop :=
  forall cx cy n, tile_at (tiles s) cx cy = Some n ->
    exists set t0,
      Map.getTileset (parent L) (tileId_at L (cx + cy * Vec.x (size L))) = Some set /\
      sprites s !! n = Some (binding L set cx cy t0).

Definition pool_hidden (s : TiledLayer) : Prop :=
  forall n, n ∈ _tilePool s ->
    exists t, sprites s !! n = Some t /\ Tile.visible t = false.

Definition tidy (L : Layer) (s : TiledLayer) : Prop := showing L s /\ pool_hidden s.

(** ** gf.EventEmitter *)

(** The emitter mixin of [utils/EventEmitter.js]. Functions are compared by
    identity, so a function value is known by an identifier: a plain
    function, or the wrapper [g] that [once] creates, which closes over the
    event type and carries the wrapped function in its [listener] property.
    The body of a plain listener is not modelled: calling it is recorded in
    [calls], and it is taken to leave the emitter's registrations alone. *)
Module EventEmitter.

Inductive fn : Type :=
| Plain (id : nat)
| Wrapper (id : nat) (type : string) (listener : fn).

(** [f === g]. *)
Fixpoint same (f g : fn) : bool :=
  match f, g with
  | Plain i, Plain j => Nat.eqb i j
  | Wrapper i t f', Wrapper j u g' => Nat.eqb i j && String.eqb t u && same f' g'
  | _, _ => false
  end.

(** [f.listener && f.listener === l]: only wrappers have the property. *)
Definition wraps (f l : fn) : bool :=
  match f with
  | Wrapper _ _ inner => same inner l
  | Plain _ => false
  end.

(** What [_events[type]] holds when it is not undefined: the one listener,
    or an array of listeners. *)
Inductive handler : Type :=
| Single (f : fn)
| Several (list : list fn).

Record t (A : Type) : Type := mk {
  _events : string -> option handler;
  calls : list (nat * A);
  fresh : nat
}.
Arguments mk {A}.
Arguments _events {A}.
Arguments calls {A}.
Arguments fresh {A}.

(** [this._events = this._events || {}] on an object without events. The
    new object has no property of its own, so a lookup finds what
    Object.prototype holds under the name: [inherited] gives the function
    found there, if any, as under "toString" or "constructor". (The name
    "__proto__", under which the lookup gives an object, is not an event
    type of this model.) *)
Definition create {A} (inherited : string -> option fn) : t A :=
  mk (fun type =>
        match inherited type with
        | Some f => Some (Single f)
        | None => None
        end) [] 0%nat.

(** [this._events[type] = h], with [None] for undefined. *)
Definition set_handler {A} (type : string) (h : option handler) (e : t A) : t A :=
  mk (fun ty => if String.eqb ty type then h else _events e ty) (calls e) (fresh e).

Definition log {A} (l : list (nat * A)) (e : t A) : t A :=
  mk (_events e) (calls e ++ l) (fresh e).

Definition on {A} (type : string) (listener : fn) (e : t A) : t A :=
  match _events e type with
  | None => set_handler type (Some (Single listener)) e
  | Some (Several list) => set_handler type (Some (Several (list ++ [listener]))) e
  | Some (Single f) => set_handler type (Some (Several [f; listener])) e
  end.

(** [for(i = length; i-- > 0;)] of [off]: the highest index below [i]
    whose element is the listener or wraps it. The loop starts at the
    length, so the index read is always in range. *)
Fixpoint position (listener : fn) (list : list fn) (i : nat) : option nat :=
  match i with
  | O => None
  | S i' =>
      match list !! i' with
      | Some f =>
          if same f listener || wraps f listener then Some i'
          else position listener list i'
      | None => None
      end
  end.

Definition off {A} (type : string) (listener : fn) (e : t A) : t A :=
  match _events e type with
  | None => e
  | Some (Single f) =>
      if same f listener || wraps f listener then set_handler type None e else e
  | Some (Several list) =>
      match position listener list (length list) with
      | None => e
      | Some p =>
          if Nat.eqb (length list) 1 then set_handler type None e
          else set_handler type (Some (Several (delete p list))) e
      end
  end.

(** Calling a listener with [this] the emitter: a wrapper removes itself
    and calls the function it wraps. *)
Fixpoint call {A} (f : fn) (a : A) (e : t A) : t A :=
  match f with
  | Plain id => log [(id, a)] e
  | Wrapper id type listener => call listener a (off type (Wrapper id type listener) e)
  end.

(** [emit(type, ...a)]: false when nothing is registered, otherwise the
    emitter; an array of listeners is copied before any of them is called. *)
Definition emit {A} (type : string) (a : A) (e : t A) : bool * t A :=
  match _events e type with
  | None => (false, e)
  | Some (Single f) => (true, call f a e)
  | Some (Several list) => (true, foldl (fun e f => call f a e) e list)
  end.

Definition once {A} (type : string) (listener : fn) (e : t A) : t A :=
  on type (Wrapper (fresh e) type listener) (mk (_events e) (calls e) (S (fresh e))).

End EventEmitter.

(** The listeners registered for an event type, in the order [emit] calls
    them. *)
Definition listeners {A} (e : EventEmitter.t A) (type : string) : list EventEmitter.fn :=
  match EventEmitter._events e type with
  | None => []
  | Some (EventEmitter.Single f) => [f]
  | Some (EventEmitter.Several l) => l
  end.

Definition ident (f : EventEmitter.fn) : nat :=
  match f with
  | EventEmitter.Plain i => i
  | EventEmitter.Wrapper i _ _ => i
  end.

Definition is_plain (f : EventEmitter.fn) : Prop :=
  match f with
  | EventEmitter.Plain _ => True
  | EventEmitter.Wrapper _ _ _ => False
  end.

(** The calls an [emit] with data [a] makes on plain listeners. *)
Definition calls_of {A} (a : A) (l : list EventEmitter.fn) : list (nat * A) :=
  (fun f => (ident f, a)) <$> l.

(** [on] for each of a list of plain listeners, in order. *)
Definition register {A} (type : string) (ids : list nat) (e : EventEmitter.t A)
  : EventEmitter.t A :=
  foldl (fun e i => EventEmitter.on type (EventEmitter.Plain i) e) e ids.

(** The calls made on an emitter. *)
Inductive op (A : Type) : Type :=
| On (type : string) (listener : EventEmitter.fn)
| Off (type : string) (listener : EventEmitter.fn)
| Once (type : string) (listener : EventEmitter.fn)
| Emit (type : string) (a : A).
Arguments On {A}.
Arguments Off {A}.
Arguments Once {A}.
Arguments Emit {A}.

Definition run_op {A} (e : EventEmitter.t A) (o : op A) : EventEmitter.t A :=
  match o with
  | On type l => EventEmitter.on type l e
  | Off type l => EventEmitter.off type l e
  | Once type l => EventEmitter.once type l e
  | Emit type a => snd (EventEmitter.emit type a e)
  end.

Definition run {A} (ops : list (op A)) (e : EventEmitter.t A) : EventEmitter.t A :=
  foldl run_op e ops.

(** No event type is left with an empty array of listeners. *)
Definition no_empty_array {A} (e : EventEmitter.t A) : Prop :=
  forall type, EventEmitter._events e type <> Some (EventEmitter.Several []).

(** The functions that ECMAScript puts on Object.prototype, each known by
    a number. *)
Definition object_prototype (name : string) : option EventEmitter.fn :=
  if String.eqb name "constructor" then Some (EventEmitter.Plain 100)
  else if String.eqb name "hasOwnProperty" then Some (EventEmitter.Plain 101)
  else if String.eqb name "isPrototypeOf" then Some (EventEmitter.Plain 102)
  else if String.eqb name "propertyIsEnumerable" then Some (EventEmitter.Plain 103)
  else if String.eqb name "toLocaleString" then Some (EventEmitter.Plain 104)
  else if String.eqb name "toString" then Some (EventEmitter.Plain 105)
  else if String.eqb name "valueOf" then Some (EventEmitter.Plain 106)
  else None.

(** ** The earlier gf.TiledLayer *)

(** The revision of gf.TiledLayer that keeps the tile ids in [tiles] and
    looks a tile up by pixel coordinate. Coordinates and sizes are
    integer-valued numbers. *)
Module TileIndex.

(** What a caller passes for [x] or [y]: nothing, a number or a gf.Vector. *)
Inductive arg : Type :=
| Undefined
| Num (n : Z)
| Vector (x y : Z).

(** ToInt32 on an integer. *)
Definition to_int32 (z : Z) : Z := (z + 2 ^ 31) mod 2 ^ 32 - 2 ^ 31.

(** [~~(v / d)]: the quotient truncated toward zero, as a 32-bit integer;
    a division by zero or of something that is not a number gives an
    infinity or NaN, which [~~] turns into 0. *)
Definition trunc_div (v : arg) (d : Z) : Z :=
  match v with
  | Num n => if d =? 0 then 0 else to_int32 (Z.quot n d)
  | Undefined | Vector _ _ => 0
  end.

(** [var x = x instanceof gf.Vector ? x.x : x,
         y = x instanceof gf.Vector ? x.y : y;] and the rest of
    [getTileIndex]: the second test reads the [x] that the first has
    already replaced. *)
Definition getTileIndex (tileSize size : Vec.t) (x y : arg) : Z :=
  let x1 := match x with Vector vx _ => Num vx | _ => x end in
  let y1 := match x1 with Vector _ vy => Num vy | _ => y end in
  let tx := trunc_div x1 (Vec.x tileSize) in
  let ty := trunc_div y1 (Vec.y tileSize) in
  tx + ty * Vec.x size.

(** [this.tiles[i]] on the Uint32Array: undefined out of range. *)
Definition getTileId (tiles : list Z) (tileSize size : Vec.t) (x y : arg) : option Z :=
  let i := getTileIndex tileSize size x y in
  if i <? 0 then None else tiles !! Z.to_nat i.

End TileIndex.

(** ** gf.TextureFont *)

(** A text drawn with one sprite per character, the sprites recycled
    through the pool [sprites]. Characters are bytes; sizes and positions
    are integer-valued numbers; a texture is known by an identifier. *)
Module TextureFont.

Record sprite : Type := mkSprite {
  texture : Z;
  visible : bool;
  position : Z * Z
}.
Definition setTexture (tex : Z) (s : sprite) : sprite :=
  mkSprite tex (visible s) (position s).
Definition setVisible (b : bool) (s : sprite) : sprite :=
  mkSprite (texture s) b (position s).
Definition setPosition (p : Z * Z) (s : sprite) : sprite :=
  mkSprite (texture s) (visible s) p.

(** What the font is constructed with. *)
Record Font : Type := mkFont {
  ext : string;
  size : Vec.t;
  lineWidth : Z;
  lineHeight : Z;
  map : ascii -> option string;
  textures : string -> option Z
}.

(** What changes: the text, the dirty flag, the pool (last pushed first),
    the display list and the sprites created so far. *)
Record t : Type := mk {
  text : string;
  dirty : bool;
  sprites : list node;
  children : list node;
  store : list sprite
}.

Definition create : t := mk EmptyString false [] [] [].

Definition on_sprite (g : sprite -> sprite) (n : node) (f : t) : t :=
  mk (text f) (dirty f) (sprites f) (children f) (alter g n (store f)).

Section Methods.

Variable F : Font.

(** [ch + this.ext], after [if(this.map[ch]) ch = this.map[ch]]. *)
Definition key (ch : ascii) : string :=
  let name :=
    match map F ch with
    | Some s => if String.eqb s EmptyString then String ch EmptyString else s
    | None => String ch EmptyString
    end in
  String.append name (ext F).

(** [None] stands for the exception thrown when the texture is missing. *)
Definition _getSprite (ch : ascii) (f : t) : option (node * t) :=
  match textures F (key ch) with
  | None => None
  | Some tex =>
      match sprites f with
      | spr :: rest =>
          Some (spr,
                on_sprite (setVisible true) spr
                  (on_sprite (setTexture tex) spr
                     (mk (text f) (dirty f) rest (children f) (store f))))
      | [] =>
          let spr := length (store f) in
          Some (spr,
                on_sprite (setVisible true) spr
                  (mk (text f) (dirty f) [] (children f ++ [spr])
                     (store f ++ [mkSprite tex true (0, 0)])))
      end
  end.

Definition _freeSprite (spr : node) (f : t) : t :=
  on_sprite (setVisible false) spr
    (mk (text f) (dirty f) (spr :: sprites f) (children f) (store f)).

Definition setText (txt : string) (f : t) : t :=
  mk txt true (sprites f) (children f) (store f).

(** [txt.split('\n')]. *)
Fixpoint split_lines (s : string) : list (list ascii) :=
  match s with
  | EmptyString => [[]]
  | String c s' =>
      if Ascii.eqb c "010" then [] :: split_lines s'
      else
        match split_lines s' with
        | l :: ls => (c :: l) :: ls
        | [] => [[c]]
        end
  end.

(** The loop over the characters of one line; it returns the [x] it
    leaves. *)
Fixpoint type_line (str : list ascii) (w x y : Z) (f : t) : option (t * Z) :=
  match str with
  | [] => Some (f, x)
  | ch :: str' =>
      match _getSprite ch f with
      | None => None
      | Some (spr, f') =>
          type_line str' w (x + w) y (on_sprite (setPosition (x, y)) spr f')
      end
  end.

(** The loop over the lines. *)
Fixpoint type_lines (strs : list (list ascii)) (w h x y : Z) (f : t) : option t :=
  match strs with
  | [] => Some f
  | str :: strs' =>
      match type_line str w x y f with
      | None => None
      | Some (f', x') => type_lines strs' w h x' (y + h) f'
      end
  end.

Definition update (f : t) : option t :=
  if dirty f then
    let f1 := foldl (fun f c => _freeSprite c f) f (reverse (children f)) in
    let w := Vec.x (size F) * lineWidth F in
    let h := Vec.y (size F) * lineHeight F in
    match type_lines (split_lines (text f)) w h 0 0 f1 with
    | None => None
    | Some f2 => Some (mk (text f2) false (sprites f2) (children f2) (store f2))
    end
  else Some f.

End Methods.

End TextureFont.

(** The characters of a text with the line each is on, in the order
    [update] draws them, lines counted from [i]. *)
Fixpoint cells_from (i : nat) (strs : list (list ascii)) : list (ascii * nat) :=
  match strs with
  | [] => []
  | str :: strs' => ((fun ch => (ch, i)) <$> str) ++ cells_from (S i) strs'
  end.

Definition cells (txt : string) : list (ascii * nat) :=
  cells_from 0 (TextureFont.split_lines txt).

(** Every character of the text has a texture. *)
Definition drawable (F : TextureFont.Font) (txt : string) : Prop :=
  forall ch i, (ch, i) ∈ cells txt ->
    is_Some (TextureFont.textures F (TextureFont.key F ch)).

(** ** The camera shake effect *)

(** The Shake effect of the camera. The camera it pans is kept as the sum
    [panned] of the pans it was asked for. A callback is known by whether
    what it returns is not [false]; the random offsets are given to
    [update] from outside; [direction] holds the horizontal and the
    vertical bit of the axis constant. *)
Module Shake.

Record t : Type := mk {
  done : bool;
  intensity : Q;
  duration : Q;
  direction : bool * bool;
  offset : Z * Z;
  cb : option bool;
  panned : Z * Z
}.

(** [this.parent.pan(x, y)]. *)
Definition pan (d : Z * Z) (s : t) : t :=
  mk (done s) (intensity s) (duration s) (direction s) (offset s) (cb s)
     (fst (panned s) + fst d, snd (panned s) + snd d).

Definition set_offset (o : Z * Z) (s : t) : t :=
  mk (done s) (intensity s) (duration s) (direction s) o (cb s) (panned s).

(** [start], on the arguments as they stand once a function among them
    has been moved to [cb]: a missing or zero intensity or duration takes
    the default. [dir] holds the two bits of [direction || C.AXIS.BOTH]. *)
Definition start (i d : option Q) (dir : bool * bool) (c : option bool)
    (s : t) : t :=
  let truthy (v : option Q) (dflt : Q) :=
    match v with
    | Some q => if Qeq_bool q 0%Q then dflt else q
    | None => dflt
    end in
  mk false (truthy i (1 # 100)%Q) (truthy d 1000%Q) dir (0, 0) c (panned s).

Definition stop (s : t) : t :=
  mk true (intensity s) 0%Q (direction s) (0, 0) (cb s) (panned s).

(** [Effect.prototype._complete]. *)
Definition _complete (s : t) : t :=
  let s1 := mk true (intensity s) (duration s) (direction s) (offset s) (cb s)
              (panned s) in
  match cb s with
  | Some ret => if ret then stop s1 else s1
  | None => stop s1
  end.

(** [update(dt)], with [rx] and [ry] the rounded random offsets it would
    draw. *)
Definition update (dt : Q) (rx ry : Z) (s : t) : t :=
  if done s then s
  else
    let s := mk (done s) (intensity s) (duration s - dt * 1000)%Q (direction s)
               (offset s) (cb s) (panned s) in
    let s := set_offset (- fst (offset s), - snd (offset s)) s in
    let s := pan (offset s) s in
    if Qle_bool (duration s) 0%Q then _complete s
    else
      let s := if fst (direction s) then set_offset (rx, snd (offset s)) s else s in
      let s := if snd (direction s) then set_offset (fst (offset s), ry) s else s in
      pan (offset s) s.

End Shake.

(** A run of frames: each with its time step and the offsets drawn. *)
Definition shake_frames (frames : list (Q * Z * Z)) (s : Shake.t) : Shake.t :=
  foldl (fun s '(dt, rx, ry) => Shake.update dt rx ry s) s frames.

(** Where the camera stands relative to [p0]: on it when the effect is
    done, off by the current offset while it runs. *)
Definition displaced (p0 : Z * Z) (s : Shake.t) : Prop :=
  Shake.panned s =
  if Shake.done s then p0
  else (fst p0 + fst (Shake.offset s), snd p0 + snd (Shake.offset s)).

(** ** Facts about plain objects *)

Section ObjFacts.

Context {V : Type}.
Implicit Types (o : obj V) (k : Z) (v : V).

Lemma oget_oset_eq k v o : oget k (oset k v o) = Some v.
Proof.
  induction o as [|[k' v'] o IH]; csimpl.
  - by rewrite Z.eqb_refl.
  - destruct (Z.eqb_spec k k') as [->|Hne]; csimpl.
    + by rewrite Z.eqb_refl.
    + destruct (Z.eqb_spec k k'); [done|]. exact IH.
Qed.

Lemma oget_oset_ne k k' v o : k <> k' -> oget k' (oset k v o) = oget k' o.
Proof.
  intros Hne. induction o as [|[k0 v0] o IH]; csimpl.
  - destruct (Z.eqb_spec k' k); [congruence|done].
  - destruct (Z.eqb_spec k k0) as [->|Hk]; csimpl.
    + destruct (Z.eqb_spec k' k0); [congruence|done].
    + destruct (Z.eqb_spec k' k0); [done|]. exact IH.
Qed.

Lemma oget_odel_eq k o : oget k (odel k o) = None.
Proof.
  induction o as [|[k' v'] o IH]; csimpl; [done|].
  destruct (Z.eqb_spec k k') as [->|Hne]; csimpl; [done|].
  destruct (Z.eqb_spec k k'); [done|]. exact IH.
Qed.

Lemma oget_odel_ne k k' o : k <> k' -> oget k' (odel k o) = oget k' o.
Proof.
  intros Hne. induction o as [|[k0 v0] o IH]; csimpl; [done|].
  destruct (Z.eqb_spec k k0) as [->|Hk]; csimpl.
  - destruct (Z.eqb_spec k' k0); [congruence|done].
  - destruct (Z.eqb_spec k' k0); [done|]. exact IH.
Qed.

Lemma oget_None k o : oget k o = None <-> k ∉ fst <$> o.
Proof.
  induction o as [|[k' v'] o IH]; csimpl.
  - split; [intros _; apply not_elem_of_nil|done].
  - rewrite not_elem_of_cons.
    destruct (Z.eqb_spec k k') as [->|Hne].
    + split; [done|]. intros [? _]; congruence.
    + rewrite IH. tauto.
Qed.

Lemma oget_Some_elem k v o : oget k o = Some v -> (k, v) ∈ o.
Proof.
  induction o as [|[k' v'] o IH]; csimpl; [done|].
  destruct (Z.eqb_spec k k') as [->|Hne].
  - intros [= ->]. apply list_elem_of_here.
  - intros H. apply list_elem_of_further. auto.
Qed.

Lemma oget_elem k v o : NoDup (fst <$> o) -> (k, v) ∈ o -> oget k o = Some v.
Proof.
  induction o as [|[k' v'] o IH]; csimpl.
  - intros _ H. by apply elem_of_nil in H.
  - intros Hnd Hin. apply NoDup_cons in Hnd as [Hk Hnd].
    apply elem_of_cons in Hin as [[= -> ->]|Hin].
    + by rewrite Z.eqb_refl.
    + destruct (Z.eqb_spec k k') as [->|Hne]; [|by apply IH].
      exfalso. apply Hk. apply list_elem_of_fmap. by exists (k', v).
Qed.

Lemma keys_oset k v o :
  fst <$> oset k v o =
  match oget k o with Some _ => fst <$> o | None => (fst <$> o) ++ [k] end.
Proof.
  induction o as [|[k' v'] o IH]; csimpl; [done|].
  destruct (Z.eqb_spec k k') as [->|Hne]; csimpl; [done|].
  rewrite IH. by destruct (oget k o).
Qed.

Lemma keys_odel k o : fst <$> odel k o = filter (fun k' => k <> k') (fst <$> o).
Proof.
  induction o as [|[k' v'] o IH]; csimpl; [done|].
  destruct (Z.eqb_spec k k') as [->|Hne].
  - rewrite filter_cons_False by (intros H; by apply H). exact IH.
  - rewrite filter_cons_True by done. csimpl. by rewrite IH.
Qed.

Lemma NoDup_keys_oset k v o : NoDup (fst <$> o) -> NoDup (fst <$> oset k v o).
Proof.
  intros Hnd. rewrite keys_oset. destruct (oget k o) eqn:E; [done|].
  apply NoDup_app. split; [done|]. split; [|apply NoDup_singleton].
  intros x Hx Hx'. apply list_elem_of_singleton in Hx' as ->.
  by apply oget_None in E.
Qed.

Lemma NoDup_keys_odel k o : NoDup (fst <$> o) -> NoDup (fst <$> odel k o).
Proof.
  intros Hnd. rewrite keys_odel. by apply NoDup_filter.
Qed.

Lemma odel_absent k o : oget k o = None -> odel k o = o.
Proof.
  induction o as [|[k' v'] o IH]; csimpl; [done|].
  destruct (Z.eqb_spec k k') as [->|Hne]; [done|].
  intros H. by rewrite IH.
Qed.

End ObjFacts.

Section GatherFacts.

Context {V : Type} (w : V -> list node).
Implicit Types (o : obj V) (k : Z) (v : V).

Lemma gather_cons k v o : gather w ((k, v) :: o) = w v ++ gather w o.
Proof. done. Qed.

Lemma gather_oset_Some k v0 o :
  oget k o = Some v0 ->
  exists rest, gather w o ≡ₚ w v0 ++ rest /\
               forall v, gather w (oset k v o) ≡ₚ w v ++ rest.
Proof.
  induction o as [|[k' v'] o IH]; cbn [oget oset odel]; [done|].
  destruct (Z.eqb_spec k k') as [->|Hne].
  - intros [= ->]. exists (gather w o). split; [done|]. intros v.
    by rewrite gather_cons.
  - intros H. destruct (IH H) as (rest & H1 & H2).
    exists (w v' ++ rest). split.
    + rewrite gather_cons, H1. apply Permutation_app_swap_app.
    + intros v. rewrite gather_cons, H2. apply Permutation_app_swap_app.
Qed.

Lemma gather_oset_None k v o :
  oget k o = None -> gather w (oset k v o) ≡ₚ w v ++ gather w o.
Proof.
  induction o as [|[k' v'] o IH]; cbn [oget oset odel].
  - intros _. by rewrite gather_cons.
  - destruct (Z.eqb_spec k k') as [->|Hne]; [done|].
    intros H. rewrite !gather_cons, (IH H). apply Permutation_app_swap_app.
Qed.

Lemma gather_odel k v0 o :
  NoDup (fst <$> o) -> oget k o = Some v0 ->
  gather w o ≡ₚ w v0 ++ gather w (odel k o).
Proof.
  induction o as [|[k' v'] o IH]; cbn [oget oset odel]; [done|].
  rewrite fmap_cons. intros [Hk Hnd]%NoDup_cons. destruct (Z.eqb_spec k k') as [->|Hne].
  - intros [= ->]. rewrite gather_cons.
    by rewrite (odel_absent k' o) by by apply oget_None.
  - intros H. rewrite !gather_cons, (IH Hnd H). apply Permutation_app_swap_app.
Qed.

Lemma elem_of_gather n o :
  n ∈ gather w o <-> exists k v, (k, v) ∈ o /\ n ∈ w v.
Proof.
  unfold gather. rewrite list_elem_of_bind. split.
  - intros ([k v] & Hn & Hin). eauto.
  - intros (k & v & Hin & Hn). by exists (k, v).
Qed.

End GatherFacts.

Lemma elem_of_oset {V} k (v : V) o kv :
  kv ∈ oset k v o -> kv = (k, v) \/ kv ∈ o.
Proof.
  induction o as [|[k' v'] o IH]; csimpl.
  - intros ->%list_elem_of_singleton. by left.
  - destruct (Z.eqb_spec k k') as [->|Hne].
    + intros [->|H]%elem_of_cons; [by left|]. right. by apply list_elem_of_further.
    + intros [->|H]%elem_of_cons; [right; apply list_elem_of_here|].
      destruct (IH H); [by left|]. right. by apply list_elem_of_further.
Qed.

(** ** Facts about the tiles grid *)

Section GridFacts.

Implicit Types (t : obj (obj (option node))) (x y : Z) (n : node).

Lemma tile_at_row t x y n :
  tile_at t x y = Some n ->
  exists row, oget x t = Some row /\ oget y row = Some (Some n).
Proof.
  unfold tile_at. destruct (oget x t) as [row|]; [|done].
  destruct (oget y row) as [v|] eqn:E; [|done]. intros ->. eauto.
Qed.

Lemma tile_at_put_eq t x y v :
  is_Some (oget x t) -> tile_at (put_tile x y v t) x y = v.
Proof.
  intros [row Hrow]. unfold put_tile, tile_at. rewrite Hrow.
  by rewrite !oget_oset_eq.
Qed.

Lemma tile_at_put_ne t x y v x' y' :
  ~ (x' = x /\ y' = y) -> tile_at (put_tile x y v t) x' y' = tile_at t x' y'.
Proof.
  intros Hne. unfold put_tile, tile_at. destruct (oget x t) as [row|] eqn:Hrow; [|done].
  destruct (decide (x = x')) as [<-|Hx].
  - rewrite oget_oset_eq, Hrow. rewrite oget_oset_ne; [done|]. intros ->. by apply Hne.
  - by rewrite oget_oset_ne.
Qed.

Lemma tile_at_place_eq t x y n : tile_at (place_tile x y n t) x y = Some n.
Proof.
  unfold place_tile, tile_at. destruct (oget x t) as [row|];
    rewrite oget_oset_eq; [by rewrite oget_oset_eq|].
  csimpl. by rewrite Z.eqb_refl.
Qed.

Lemma tile_at_place_ne t x y n x' y' :
  ~ (x' = x /\ y' = y) -> tile_at (place_tile x y n t) x' y' = tile_at t x' y'.
Proof.
  intros Hne. unfold place_tile, tile_at. destruct (oget x t) as [row|] eqn:Hrow.
  - destruct (decide (x = x')) as [<-|Hx].
    + rewrite oget_oset_eq, Hrow. rewrite oget_oset_ne; [done|]. intros ->. by apply Hne.
    + by rewrite oget_oset_ne.
  - destruct (decide (x = x')) as [<-|Hx].
    + rewrite oget_oset_eq, Hrow. csimpl.
      destruct (Z.eqb_spec y' y) as [->|]; [|done]. by destruct Hne.
    + by rewrite oget_oset_ne.
Qed.

Lemma tile_at_del_eq t x y : tile_at (del_tile x y t) x y = None.
Proof.
  unfold del_tile, tile_at. destruct (oget x t) as [row|] eqn:Hrow.
  - by rewrite oget_oset_eq, oget_odel_eq.
  - by rewrite Hrow.
Qed.

Lemma tile_at_del_ne t x y x' y' :
  ~ (x' = x /\ y' = y) -> tile_at (del_tile x y t) x' y' = tile_at t x' y'.
Proof.
  intros Hne. unfold del_tile, tile_at. destruct (oget x t) as [row|] eqn:Hrow; [|done].
  destruct (decide (x = x')) as [<-|Hx].
  - rewrite oget_oset_eq, Hrow. rewrite oget_odel_ne; [done|]. intros ->. by apply Hne.
  - by rewrite oget_oset_ne.
Qed.

Lemma live_row_cell row y v :
  oget y row = Some v ->
  exists rest, live_row row ≡ₚ option_list v ++ rest /\
               forall v', live_row (oset y v' row) ≡ₚ option_list v' ++ rest.
Proof. apply gather_oset_Some. Qed.

Lemma live_nodes_put_None t x y n :
  tile_at t x y = Some n ->
  live_nodes t ≡ₚ n :: live_nodes (put_tile x y None t).
Proof.
  intros (row & Hrow & Hy)%tile_at_row. unfold put_tile. rewrite Hrow.
  destruct (gather_oset_Some live_row _ _ _ Hrow) as (rest & H1 & H2).
  destruct (live_row_cell _ _ _ Hy) as (rest' & H3 & H4).
  unfold live_nodes. rewrite H1, H2, H3, H4. done.
Qed.

Lemma live_nodes_place t x y n :
  tile_at t x y = None ->
  live_nodes (place_tile x y n t) ≡ₚ n :: live_nodes t.
Proof.
  unfold tile_at, place_tile, live_nodes. destruct (oget x t) as [row|] eqn:Hrow.
  - intros Hy. destruct (gather_oset_Some live_row _ _ _ Hrow) as (rest & H1 & H2).
    rewrite H1, H2. change (n :: live_row row ++ rest) with ((n :: live_row row) ++ rest).
    apply Permutation_app_tail.
    destruct (oget y row) as [v|] eqn:E.
    + subst v. destruct (live_row_cell _ _ _ E) as (rest' & H3 & H4).
      by rewrite H3, H4.
    + unfold live_row. by rewrite gather_oset_None.
  - intros _. by rewrite gather_oset_None.
Qed.

Lemma wf_row t x row : wf_tiles t -> oget x t = Some row -> NoDup (fst <$> row).
Proof.
  intros [_ Hrows] H%oget_Some_elem.
  rewrite Forall_forall in Hrows. exact (Hrows _ H).
Qed.

Lemma wf_oset t x row : wf_tiles t -> NoDup (fst <$> row) -> wf_tiles (oset x row t).
Proof.
  intros [Hk Hrows] Hrow. split; [by apply NoDup_keys_oset|].
  rewrite Forall_forall in *. intros kv [->|H]%elem_of_oset; [done|]. by apply Hrows.
Qed.

Lemma wf_put t x y v : wf_tiles t -> wf_tiles (put_tile x y v t).
Proof.
  intros Hwf. unfold put_tile. destruct (oget x t) as [row|] eqn:Hrow; [|done].
  apply wf_oset; [done|]. apply NoDup_keys_oset. by eapply wf_row.
Qed.

Lemma wf_place t x y n : wf_tiles t -> wf_tiles (place_tile x y n t).
Proof.
  intros Hwf. unfold place_tile. destruct (oget x t) as [row|] eqn:Hrow.
  - apply wf_oset; [done|]. apply NoDup_keys_oset. by eapply wf_row.
  - apply wf_oset; [done|]. apply NoDup_singleton.
Qed.

Lemma wf_del t x y : wf_tiles t -> wf_tiles (del_tile x y t).
Proof.
  intros Hwf. unfold del_tile. destruct (oget x t) as [row|] eqn:Hrow; [|done].
  apply wf_oset; [done|]. apply NoDup_keys_odel. by eapply wf_row.
Qed.

Lemma live_nodes_del t x y :
  wf_tiles t ->
  live_nodes t ≡ₚ option_list (tile_at t x y) ++ live_nodes (del_tile x y t).
Proof.
  intros Hwf. unfold tile_at, del_tile, live_nodes.
  destruct (oget x t) as [row|] eqn:Hrow; [|done].
  destruct (gather_oset_Some live_row _ _ _ Hrow) as (rest & H1 & H2).
  rewrite H1, H2, app_assoc. apply Permutation_app_tail.
  destruct (oget y row) as [v|] eqn:E.
  - unfold live_row. apply gather_odel; [by eapply wf_row|done].
  - by rewrite odel_absent.
Qed.

Lemma elem_of_live_nodes t n :
  wf_tiles t -> n ∈ live_nodes t <-> exists x y, tile_at t x y = Some n.
Proof.
  intros Hwf. unfold live_nodes. rewrite elem_of_gather. split.
  - intros (x & row & Hin & Hn). unfold live_row in Hn.
    apply elem_of_gather in Hn as (y & v & Hy & Hv).
    destruct v as [m|]; [|by apply elem_of_nil in Hv].
    apply list_elem_of_singleton in Hv as <-.
    exists x, y. unfold tile_at.
    rewrite (oget_elem x row t) by (by destruct Hwf).
    rewrite (oget_elem y (Some n) row); [done| |done].
    destruct Hwf as [_ Hrows]. rewrite Forall_forall in Hrows. exact (Hrows _ Hin).
  - intros (x & y & (row & Hrow & Hy)%tile_at_row).
    exists x, row. split; [by apply oget_Some_elem|].
    apply elem_of_gather. exists y, (Some n). split; [by apply oget_Some_elem|].
    by apply list_elem_of_singleton.
Qed.

End GridFacts.

(** ** moveTileSprite, case by case *)

Section MoveFacts.

Variable L : Layer.
Implicit Types (s : TiledLayer) (n : node).

Lemma resolves_true x y :
  resolves L x y = true <->
  exists set, Map.getTileset (parent L) (tileId_at L (x + y * Vec.x (size L))) = Some set.
Proof.
  unfold resolves. destruct (Map.getTileset _ _); split; eauto; try done.
  by intros [? ?].
Qed.

Lemma resolves_false x y :
  resolves L x y = false <->
  Map.getTileset (parent L) (tileId_at L (x + y * Vec.x (size L))) = None.
Proof. unfold resolves. by destruct (Map.getTileset _ _). Qed.

Lemma move_unresolved_free fx fy tx ty s :
  resolves L tx ty = false -> tile_at (tiles s) fx fy = None ->
  moveTileSprite L fx fy tx ty s = s.
Proof.
  intros Hr%resolves_false Hf. unfold moveTileSprite. by rewrite Hr, Hf.
Qed.

Lemma move_unresolved_live fx fy tx ty s n :
  resolves L tx ty = false -> tile_at (tiles s) fx fy = Some n ->
  moveTileSprite L fx fy tx ty s =
  pool_push n (on_sprite (Tile.setVisible false) n
                 (with_tiles (put_tile fx fy None (tiles s)) s)).
Proof.
  intros Hr%resolves_false Hf. unfold moveTileSprite. by rewrite Hr, Hf.
Qed.

Lemma move_resolved_live fx fy tx ty s n set :
  Map.getTileset (parent L) (tileId_at L (tx + ty * Vec.x (size L))) = Some set ->
  tile_at (tiles s) fx fy = Some n ->
  moveTileSprite L fx fy tx ty s =
  let s3 := on_sprite (binding L set tx ty) n
              (with_tiles (put_tile fx fy None (tiles s)) s) in
  with_tiles (place_tile tx ty n (tiles s3)) s3.
Proof. intros Hr Hf. unfold moveTileSprite. by rewrite Hr, Hf. Qed.

Lemma move_resolved_pool fx fy tx ty s n p set :
  Map.getTileset (parent L) (tileId_at L (tx + ty * Vec.x (size L))) = Some set ->
  tile_at (tiles s) fx fy = None -> _tilePool s = n :: p ->
  moveTileSprite L fx fy tx ty s =
  let s3 := on_sprite (binding L set tx ty) n (with_pool p s) in
  with_tiles (place_tile tx ty n (tiles s3)) s3.
Proof. intros Hr Hf Hp. unfold moveTileSprite. by rewrite Hr, Hf, Hp. Qed.

Lemma move_resolved_new fx fy tx ty s set :
  Map.getTileset (parent L) (tileId_at L (tx + ty * Vec.x (size L))) = Some set ->
  tile_at (tiles s) fx fy = None -> _tilePool s = [] ->
  moveTileSprite L fx fy tx ty s =
  let tileId := tileId_at L (tx + ty * Vec.x (size L)) in
  let '(n, s2) := new_tile (Tileset.getTileTexture set tileId) s in
  let s3 := on_sprite (binding L set tx ty) n s2 in
  with_tiles (place_tile tx ty n (tiles s3)) s3.
Proof. intros Hr Hf Hp. unfold moveTileSprite. by rewrite Hr, Hf, Hp. Qed.

(** Splits a goal about [moveTileSprite L fx fy tx ty s] into its five
    paths and rewrites the call away. *)
Ltac move_cases fx fy tx ty s :=
  let set := fresh "set" in
  let n := fresh "n" in
  let p := fresh "p" in
  let Hr := fresh "Hr" in
  let Hf := fresh "Hf" in
  let Hp := fresh "Hp" in
  destruct (Map.getTileset (parent L) (tileId_at L (tx + ty * Vec.x (size L))))
    as [set|] eqn:Hr;
  [ destruct (tile_at (tiles s) fx fy) as [n|] eqn:Hf;
    [ rewrite (move_resolved_live fx fy tx ty s n set Hr Hf)
    | destruct (_tilePool s) as [|n p] eqn:Hp;
      [ rewrite (move_resolved_new fx fy tx ty s set Hr Hf Hp)
      | rewrite (move_resolved_pool fx fy tx ty s n p set Hr Hf Hp) ] ]
  | apply resolves_false in Hr;
    destruct (tile_at (tiles s) fx fy) as [n|] eqn:Hf;
    [ rewrite (move_unresolved_live fx fy tx ty s n Hr Hf)
    | rewrite (move_unresolved_free fx fy tx ty s Hr Hf) ] ].

Lemma move_rendered fx fy tx ty s :
  _rendered (moveTileSprite L fx fy tx ty s) = _rendered s.
Proof. move_cases fx fy tx ty s; done. Qed.

Lemma move_buffered fx fy tx ty s :
  _buffered (moveTileSprite L fx fy tx ty s) = _buffered s.
Proof. move_cases fx fy tx ty s; done. Qed.

Lemma move_panDelta fx fy tx ty s :
  _panDelta (moveTileSprite L fx fy tx ty s) = _panDelta s.
Proof. move_cases fx fy tx ty s; done. Qed.

(** A coordinate live after the call is the target, or was live before and
    is not the source. *)
Lemma move_tile_at fx fy tx ty s cx cy n :
  tile_at (tiles (moveTileSprite L fx fy tx ty s)) cx cy = Some n ->
  (cx = tx /\ cy = ty) \/
  (~ (cx = fx /\ cy = fy) /\ tile_at (tiles s) cx cy = Some n).
Proof.
  intros H.
  destruct (decide (cx = tx /\ cy = ty)) as [|Hto]; [by left|]. right.
  destruct (decide (cx = fx /\ cy = fy)) as [[-> ->]|Hfrom].
  - exfalso. revert H. move_cases fx fy tx ty s; cbn.
    + rewrite tile_at_place_ne by done.
      rewrite tile_at_put_eq; [done|].
      apply tile_at_row in Hf as (row & -> & _). eauto.
    + rewrite tile_at_place_ne by done. by rewrite Hf.
    + rewrite tile_at_place_ne by done. by rewrite Hf.
    + rewrite tile_at_put_eq; [done|].
      apply tile_at_row in Hf as (row & -> & _). eauto.
    + by rewrite Hf.
  - split; [done|]. revert H. move_cases fx fy tx ty s; cbn;
      rewrite ?tile_at_place_ne, ?tile_at_put_ne by done; done.
Qed.

Lemma move_tile_at_other fx fy tx ty s cx cy :
  ~ (cx = tx /\ cy = ty) -> ~ (cx = fx /\ cy = fy) ->
  tile_at (tiles (moveTileSprite L fx fy tx ty s)) cx cy = tile_at (tiles s) cx cy.
Proof.
  intros Hto Hfrom. move_cases fx fy tx ty s; cbn;
    rewrite ?tile_at_place_ne, ?tile_at_put_ne by done; done.
Qed.

Lemma move_wf fx fy tx ty s :
  wf_tiles (tiles s) -> wf_tiles (tiles (moveTileSprite L fx fy tx ty s)).
Proof.
  intros Hwf. move_cases fx fy tx ty s; cbn; auto using wf_place, wf_put.
Qed.

Lemma move_sprites_length fx fy tx ty s :
  (length (sprites s) <= length (sprites (moveTileSprite L fx fy tx ty s)))%nat.
Proof.
  move_cases fx fy tx ty s; cbn; rewrite ?length_alter, ?length_app; cbn; lia.
Qed.

(** Conservation survives a call whose target holds no other sprite. *)
Lemma move_conserved fx fy tx ty s :
  conserved s ->
  tile_at (tiles s) tx ty = None \/ (tx = fx /\ ty = fy) ->
  conserved (moveTileSprite L fx fy tx ty s).
Proof.
  intros [Hch Hperm] Hto. unfold conserved.
  assert (Hfree : forall n, tile_at (tiles s) fx fy = Some n ->
            tile_at (put_tile fx fy None (tiles s)) tx ty = None).
  { intros n Hf. destruct (decide (tx = fx /\ ty = fy)) as [[-> ->]|Hne].
    - apply tile_at_put_eq. apply tile_at_row in Hf as (row & -> & _). eauto.
    - rewrite tile_at_put_ne by done. by destruct Hto. }
  assert (Hfree' : tile_at (tiles s) fx fy = None -> tile_at (tiles s) tx ty = None).
  { intros Hf. destruct Hto as [|[-> ->]]; done. }
  move_cases fx fy tx ty s; cbn; rewrite ?length_alter.
  - split; [done|]. rewrite live_nodes_place by eauto.
    by rewrite <- Hperm, (live_nodes_put_None _ _ _ _ Hf).
  - rewrite length_app, Nat.add_1_r, seq_S, Hch. split; [done|].
    rewrite live_nodes_place by eauto. cbn. rewrite Hp, <- Hch, <- Hperm.
    by rewrite Permutation_cons_append.
  - split; [done|]. rewrite live_nodes_place by eauto.
    rewrite <- Hperm. cbn. apply Permutation_middle.
  - split; [done|]. rewrite <- Hperm, (live_nodes_put_None _ _ _ _ Hf).
    cbn. symmetry. apply Permutation_middle.
  - done.
Qed.

(** A call from a free coordinate takes one sprite from the pool (or
    creates it) exactly when the target resolves. *)
Lemma move_free_counts fx fy tx ty s :
  tile_at (tiles s) fx fy = None -> tile_at (tiles s) tx ty = None ->
  let s' := moveTileSprite L fx fy tx ty s in
  let k := if resolves L tx ty then 1%nat else 0%nat in
  length (_tilePool s') = (length (_tilePool s) - k)%nat /\
  length (live_nodes (tiles s')) = (length (live_nodes (tiles s)) + k)%nat /\
  occupied s' tx ty = resolves L tx ty.
Proof.
  intros Hf Ht. cbn zeta. unfold occupied.
  destruct (resolves L tx ty) eqn:Hres.
  - apply resolves_true in Hres as [set Hset].
    destruct (_tilePool s) as [|n p] eqn:Hp.
    + rewrite (move_resolved_new _ _ _ _ _ _ Hset Hf Hp). cbn.
      rewrite tile_at_place_eq, live_nodes_place by done. rewrite Hp. cbn. lia.
    + rewrite (move_resolved_pool _ _ _ _ _ _ _ _ Hset Hf Hp). cbn.
      rewrite tile_at_place_eq, live_nodes_place by done. cbn. lia.
  - rewrite (move_unresolved_free _ _ _ _ _ Hres Hf). rewrite Ht. lia.
Qed.

(** Rebinding a live sprite to a resolving target goes past the pool. *)
Lemma move_live_resolved fx fy tx ty s n :
  tile_at (tiles s) fx fy = Some n -> resolves L tx ty = true ->
  let s' := moveTileSprite L fx fy tx ty s in
  _tilePool s' = _tilePool s /\ children s' = children s /\
  tile_at (tiles s') tx ty = Some n /\
  (~ (fx = tx /\ fy = ty) -> tile_at (tiles s') fx fy = None) /\
  (forall cx cy, ~ (cx = tx /\ cy = ty) -> ~ (cx = fx /\ cy = fy) ->
     tile_at (tiles s') cx cy = tile_at (tiles s) cx cy).
Proof.
  intros Hf [set Hset]%resolves_true. cbn zeta.
  rewrite (move_resolved_live _ _ _ _ _ _ _ Hset Hf). cbn.
  rewrite tile_at_place_eq. repeat split; try done.
  - intros Hne. rewrite tile_at_place_ne by done. apply tile_at_put_eq.
    apply tile_at_row in Hf as (row & -> & _). eauto.
  - intros cx cy H1 H2. by rewrite tile_at_place_ne, tile_at_put_ne.
Qed.


(** Every node of a conserved layer is backed by a sprite. *)
Lemma conserved_sprite s n :
  conserved s -> n ∈ live_nodes (tiles s) ++ _tilePool s ->
  is_Some (sprites s !! n).
Proof.
  intros [Hch Hperm] Hn. rewrite Hperm, Hch in Hn.
  apply elem_of_seq in Hn. apply lookup_lt_is_Some. lia.
Qed.

Lemma tile_at_live t x y n : tile_at t x y = Some n -> n ∈ live_nodes t.
Proof.
  intros (row & Hrow & Hy)%tile_at_row. apply elem_of_gather.
  exists x, row. split; [by apply oget_Some_elem|].
  apply elem_of_gather. exists y, (Some n). split; [by apply oget_Some_elem|].
  by apply list_elem_of_singleton.
Qed.

(** A resolving call leaves, at its target, a sprite carrying the binding
    computed for that coordinate. *)
Lemma move_binds fx fy tx ty s set :
  conserved s ->
  Map.getTileset (parent L) (tileId_at L (tx + ty * Vec.x (size L))) = Some set ->
  exists n t0,
    tile_at (tiles (moveTileSprite L fx fy tx ty s)) tx ty = Some n /\
    sprites (moveTileSprite L fx fy tx ty s) !! n = Some (binding L set tx ty t0).
Proof.
  intros Hc Hset.
  destruct (tile_at (tiles s) fx fy) as [n|] eqn:Hf;
    [|destruct (_tilePool s) as [|n p] eqn:Hp].
  - rewrite (move_resolved_live _ _ _ _ _ _ _ Hset Hf). cbn.
    destruct (conserved_sprite s n Hc) as [t0 Ht0].
    { apply elem_of_app. left. by eapply tile_at_live. }
    exists n, t0. rewrite tile_at_place_eq, list_lookup_alter_eq, Ht0. done.
  - rewrite (move_resolved_new _ _ _ _ _ _ Hset Hf Hp). cbn.
    eexists _, _. rewrite tile_at_place_eq, list_lookup_alter_eq.
    rewrite lookup_app_r, Nat.sub_diag by done. done.
  - rewrite (move_resolved_pool _ _ _ _ _ _ _ _ Hset Hf Hp). cbn.
    destruct (conserved_sprite s n Hc) as [t0 Ht0].
    { apply elem_of_app. right. rewrite Hp. apply list_elem_of_here. }
    exists n, t0. rewrite tile_at_place_eq, list_lookup_alter_eq, Ht0. done.
Qed.

End MoveFacts.

(** ** Loops of moveTileSprite calls *)

Section MovesFacts.

Variable L : Layer.
Implicit Types (s : TiledLayer) (cs : list move).

Lemma moves_cons c cs s : moves L (c :: cs) s = moves L cs (move_by L c s).
Proof. done. Qed.

Lemma moves_rendered cs s : _rendered (moves L cs s) = _rendered s.
Proof.
  revert s. induction cs as [|c cs IH]; intros s; [done|].
  rewrite moves_cons, IH. apply move_rendered.
Qed.

Lemma moves_buffered cs s : _buffered (moves L cs s) = _buffered s.
Proof.
  revert s. induction cs as [|c cs IH]; intros s; [done|].
  rewrite moves_cons, IH. apply move_buffered.
Qed.

Lemma moves_panDelta cs s : _panDelta (moves L cs s) = _panDelta s.
Proof.
  revert s. induction cs as [|c cs IH]; intros s; [done|].
  rewrite moves_cons, IH. apply move_panDelta.
Qed.

Lemma moves_wf cs s : wf_tiles (tiles s) -> wf_tiles (tiles (moves L cs s)).
Proof.
  revert s. induction cs as [|c cs IH]; intros s Hwf; [done|].
  rewrite moves_cons. apply IH. by apply move_wf.
Qed.

(** A loop whose coordinates are read from the rectangle is the list of
    moves computed from the rectangle it starts with. *)
Lemma foldl_moves (g : Rect.t -> Z -> move) (l : list Z) s :
  foldl (fun s i => move_by L (g (_rendered s) i) s) s l =
  moves L (g (_rendered s) <$> l) s.
Proof.
  revert s. induction l as [|i l IH]; intros s; [done|].
  cbn [foldl]. rewrite IH.
  replace (_rendered (move_by L (g (_rendered s) i) s)) with (_rendered s)
    by (symmetry; apply move_rendered).
  by rewrite fmap_cons, moves_cons.
Qed.

(** After the loop a live coordinate is a target, or was live and is no
    source. *)
Lemma moves_tile_at cs s cx cy n :
  tile_at (tiles (moves L cs s)) cx cy = Some n ->
  (exists c, c ∈ cs /\ cx = toX c /\ cy = toY c) \/
  ((forall c, c ∈ cs -> ~ (cx = fromX c /\ cy = fromY c)) /\
   tile_at (tiles s) cx cy = Some n).
Proof.
  revert s. induction cs as [|c cs IH]; intros s H.
  - right. split; [|done]. intros c Hc. by apply elem_of_nil in Hc.
  - rewrite moves_cons in H. destruct (IH _ H) as [(c' & Hc' & Hx)|[Hfrom Hs]].
    + left. exists c'. split; [by apply list_elem_of_further|done].
    + apply move_tile_at in Hs as [Hto|[Hne Hs]].
      * left. exists c. split; [apply list_elem_of_here|done].
      * right. split; [|done]. intros c' [->|Hc']%elem_of_cons; auto.
Qed.

Lemma moves_free cs s cx cy :
  tile_at (tiles s) cx cy = None ->
  (forall c, c ∈ cs -> ~ (cx = toX c /\ cy = toY c)) ->
  tile_at (tiles (moves L cs s)) cx cy = None.
Proof.
  intros Hs Hto. destruct (tile_at (tiles (moves L cs s)) cx cy) as [n|] eqn:E; [|done].
  apply moves_tile_at in E as [(c & Hc & Hx)|[_ E]]; [|congruence].
  by destruct (Hto c Hc).
Qed.

Lemma moves_conserved cs s :
  conserved s -> NoDup (target <$> cs) ->
  (forall c, c ∈ cs -> tile_at (tiles s) (toX c) (toY c) = None) ->
  conserved (moves L cs s).
Proof.
  revert s. induction cs as [|c cs IH]; intros s Hc Hnd Hfree; [done|].
  rewrite fmap_cons in Hnd. apply NoDup_cons in Hnd as [Hc' Hnd].
  rewrite moves_cons. apply IH; [|done|].
  - apply move_conserved; [done|]. left. apply Hfree, list_elem_of_here.
  - intros c' Hin.
    destruct (tile_at (tiles (move_by L c s)) (toX c') (toY c')) as [n|] eqn:E; [|done].
    apply move_tile_at in E as [[Hx Hy]|[_ E]].
    + exfalso. apply Hc'. apply list_elem_of_fmap. exists c'. split; [|done].
      unfold target. congruence.
    + rewrite Hfree in E; [done|]. by apply list_elem_of_further.
Qed.

End MovesFacts.

(** ** The four edge renderers *)

Section EdgeFacts.

Variable L : Layer.
Implicit Types (s : TiledLayer) (f : bool).

Lemma _renderLeft_moves f s :
  _renderLeft L f s =
  with_rendered (rect_left f (_rendered s))
    (moves L (left_move f (_rendered s) <$> seqZ 0 (Rect.height (_rendered s))) s).
Proof.
  unfold _renderLeft.
  change (foldl _ s (seqZ 0 (Rect.height (_rendered s))))
    with (foldl (fun s i => move_by L (left_move f (_rendered s) i) s) s
            (seqZ 0 (Rect.height (_rendered s)))).
  rewrite foldl_moves. cbv zeta.
  set (s1 := moves L _ s). pose proof (moves_rendered L _ s : _rendered s1 = _) as Hr.
  destruct f; unfold _updateRenderSq, with_rendered; cbn; rewrite Hr; reflexivity.
Qed.

Lemma _renderRight_moves f s :
  _renderRight L f s =
  with_rendered (rect_right f (_rendered s))
    (moves L (right_move f (_rendered s) <$> seqZ 0 (Rect.height (_rendered s))) s).
Proof.
  unfold _renderRight.
  change (foldl _ s (seqZ 0 (Rect.height (_rendered s))))
    with (foldl (fun s i => move_by L (right_move f (_rendered s) i) s) s
            (seqZ 0 (Rect.height (_rendered s)))).
  rewrite foldl_moves. cbv zeta.
  set (s1 := moves L _ s). pose proof (moves_rendered L _ s : _rendered s1 = _) as Hr.
  destruct f; unfold _updateRenderSq, with_rendered; cbn; rewrite Hr; reflexivity.
Qed.

Lemma _renderUp_moves f s :
  _renderUp L f s =
  with_rendered (rect_up f (_rendered s))
    (moves L (up_move f (_rendered s) <$> seqZ 0 (Rect.width (_rendered s))) s).
Proof.
  unfold _renderUp.
  change (foldl _ s (seqZ 0 (Rect.width (_rendered s))))
    with (foldl (fun s i => move_by L (up_move f (_rendered s) i) s) s
            (seqZ 0 (Rect.width (_rendered s)))).
  rewrite foldl_moves. cbv zeta.
  set (s1 := moves L _ s). pose proof (moves_rendered L _ s : _rendered s1 = _) as Hr.
  destruct f; unfold _updateRenderSq, with_rendered; cbn; rewrite Hr; reflexivity.
Qed.

Lemma _renderDown_moves f s :
  _renderDown L f s =
  with_rendered (rect_down f (_rendered s))
    (moves L (down_move f (_rendered s) <$> seqZ 0 (Rect.width (_rendered s))) s).
Proof.
  unfold _renderDown.
  change (foldl _ s (seqZ 0 (Rect.width (_rendered s))))
    with (foldl (fun s i => move_by L (down_move f (_rendered s) i) s) s
            (seqZ 0 (Rect.width (_rendered s)))).
  rewrite foldl_moves. cbv zeta.
  set (s1 := moves L _ s). pose proof (moves_rendered L _ s : _rendered s1 = _) as Hr.
  destruct f; unfold _updateRenderSq, with_rendered; cbn; rewrite Hr; reflexivity.
Qed.

Lemma elem_of_loop (g : Z -> move) (h : Z) (c : move) :
  c ∈ g <$> seqZ 0 h <-> exists i, 0 <= i < h /\ c = g i.
Proof.
  rewrite list_elem_of_fmap. split.
  - intros (i & -> & Hi). apply elem_of_seqZ in Hi. exists i. split; [lia|done].
  - intros (i & Hi & ->). exists i. split; [done|]. apply elem_of_seqZ. lia.
Qed.

Lemma NoDup_loop_targets (g : Z -> move) (h : Z) :
  (forall i j, target (g i) = target (g j) -> i = j) ->
  NoDup (target <$> (g <$> seqZ 0 h)).
Proof.
  intros Hinj. rewrite <- list_fmap_compose. apply NoDup_fmap_2_strong.
  - intros i j _ _ H. by apply Hinj.
  - apply NoDup_seqZ.
Qed.

Lemma conserved_with_rendered r s : conserved (with_rendered r s) <-> conserved s.
Proof. done. Qed.

(** A coordinate outside the rectangle of a contained layer is free. *)
Lemma contained_free s cx cy :
  contained s -> ~ in_window (_rendered s) cx cy -> tile_at (tiles s) cx cy = None.
Proof.
  intros Hc Hout. destruct (tile_at (tiles s) cx cy) as [n|] eqn:E; [|done].
  destruct Hout. by eapply Hc.
Qed.

Lemma framed_renderLeft f s : framed s -> framed (_renderLeft L f s).
Proof.
  intros ((El & Er & Et & Eb) & [Hw Hh] & Hcont).
  rewrite _renderLeft_moves. split; [|split].
  - by repeat split.
  - split; cbn; [destruct f; cbn; lia|done].
  - intros cx cy n H. cbn in H. unfold in_window. cbn.
    apply moves_tile_at in H as [(c & Hc & -> & ->)|[Hfrom Hlive]].
    + apply elem_of_loop in Hc as (i & Hi & ->). cbn. destruct f; cbn; lia.
    + pose proof (Hcont _ _ _ Hlive) as [Hx Hy].
      destruct f; cbn; [lia|].
      assert (cx <> Rect.right (_rendered s)); [|lia].
      intros ->.
      apply (Hfrom (left_move false (_rendered s) (cy - Rect.y (_rendered s)))).
      * apply elem_of_loop. exists (cy - Rect.y (_rendered s)). split; [lia|done].
      * cbn. split; [done|lia].
Qed.

Lemma conserved_renderLeft f s :
  framed s -> conserved s -> conserved (_renderLeft L f s).
Proof.
  intros ((El & Er & Et & Eb) & [Hw Hh] & Hcont) Hcons.
  rewrite _renderLeft_moves.
  apply conserved_with_rendered, moves_conserved; [done| |].
  - apply NoDup_loop_targets. intros i j [= H]. lia.
  - intros c (i & Hi & ->)%elem_of_loop. cbn.
    apply contained_free; [done|]. unfold in_window. lia.
Qed.

Lemma wf_renderLeft f s : wf_tiles (tiles s) -> wf_tiles (tiles (_renderLeft L f s)).
Proof. intros H. rewrite _renderLeft_moves. cbn. by apply moves_wf. Qed.

Lemma steady_renderLeft f s : steady s -> steady (_renderLeft L f s).
Proof.
  intros (Hf & Hc & Hwf). split; [by apply framed_renderLeft|].
  split; [by apply conserved_renderLeft|by apply wf_renderLeft].
Qed.

Lemma framed_renderRight f s : framed s -> framed (_renderRight L f s).
Proof.
  intros ((El & Er & Et & Eb) & [Hw Hh] & Hcont).
  rewrite _renderRight_moves. split; [|split].
  - by repeat split.
  - split; cbn; [destruct f; cbn; lia|done].
  - intros cx cy n H. cbn in H. unfold in_window. cbn.
    apply moves_tile_at in H as [(c & Hc & -> & ->)|[Hfrom Hlive]].
    + apply elem_of_loop in Hc as (i & Hi & ->). cbn. destruct f; cbn; lia.
    + pose proof (Hcont _ _ _ Hlive) as [Hx Hy].
      destruct f; cbn; [lia|].
      assert (cx <> Rect.left (_rendered s)); [|lia].
      intros ->.
      apply (Hfrom (right_move false (_rendered s) (cy - Rect.y (_rendered s)))).
      * apply elem_of_loop. exists (cy - Rect.y (_rendered s)). split; [lia|done].
      * cbn. split; [done|lia].
Qed.

Lemma conserved_renderRight f s :
  framed s -> conserved s -> conserved (_renderRight L f s).
Proof.
  intros ((El & Er & Et & Eb) & [Hw Hh] & Hcont) Hcons.
  rewrite _renderRight_moves.
  apply conserved_with_rendered, moves_conserved; [done| |].
  - apply NoDup_loop_targets. intros i j [= H]. lia.
  - intros c (i & Hi & ->)%elem_of_loop. cbn.
    apply contained_free; [done|]. unfold in_window. lia.
Qed.

Lemma wf_renderRight f s : wf_tiles (tiles s) -> wf_tiles (tiles (_renderRight L f s)).
Proof. intros H. rewrite _renderRight_moves. cbn. by apply moves_wf. Qed.

Lemma steady_renderRight f s : steady s -> steady (_renderRight L f s).
Proof.
  intros (Hf & Hc & Hwf). split; [by apply framed_renderRight|].
  split; [by apply conserved_renderRight|by apply wf_renderRight].
Qed.

Lemma framed_renderUp f s : framed s -> framed (_renderUp L f s).
Proof.
  intros ((El & Er & Et & Eb) & [Hw Hh] & Hcont).
  rewrite _renderUp_moves. split; [|split].
  - by repeat split.
  - split; cbn; [done|destruct f; cbn; lia].
  - intros cx cy n H. cbn in H. unfold in_window. cbn.
    apply moves_tile_at in H as [(c & Hc & -> & ->)|[Hfrom Hlive]].
    + apply elem_of_loop in Hc as (i & Hi & ->). cbn. destruct f; cbn; lia.
    + pose proof (Hcont _ _ _ Hlive) as [Hx Hy].
      destruct f; cbn; [lia|].
      assert (cy <> Rect.bottom (_rendered s)); [|lia].
      intros ->.
      apply (Hfrom (up_move false (_rendered s) (cx - Rect.x (_rendered s)))).
      * apply elem_of_loop. exists (cx - Rect.x (_rendered s)). split; [lia|done].
      * cbn. split; [lia|done].
Qed.

Lemma conserved_renderUp f s :
  framed s -> conserved s -> conserved (_renderUp L f s).
Proof.
  intros ((El & Er & Et & Eb) & [Hw Hh] & Hcont) Hcons.
  rewrite _renderUp_moves.
  apply conserved_with_rendered, moves_conserved; [done| |].
  - apply NoDup_loop_targets. intros i j [= H]. lia.
  - intros c (i & Hi & ->)%elem_of_loop. cbn.
    apply contained_free; [done|]. unfold in_window. lia.
Qed.

Lemma wf_renderUp f s : wf_tiles (tiles s) -> wf_tiles (tiles (_renderUp L f s)).
Proof. intros H. rewrite _renderUp_moves. cbn. by apply moves_wf. Qed.

Lemma steady_renderUp f s : steady s -> steady (_renderUp L f s).
Proof.
  intros (Hf & Hc & Hwf). split; [by apply framed_renderUp|].
  split; [by apply conserved_renderUp|by apply wf_renderUp].
Qed.

Lemma framed_renderDown f s : framed s -> framed (_renderDown L f s).
Proof.
  intros ((El & Er & Et & Eb) & [Hw Hh] & Hcont).
  rewrite _renderDown_moves. split; [|split].
  - by repeat split.
  - split; cbn; [done|destruct f; cbn; lia].
  - intros cx cy n H. cbn in H. unfold in_window. cbn.
    apply moves_tile_at in H as [(c & Hc & -> & ->)|[Hfrom Hlive]].
    + apply elem_of_loop in Hc as (i & Hi & ->). cbn. destruct f; cbn; lia.
    + pose proof (Hcont _ _ _ Hlive) as [Hx Hy].
      destruct f; cbn; [lia|].
      assert (cy <> Rect.top (_rendered s)); [|lia].
      intros ->.
      apply (Hfrom (down_move false (_rendered s) (cx - Rect.x (_rendered s)))).
      * apply elem_of_loop. exists (cx - Rect.x (_rendered s)). split; [lia|done].
      * cbn. split; [lia|done].
Qed.

Lemma conserved_renderDown f s :
  framed s -> conserved s -> conserved (_renderDown L f s).
Proof.
  intros ((El & Er & Et & Eb) & [Hw Hh] & Hcont) Hcons.
  rewrite _renderDown_moves.
  apply conserved_with_rendered, moves_conserved; [done| |].
  - apply NoDup_loop_targets. intros i j [= H]. lia.
  - intros c (i & Hi & ->)%elem_of_loop. cbn.
    apply contained_free; [done|]. unfold in_window. lia.
Qed.

Lemma wf_renderDown f s : wf_tiles (tiles s) -> wf_tiles (tiles (_renderDown L f s)).
Proof. intros H. rewrite _renderDown_moves. cbn. by apply moves_wf. Qed.

Lemma steady_renderDown f s : steady s -> steady (_renderDown L f s).
Proof.
  intros (Hf & Hc & Hwf). split; [by apply framed_renderDown|].
  split; [by apply conserved_renderDown|by apply wf_renderDown].
Qed.

End EdgeFacts.

(** ** pan *)

Section PanFacts.

Variable L : Layer.
Implicit Types (s : TiledLayer) (f : bool).

Lemma _renderLeft_panDelta f s : _panDelta (_renderLeft L f s) = _panDelta s.
Proof. rewrite _renderLeft_moves. cbn. apply moves_panDelta. Qed.
Lemma _renderRight_panDelta f s : _panDelta (_renderRight L f s) = _panDelta s.
Proof. rewrite _renderRight_moves. cbn. apply moves_panDelta. Qed.
Lemma _renderUp_panDelta f s : _panDelta (_renderUp L f s) = _panDelta s.
Proof. rewrite _renderUp_moves. cbn. apply moves_panDelta. Qed.
Lemma _renderDown_panDelta f s : _panDelta (_renderDown L f s) = _panDelta s.
Proof. rewrite _renderDown_moves. cbn. apply moves_panDelta. Qed.

Lemma _renderLeft_buffered f s : _buffered (_renderLeft L f s) = _buffered s.
Proof. rewrite _renderLeft_moves. cbn. apply moves_buffered. Qed.
Lemma _renderRight_buffered f s : _buffered (_renderRight L f s) = _buffered s.
Proof. rewrite _renderRight_moves. cbn. apply moves_buffered. Qed.
Lemma _renderUp_buffered f s : _buffered (_renderUp L f s) = _buffered s.
Proof. rewrite _renderUp_moves. cbn. apply moves_buffered. Qed.
Lemma _renderDown_buffered f s : _buffered (_renderDown L f s) = _buffered s.
Proof. rewrite _renderDown_moves. cbn. apply moves_buffered. Qed.

Lemma _renderLeft_rendered f s : _rendered (_renderLeft L f s) = rect_left f (_rendered s).
Proof. by rewrite _renderLeft_moves. Qed.
Lemma _renderRight_rendered f s : _rendered (_renderRight L f s) = rect_right f (_rendered s).
Proof. by rewrite _renderRight_moves. Qed.
Lemma _renderUp_rendered f s : _rendered (_renderUp L f s) = rect_up f (_rendered s).
Proof. by rewrite _renderUp_moves. Qed.
Lemma _renderDown_rendered f s : _rendered (_renderDown L f s) = rect_down f (_rendered s).
Proof. by rewrite _renderDown_moves. Qed.

Lemma pan_buffer_panDelta dx dy s : _panDelta (pan_buffer L dx dy s) = _panDelta s.
Proof.
  unfold pan_buffer. repeat case_match;
    rewrite ?_renderLeft_panDelta, ?_renderRight_panDelta,
      ?_renderUp_panDelta, ?_renderDown_panDelta; done.
Qed.

Lemma while_false fuel cond body s :
  cond s = false -> while fuel cond body s = Some s.
Proof. intros H. destruct fuel; cbn; by rewrite H. Qed.

Lemma while_step fuel cond body s :
  cond s = true -> while (S fuel) cond body s = while fuel cond body (body s).
Proof. intros H. cbn. by rewrite H. Qed.

(** A loop whose body keeps [P] and lowers a measure that the bound
    covers ends, in a state where [P] holds and the condition is false. *)
Lemma while_spec (P : TiledLayer -> Prop) (m : TiledLayer -> nat) cond body fuel s :
  (forall s, P s -> cond s = true -> P (body s) /\ (m (body s) < m s)%nat) ->
  P s -> (m s <= fuel)%nat ->
  exists s', while fuel cond body s = Some s' /\ P s' /\ cond s' = false.
Proof.
  intros Hbody. revert s. induction fuel as [|fuel IH]; intros s HP Hm.
  - destruct (cond s) eqn:E.
    + destruct (Hbody s HP E). lia.
    + exists s. by rewrite while_false.
  - destruct (cond s) eqn:E.
    + rewrite while_step by done. destruct (Hbody s HP E). apply IH; [done|lia].
    + exists s. by rewrite while_false.
Qed.

(** [pan] ends whenever a scaled tile is at least one pixel wide and high,
    and carries through any property that its buffering step establishes and
    the four shifts, taken under their loop conditions, keep. *)
Lemma pan_spec (P : TiledLayer -> Prop) dx dy s :
  0 < scaledX L -> 0 < scaledY L ->
  P (pan_buffer L dx dy (add_panDelta dx dy s)) ->
  (forall s, P s -> scaledX L <= Vec.x (_panDelta s) ->
     P (add_panDelta (- scaledX L) 0 (_renderLeft L false s))) ->
  (forall s, P s -> Vec.x (_panDelta s) <= - scaledX L ->
     P (add_panDelta (scaledX L) 0 (_renderRight L false s))) ->
  (forall s, P s -> scaledY L <= Vec.y (_panDelta s) ->
     P (add_panDelta 0 (- scaledY L) (_renderUp L false s))) ->
  (forall s, P s -> Vec.y (_panDelta s) <= - scaledY L ->
     P (add_panDelta 0 (scaledY L) (_renderDown L false s))) ->
  exists s', pan L dx dy s = Some s' /\ P s' /\
    - scaledX L < Vec.x (_panDelta s') < scaledX L /\
    - scaledY L < Vec.y (_panDelta s') < scaledY L.
Proof.
  intros Hsx Hsy H0 H1 H2 H3 H4. unfold pan, pan_fuel.
  set (bx := Z.abs (Vec.x (_panDelta s) + dx)).
  set (by_ := Z.abs (Vec.y (_panDelta s) + dy)).
  set (s0 := pan_buffer L dx dy (add_panDelta dx dy s)) in *.
  assert (Hp0 : _panDelta s0 = Vec.mk (Vec.x (_panDelta s) + dx) (Vec.y (_panDelta s) + dy)).
  { unfold s0. by rewrite pan_buffer_panDelta. }
  destruct (while_spec
    (fun s => P s /\ Z.abs (Vec.x (_panDelta s)) <= bx /\ Z.abs (Vec.y (_panDelta s)) <= by_)
    (fun s => Z.to_nat (Z.abs (Vec.x (_panDelta s))))
    (fun s => scaledX L <=? Vec.x (_panDelta s))
    (fun s => add_panDelta (- scaledX L) 0 (_renderLeft L false s))
    (Z.to_nat (bx + by_)) s0) as (s1 & -> & (HP1 & Hx1 & Hy1) & Hc1).
  { intros t (HP & Hx & Hy) Hc%Z.leb_le. split; [split|].
    - by apply H1.
    - unfold add_panDelta; cbn [_panDelta with_panDelta Vec.x Vec.y];
      rewrite _renderLeft_panDelta; lia.
    - unfold add_panDelta; cbn [_panDelta with_panDelta Vec.x Vec.y];
      rewrite _renderLeft_panDelta; lia. }
  { rewrite Hp0. cbn. split; [done|]. unfold bx, by_. lia. }
  { rewrite Hp0. cbn. unfold bx, by_. lia. }
  apply Z.leb_gt in Hc1. cbn [mbind option_bind].
  destruct (while_spec
    (fun s => P s /\ Z.abs (Vec.x (_panDelta s)) <= bx /\
              Z.abs (Vec.y (_panDelta s)) <= by_ /\ Vec.x (_panDelta s) < scaledX L)
    (fun s => Z.to_nat (Z.abs (Vec.x (_panDelta s))))
    (fun s => Vec.x (_panDelta s) <=? - scaledX L)
    (fun s => add_panDelta (scaledX L) 0 (_renderRight L false s))
    (Z.to_nat (bx + by_)) s1) as (s2 & -> & (HP2 & Hx2 & Hy2 & Hlt2) & Hc2).
  { intros t (HP & Hx & Hy & Hlt) Hc%Z.leb_le. split; [split|].
    - by apply H2.
    - unfold add_panDelta; cbn [_panDelta with_panDelta Vec.x Vec.y];
      rewrite _renderRight_panDelta; lia.
    - unfold add_panDelta; cbn [_panDelta with_panDelta Vec.x Vec.y];
      rewrite _renderRight_panDelta; lia. }
  { done. }
  { lia. }
  apply Z.leb_gt in Hc2. cbn [mbind option_bind].
  destruct (while_spec
    (fun s => P s /\ Vec.x (_panDelta s) = Vec.x (_panDelta s2) /\
              Z.abs (Vec.y (_panDelta s)) <= by_)
    (fun s => Z.to_nat (Z.abs (Vec.y (_panDelta s))))
    (fun s => scaledY L <=? Vec.y (_panDelta s))
    (fun s => add_panDelta 0 (- scaledY L) (_renderUp L false s))
    (Z.to_nat (bx + by_)) s2) as (s3 & -> & (HP3 & Hx3 & Hy3) & Hc3).
  { intros t (HP & Hx & Hy) Hc%Z.leb_le. split; [split|].
    - by apply H3.
    - unfold add_panDelta; cbn [_panDelta with_panDelta Vec.x Vec.y];
      rewrite _renderUp_panDelta; lia.
    - unfold add_panDelta; cbn [_panDelta with_panDelta Vec.x Vec.y];
      rewrite _renderUp_panDelta; lia. }
  { done. }
  { lia. }
  apply Z.leb_gt in Hc3. cbn [mbind option_bind].
  destruct (while_spec
    (fun s => P s /\ Vec.x (_panDelta s) = Vec.x (_panDelta s2) /\
              Z.abs (Vec.y (_panDelta s)) <= by_ /\ Vec.y (_panDelta s) < scaledY L)
    (fun s => Z.to_nat (Z.abs (Vec.y (_panDelta s))))
    (fun s => Vec.y (_panDelta s) <=? - scaledY L)
    (fun s => add_panDelta 0 (scaledY L) (_renderDown L false s))
    (Z.to_nat (bx + by_)) s3) as (s4 & -> & (HP4 & Hx4 & Hy4 & Hlt4) & Hc4).
  { intros t (HP & Hx & Hy & Hlt) Hc%Z.leb_le. split; [split|].
    - by apply H4.
    - unfold add_panDelta; cbn [_panDelta with_panDelta Vec.x Vec.y];
      rewrite _renderDown_panDelta; lia.
    - unfold add_panDelta; cbn [_panDelta with_panDelta Vec.x Vec.y];
      rewrite _renderDown_panDelta; lia. }
  { done. }
  { lia. }
  apply Z.leb_gt in Hc4. exists s4. split; [done|]. split; [done|]. lia.
Qed.

End PanFacts.

(** ** clearTiles *)

Section ClearFacts.

Implicit Types (s : TiledLayer).

Lemma insert_sorted_perm k l : insert_sorted k l ≡ₚ k :: l.
Proof.
  induction l as [|k' l IH]; cbn; [done|].
  destruct (k <=? k'); [done|]. rewrite IH. apply Permutation_swap.
Qed.

Lemma sort_keys_perm l : sort_keys l ≡ₚ l.
Proof.
  induction l as [|k l IH]; cbn; [done|].
  by rewrite insert_sorted_perm, IH.
Qed.

Lemma for_in_perm {V} (o : obj V) : for_in o ≡ₚ fst <$> o.
Proof. unfold for_in. rewrite sort_keys_perm. apply filter_app_complement. Qed.

Lemma elem_of_for_in {V} (o : obj V) k : k ∈ for_in o <-> is_Some (oget k o).
Proof.
  rewrite for_in_perm. destruct (oget k o) eqn:E.
  - split; [eauto|]. intros _. apply oget_Some_elem in E.
    apply list_elem_of_fmap. by exists (k, v).
  - split; [|by intros [? ?]]. intros H. by apply oget_None in E.
Qed.

Lemma foldl_preserves {A B} (P : A -> Prop) (f : A -> B -> A) l a :
  (forall a x, P a -> P (f a x)) -> P a -> P (foldl f a l).
Proof. intros Hf. revert a. induction l; cbn; auto. Qed.

Lemma clear_cell_tiles x y s : tiles (clear_cell x y s) = del_tile x y (tiles s).
Proof. unfold clear_cell. by destruct (tile_at (tiles s) x y). Qed.

Lemma clear_cell_tile_at x y s cx cy n :
  tile_at (tiles (clear_cell x y s)) cx cy = Some n ->
  tile_at (tiles s) cx cy = Some n /\ ~ (cx = x /\ cy = y).
Proof.
  rewrite clear_cell_tiles. intros H.
  destruct (decide (cx = x /\ cy = y)) as [[-> ->]|Hne].
  - by rewrite tile_at_del_eq in H.
  - by rewrite tile_at_del_ne in H.
Qed.

Lemma clear_cells_tile_at x ys s cx cy n :
  tile_at (tiles (foldl (fun s y => clear_cell x y s) s ys)) cx cy = Some n ->
  tile_at (tiles s) cx cy = Some n /\ ~ (cx = x /\ cy ∈ ys).
Proof.
  revert s. induction ys as [|y ys IH]; intros s H; cbn in H.
  - split; [done|]. intros [_ Hin]. by apply elem_of_nil in Hin.
  - apply IH in H as [H Hys]. apply clear_cell_tile_at in H as [H Hy].
    split; [done|]. intros [-> [->|Hin]%elem_of_cons]; tauto.
Qed.

Lemma clear_row_tile_at x s cx cy n :
  tile_at (tiles (clear_row x s)) cx cy = Some n ->
  tile_at (tiles s) cx cy = Some n /\ cx <> x.
Proof.
  unfold clear_row. destruct (oget x (tiles s)) as [row|] eqn:Hrow.
  - intros [H Hys]%clear_cells_tile_at. split; [done|]. intros ->.
    apply Hys. split; [done|]. apply elem_of_for_in.
    apply tile_at_row in H as (row' & Hrow' & Hy). rewrite Hrow in Hrow'.
    injection Hrow' as <-. eauto.
  - intros H. split; [done|]. intros ->.
    apply tile_at_row in H as (row' & Hrow' & _). congruence.
Qed.

Lemma clear_rows_tile_at xs s cx cy n :
  tile_at (tiles (foldl (fun s x => clear_row x s) s xs)) cx cy = Some n ->
  tile_at (tiles s) cx cy = Some n /\ cx ∉ xs.
Proof.
  revert s. induction xs as [|x xs IH]; intros s H; cbn in H.
  - split; [done|]. apply not_elem_of_nil.
  - apply IH in H as [H Hxs]. apply clear_row_tile_at in H as [H Hx].
    split; [done|]. apply not_elem_of_cons. done.
Qed.

(** [clearTiles] leaves no coordinate live. *)
Lemma clearTiles_tile_at s cx cy : tile_at (tiles (clearTiles s)) cx cy = None.
Proof.
  destruct (tile_at (tiles (clearTiles s)) cx cy) as [n|] eqn:E; [|done].
  apply clear_rows_tile_at in E as [H Hx]. destruct Hx.
  apply elem_of_for_in. apply tile_at_row in H as (row & Hrow & _). eauto.
Qed.

Lemma freed_idem t : freed (freed t) = freed t.
Proof. done. Qed.

Lemma clearing_refl s : wf_tiles (tiles s) -> clearing s s.
Proof.
  intros H. unfold clearing. split; [done|]. split; [done|].
  do 5 (split; [done|]). split; [by left|]. intros cx cy n Hn. by left.
Qed.

Lemma clearing_cell s0 s x y : clearing s0 s -> clearing s0 (clear_cell x y s).
Proof.
  intros (Hwf & Hperm & Hch & Hr & Hb & Hp & Hlen & Hsp1 & Hsp2).
  pose proof (live_nodes_del (tiles s) x y Hwf) as Hdel.
  unfold clearing. rewrite clear_cell_tiles. split; [by apply wf_del|].
  unfold clear_cell. destruct (tile_at (tiles s) x y) as [m|] eqn:Hm; cbn.
  - rewrite !length_alter.
    assert (Hm' : forall n, alter Tile.disablePhysics m
                (alter (Tile.setVisible false) m (sprites s)) !! n =
              if decide (n = m) then freed <$> sprites s !! m else sprites s !! n).
    { intros n. destruct (decide (n = m)) as [->|Hne].
      - rewrite !list_lookup_alter_eq. by destruct (sprites s !! m).
      - by rewrite !list_lookup_alter_ne. }
    assert (Hfr : forall n, sprites s !! n = freed <$> sprites s0 !! n ->
                    freed <$> sprites s !! n = freed <$> sprites s0 !! n).
    { intros n ->. by destruct (sprites s0 !! n). }
    repeat split; try done.
    + rewrite <- Hperm, Hdel. cbn. symmetry. apply Permutation_middle.
    + intros n. rewrite Hm'. destruct (decide (n = m)) as [->|]; [|done].
      right. destruct (Hsp1 m) as [->| ->]; [done|]. by destruct (sprites s0 !! m).
    + intros cx cy n H0. rewrite Hm'. destruct (Hsp2 cx cy n H0) as [H|H].
      * destruct (decide (cx = x /\ cy = y)) as [[-> ->]|Hne].
        -- right. rewrite Hm in H. injection H as ->. rewrite decide_True by done.
           destruct (Hsp1 n) as [->| ->]; [done|]. by destruct (sprites s0 !! n).
        -- left. by rewrite tile_at_del_ne.
      * right. destruct (decide (n = m)) as [->|]; [|done]. by apply Hfr.
  - repeat split; try done.
    + by rewrite <- Hperm, Hdel.
    + intros cx cy n H0. destruct (Hsp2 cx cy n H0) as [H|H]; [|by right].
      left. rewrite tile_at_del_ne; [done|]. intros [-> ->]. congruence.
Qed.

Lemma clearing_row s0 s x : clearing s0 s -> clearing s0 (clear_row x s).
Proof.
  intros H. unfold clear_row. destruct (oget x (tiles s)); [|done].
  apply (foldl_preserves (clearing s0)); [|done]. intros. by apply clearing_cell.
Qed.

Lemma clearing_clearTiles s : wf_tiles (tiles s) -> clearing s (clearTiles s).
Proof.
  intros H. apply (foldl_preserves (clearing s)); [|by apply clearing_refl].
  intros. by apply clearing_row.
Qed.

Lemma no_live_nodes t :
  wf_tiles t -> (forall x y, tile_at t x y = None) -> live_nodes t = [].
Proof.
  intros Hwf Hnone. apply elem_of_nil_inv. intros n Hn.
  apply elem_of_live_nodes in Hn as (x & y & H); [|done]. by rewrite Hnone in H.
Qed.

(** What [clearTiles] achieves on a well-formed grid. *)
Lemma clearTiles_spec s :
  wf_tiles (tiles s) ->
  let s' := clearTiles s in
  wf_tiles (tiles s') /\ live_nodes (tiles s') = [] /\
  _tilePool s' ≡ₚ live_nodes (tiles s) ++ _tilePool s /\
  children s' = children s /\ length (sprites s') = length (sprites s) /\
  _rendered s' = _rendered s.
Proof.
  intros Hwf. cbn zeta.
  destruct (clearing_clearTiles s Hwf) as (Hwf' & Hperm & Hch & Hr & _ & _ & Hlen & _).
  assert (live_nodes (tiles (clearTiles s)) = []) as Hnil.
  { apply no_live_nodes; [done|]. intros. apply clearTiles_tile_at. }
  rewrite Hnil in Hperm. do 5 (split; [done|]). done.
Qed.

Lemma clearTiles_conserved s :
  wf_tiles (tiles s) -> conserved s -> conserved (clearTiles s).
Proof.
  intros Hwf [Hch Hperm].
  destruct (clearTiles_spec s Hwf) as (_ & Hnil & Hpool & Hch' & Hlen & _).
  unfold conserved. by rewrite Hnil, Hpool, Hch', Hlen.
Qed.

End ClearFacts.

(** ** renderTiles *)

Section RenderFacts.

Variable L : Layer.
Implicit Types (s : TiledLayer) (cs : list move).

Lemma moves_app cs1 cs2 s : moves L (cs1 ++ cs2) s = moves L cs2 (moves L cs1 s).
Proof. apply foldl_app. Qed.

Lemma foldl_row_moves x (ys : list Z) s :
  foldl (fun s y => moveTileSprite L x y x y s) s ys =
  moves L ((fun y => mkMove x y x y) <$> ys) s.
Proof. revert s. induction ys as [|y ys IH]; intros s; [done|]. cbn. by rewrite IH. Qed.

Lemma foldl_window_moves (xs ys : list Z) s :
  foldl (fun s x => foldl (fun s y => moveTileSprite L x y x y s) s ys) s xs =
  moves L (x ← xs; (fun y => mkMove x y x y) <$> ys) s.
Proof.
  revert s. induction xs as [|x xs IH]; intros s; [done|].
  cbn [foldl]. rewrite IH, foldl_row_moves, bind_cons. by rewrite moves_app.
Qed.

Lemma renderTiles_moves startX startY numX numY s :
  renderTiles L startX startY numX numY s =
  let x0 := clamp_start startX in
  let y0 := clamp_start startY in
  let w := clamp_end startX numX (Vec.x (Map.size (parent L))) - x0 in
  let h := clamp_end startY numY (Vec.y (Map.size (parent L))) - y0 in
  with_panDelta
    (Vec.mk
       (Z.rem (Vec.x (Map.position (parent L))) (Vec.x (Map.scaledTileSize (parent L))))
       (Z.rem (Vec.y (Map.position (parent L))) (Vec.y (Map.scaledTileSize (parent L)))))
    (with_buffered (Buffered.mk false false false false)
       (with_rendered (rect_of x0 y0 w h)
          (moves L (window_moves x0 y0 w h) (clearTiles s)))).
Proof.
  unfold renderTiles. cbv zeta. rewrite foldl_window_moves. reflexivity.
Qed.

Lemma elem_of_window_moves x0 y0 w h c :
  c ∈ window_moves x0 y0 w h <->
  exists x y, x0 <= x < x0 + w /\ y0 <= y < y0 + h /\ c = mkMove x y x y.
Proof.
  unfold window_moves. rewrite list_elem_of_bind. split.
  - intros (x & Hc & Hx). apply list_elem_of_fmap in Hc as (y & -> & Hy).
    apply elem_of_seqZ in Hx, Hy. by exists x, y.
  - intros (x & y & Hx & Hy & ->). exists x. rewrite list_elem_of_fmap.
    split; [exists y; split; [done|]|]; apply elem_of_seqZ; lia.
Qed.

Lemma NoDup_window_targets x0 y0 w h : NoDup (target <$> window_moves x0 y0 w h).
Proof.
  unfold window_moves. generalize (NoDup_seqZ x0 w).
  induction (seqZ x0 w) as [|x xs IH]; intros Hnd; [apply NoDup_nil_2|].
  apply NoDup_cons in Hnd as [Hx Hnd].
  rewrite bind_cons, fmap_app. apply NoDup_app. split; [|split; [|by apply IH]].
  - rewrite <- list_fmap_compose. apply NoDup_fmap_2_strong; [|apply NoDup_seqZ].
    intros y1 y2 _ _ [= H]. done.
  - intros c Hc Hc'. apply list_elem_of_fmap in Hc as (c1 & -> & Hc1).
    apply list_elem_of_fmap in Hc1 as (y & -> & _).
    apply list_elem_of_fmap in Hc' as (c2 & Heq & Hc2).
    apply list_elem_of_bind in Hc2 as (x' & Hc2 & Hx').
    apply list_elem_of_fmap in Hc2 as (y' & -> & _).
    injection Heq as -> ->. done.
Qed.

Lemma renderTiles_rendered startX startY numX numY s :
  _rendered (renderTiles L startX startY numX numY s) =
  rect_of (clamp_start startX) (clamp_start startY)
    (clamp_end startX numX (Vec.x (Map.size (parent L))) - clamp_start startX)
    (clamp_end startY numY (Vec.y (Map.size (parent L))) - clamp_start startY).
Proof. by rewrite renderTiles_moves. Qed.

(** The rectangle [renderTiles] sets lies within the map. *)
Lemma renderTiles_in_bounds startX startY numX numY s :
  in_bounds L (_rendered (renderTiles L startX startY numX numY s)).
Proof.
  rewrite renderTiles_rendered. unfold in_bounds, clamp_end, clamp_start. cbn.
  repeat case_match; lia.
Qed.

Lemma renderTiles_edges startX startY numX numY s :
  edges_ok (_rendered (renderTiles L startX startY numX numY s)).
Proof. rewrite renderTiles_rendered. by repeat split. Qed.

(** Right after [renderTiles] every live coordinate is in the rectangle. *)
Lemma renderTiles_contained startX startY numX numY s :
  contained (renderTiles L startX startY numX numY s).
Proof.
  intros cx cy n H. rewrite renderTiles_rendered. rewrite renderTiles_moves in H.
  cbn in H. apply moves_tile_at in H as [(c & Hc & -> & ->)|[_ H]].
  - apply elem_of_window_moves in Hc as (x & y & Hx & Hy & ->).
    unfold in_window. cbn. lia.
  - by rewrite clearTiles_tile_at in H.
Qed.

Lemma renderTiles_framed startX startY numX numY s :
  positive (_rendered (renderTiles L startX startY numX numY s)) ->
  framed (renderTiles L startX startY numX numY s).
Proof.
  intros Hpos. split; [apply renderTiles_edges|]. split; [done|].
  apply renderTiles_contained.
Qed.

Lemma renderTiles_wf startX startY numX numY s :
  wf_tiles (tiles s) -> wf_tiles (tiles (renderTiles L startX startY numX numY s)).
Proof.
  intros Hwf. rewrite renderTiles_moves. cbn. apply moves_wf.
  by apply clearTiles_spec.
Qed.

Lemma renderTiles_conserved startX startY numX numY s :
  wf_tiles (tiles s) -> conserved s ->
  conserved (renderTiles L startX startY numX numY s).
Proof.
  intros Hwf Hc. rewrite renderTiles_moves. cbn zeta.
  change (conserved (moves L
    (window_moves (clamp_start startX) (clamp_start startY)
       (clamp_end startX numX (Vec.x (Map.size (parent L))) - clamp_start startX)
       (clamp_end startY numY (Vec.y (Map.size (parent L))) - clamp_start startY))
    (clearTiles s))).
  apply moves_conserved.
  - by apply clearTiles_conserved.
  - apply NoDup_window_targets.
  - intros c _. apply clearTiles_tile_at.
Qed.

Lemma renderTiles_steady startX startY numX numY s :
  wf_tiles (tiles s) -> conserved s ->
  positive (_rendered (renderTiles L startX startY numX numY s)) ->
  steady (renderTiles L startX startY numX numY s).
Proof.
  intros Hwf Hc Hpos. split; [by apply renderTiles_framed|].
  split; [by apply renderTiles_conserved|by apply renderTiles_wf].
Qed.

(** A loop of fresh placements (source = target, targets distinct and
    free) takes from the pool, or creates, one sprite per resolving target,
    whatever the layer it runs on. *)
Lemma moves_fresh_counts cs :
  (forall c, c ∈ cs -> fromX c = toX c /\ fromY c = toY c) ->
  NoDup (target <$> cs) ->
  exists k : nat, forall s,
    (forall c, c ∈ cs -> tile_at (tiles s) (toX c) (toY c) = None) ->
    length (_tilePool (moves L cs s)) = (length (_tilePool s) - k)%nat /\
    length (live_nodes (tiles (moves L cs s))) = (length (live_nodes (tiles s)) + k)%nat /\
    forall cx cy,
      occupied (moves L cs s) cx cy =
      if decide ((cx, cy) ∈ target <$> cs) then resolves L cx cy else occupied s cx cy.
Proof.
  induction cs as [|c cs IH]; intros Hsame Hnd.
  - exists 0%nat. intros s _. cbn. split; [lia|]. split; [lia|]. intros cx cy.
    rewrite decide_False; [done|]. apply not_elem_of_nil.
  - rewrite fmap_cons in Hnd. apply NoDup_cons in Hnd as [Hc Hnd].
    destruct IH as [k Hk]; [|done|].
    { intros c' Hc'. apply Hsame. by apply list_elem_of_further. }
    exists ((if resolves L (toX c) (toY c) then 1 else 0) + k)%nat. intros s Hfree.
    destruct (Hsame c) as [Hfx Hfy]; [apply list_elem_of_here|].
    assert (Hc0 : tile_at (tiles s) (toX c) (toY c) = None)
      by apply Hfree, list_elem_of_here.
    destruct (move_free_counts L (fromX c) (fromY c) (toX c) (toY c) s)
      as (Hp1 & Hl1 & Ho1); [by rewrite Hfx, Hfy|done|].
    rewrite moves_cons. fold (move_by L c s) in Hp1, Hl1, Ho1.
    destruct (Hk (move_by L c s)) as (Hp2 & Hl2 & Ho2).
    { intros c' Hc'.
      destruct (tile_at (tiles (move_by L c s)) (toX c') (toY c')) as [n|] eqn:E; [|done].
      apply move_tile_at in E as [[Hx Hy]|[_ E]].
      - destruct Hc. apply list_elem_of_fmap. exists c'. split; [|done].
        unfold target. congruence.
      - rewrite Hfree in E; [done|]. by apply list_elem_of_further. }
    rewrite Hp2, Hl2, Hp1, Hl1. split; [lia|]. split; [lia|].
    intros cx cy. rewrite Ho2. rewrite fmap_cons.
    destruct (decide ((cx, cy) ∈ target <$> cs)) as [Hin|Hout].
    + rewrite decide_True; [done|]. by apply list_elem_of_further.
    + destruct (decide ((cx, cy) = target c)) as [Heq|Hne].
      * rewrite decide_True by (rewrite Heq; apply list_elem_of_here).
        injection Heq as -> ->. exact Ho1.
      * rewrite decide_False.
        2:{ intros [?|?]%elem_of_cons; done. }
        unfold occupied, move_by. rewrite move_tile_at_other; [done| |].
        -- intros [-> ->]. by apply Hne.
        -- rewrite Hfx, Hfy. intros [-> ->]. by apply Hne.
Qed.

(** [renderTiles] takes from the emptied grid and the pool, or creates, one
    sprite per resolving coordinate of its rectangle: a number that depends
    on the arguments only. *)
Lemma renderTiles_counts startX startY numX numY :
  exists k : nat, forall s,
    wf_tiles (tiles s) ->
    let s' := renderTiles L startX startY numX numY s in
    length (_tilePool s') =
      (length (live_nodes (tiles s)) + length (_tilePool s) - k)%nat /\
    length (live_nodes (tiles s')) = k /\
    forall cx cy,
      occupied s' cx cy =
      if decide ((cx, cy) ∈ target <$>
           window_moves (clamp_start startX) (clamp_start startY)
             (clamp_end startX numX (Vec.x (Map.size (parent L))) - clamp_start startX)
             (clamp_end startY numY (Vec.y (Map.size (parent L))) - clamp_start startY))
      then resolves L cx cy else false.
Proof.
  set (cs := window_moves _ _ _ _).
  destruct (moves_fresh_counts cs) as [k Hk].
  { intros c (x & y & _ & _ & ->)%elem_of_window_moves. done. }
  { apply NoDup_window_targets. }
  exists k. intros s Hwf s'.
  destruct (Hk (clearTiles s)) as (Hp & Hl & Ho).
  { intros c _. apply clearTiles_tile_at. }
  destruct (clearTiles_spec s Hwf) as (_ & Hnil & Hpool & _).
  apply Permutation_length in Hpool. rewrite length_app in Hpool.
  rewrite Hnil, Hpool in *.
  assert (Hs' : _tilePool s' = _tilePool (moves L cs (clearTiles s)) /\
                tiles s' = tiles (moves L cs (clearTiles s))).
  { unfold s'. by rewrite renderTiles_moves. }
  destruct Hs' as [Hs1 Hs2]. unfold occupied in *. rewrite Hs1, Hs2.
  split; [done|]. split; [done|]. intros cx cy. rewrite Ho.
  by rewrite clearTiles_tile_at.
Qed.

End RenderFacts.

(** ** Sequences of pan calls *)

Section PansFacts.

Variable L : Layer.
Implicit Types (s : TiledLayer).

Lemma pan_buffer_stable P dx dy s : pan_stable L P -> P s -> P (pan_buffer L dx dy s).
Proof.
  intros HP Hs. unfold pan_buffer. repeat case_match; try done.
  - by apply (stable_left L P HP), (stable_flag_left L P HP).
  - by apply (stable_right L P HP), (stable_flag_right L P HP).
  - by apply (stable_up L P HP), (stable_flag_top L P HP).
  - by apply (stable_down L P HP), (stable_flag_bottom L P HP).
Qed.

Lemma pan_keeps P dx dy s :
  pan_stable L P -> 0 < scaledX L -> 0 < scaledY L -> P s ->
  exists s', pan L dx dy s = Some s' /\ P s'.
Proof.
  intros HP Hsx Hsy Hs.
  destruct (pan_spec L P dx dy s) as (s' & H & HP' & _); eauto.
  - by apply pan_buffer_stable, (stable_add L P HP).
  - intros. by apply (stable_add L P HP), (stable_left L P HP).
  - intros. by apply (stable_add L P HP), (stable_right L P HP).
  - intros. by apply (stable_add L P HP), (stable_up L P HP).
  - intros. by apply (stable_add L P HP), (stable_down L P HP).
Qed.

Lemma pans_keep P ds s :
  pan_stable L P -> 0 < scaledX L -> 0 < scaledY L -> P s ->
  exists s', pans L ds s = Some s' /\ P s'.
Proof.
  intros HP Hsx Hsy. revert s. induction ds as [|[dx dy] ds IH]; intros s Hs.
  - by exists s.
  - destruct (pan_keeps P dx dy s) as (s1 & H1 & Hs1); [done..|].
    destruct (IH s1 Hs1) as (s' & H & Hs'). exists s'. split; [|done].
    cbn. by rewrite H1.
Qed.

Lemma framed_stable : pan_stable L framed.
Proof.
  split; try done.
  - apply framed_renderLeft.
  - apply framed_renderRight.
  - apply framed_renderUp.
  - apply framed_renderDown.
Qed.

Lemma steady_stable : pan_stable L steady.
Proof.
  split; try done.
  - apply steady_renderLeft.
  - apply steady_renderRight.
  - apply steady_renderUp.
  - apply steady_renderDown.
Qed.

Lemma conserved_exactly_one s : conserved s -> exactly_one s.
Proof.
  intros [Hch Hperm]. split; [|split].
  - rewrite Hperm, Hch. apply NoDup_seq.
  - intros n. by rewrite <- Hperm, elem_of_app.
  - by rewrite <- Hperm, length_app.
Qed.

End PansFacts.

(** ** The claims *)

(** C1 (as amended). The rectangle that [renderTiles] sets lies within the
    map bounds (0 <= x, 0 <= y, x + width <= mapWidth, y + height <=
    mapHeight) and holds every live coordinate; when that rectangle has at
    least one column and one row, every sequence of [pan] calls after it
    ends and leaves every live coordinate inside the current rectangle.
    [pan] itself does not clamp the rectangle to the map. *)
Theorem window_containment (L : Layer) (startX startY numX numY : Z)
    (ds : list (Z * Z)) (s0 : TiledLayer) :
  0 < scaledX L -> 0 < scaledY L ->
  let s1 := renderTiles L startX startY numX numY s0 in
  in_bounds L (_rendered s1) /\ contained s1 /\
  (positive (_rendered s1) ->
   exists s', pans L ds s1 = Some s' /\ contained s' /\ positive (_rendered s')).
Proof.
  intros Hsx Hsy s1. split; [apply renderTiles_in_bounds|].
  split; [apply renderTiles_contained|]. intros Hpos.
  destruct (pans_keep L framed ds s1) as (s' & H & _ & Hp & Hc).
  - apply framed_stable.
  - done.
  - done.
  - by apply renderTiles_framed.
  - by exists s'.
Qed.

Lemma window_containment_witness :
  let L := full_layer 4 4 in
  let s1 := renderTiles L 0 0 2 2 new_layer in
  in_bounds L (_rendered s1) /\ contained s1 /\
  (positive (_rendered s1) ->
   exists s', pans L [(33, 0); (0, -70)] s1 = Some s' /\ contained s' /\
              positive (_rendered s')).
Proof.
  apply (window_containment (full_layer 4 4) 0 0 2 2 [(33, 0); (0, -70)] new_layer);
    reflexivity.
Defined.

(** C1 as stated fails: on a 4 x 4 map, renderTiles(0,0,2,2) followed by
    pan(1,0) leaves the rectangle at x = -1, outside the map bounds. *)
Lemma window_leaves_map :
  exists s', pans (full_layer 4 4) [(1, 0)]
               (renderTiles (full_layer 4 4) 0 0 2 2 new_layer) = Some s' /\
             ~ in_bounds (full_layer 4 4) (_rendered s').
Proof.
  eexists. split; [vm_compute; reflexivity|].
  intros [H _]. vm_compute in H. by apply H.
Qed.

(** A rectangle without rows does not hold what [pan] renders: after
    renderTiles(0,2,2,0) and pan(-1,32) the coordinate (0,1) is live while
    the rectangle has height 0. *)
Example empty_window_escapes :
  exists s', pans (full_layer 4 4) [(-1, 32)]
               (renderTiles (full_layer 4 4) 0 2 2 0 new_layer) = Some s' /\
             occupied s' 0 1 = true /\ Rect.height (_rendered s') = 0.
Proof. eexists. split; [vm_compute; reflexivity|]. by vm_compute. Qed.

(** C2 (as amended). On a layer whose sprites are conserved, [clearTiles],
    [renderTiles], and every [moveTileSprite] whose target coordinate holds
    no other sprite keep each sprite ever created in exactly one of the
    live grid and the pool, so that live + pooled = created; and so does
    every sequence of [pan] calls after a [renderTiles] that sets a
    rectangle with at least one column and one row. *)
Theorem conservation (L : Layer) (s : TiledLayer) :
  wf_tiles (tiles s) -> conserved s -> 0 < scaledX L -> 0 < scaledY L ->
  exactly_one (clearTiles s) /\
  (forall fx fy tx ty,
     tile_at (tiles s) tx ty = None \/ (tx = fx /\ ty = fy) ->
     exactly_one (moveTileSprite L fx fy tx ty s)) /\
  (forall startX startY numX numY,
     let s1 := renderTiles L startX startY numX numY s in
     exactly_one s1 /\
     (positive (_rendered s1) ->
      forall ds, exists s', pans L ds s1 = Some s' /\ exactly_one s')).
Proof.
  intros Hwf Hc Hsx Hsy. split; [|split].
  - by apply conserved_exactly_one, clearTiles_conserved.
  - intros fx fy tx ty Hto. by apply conserved_exactly_one, move_conserved.
  - intros startX startY numX numY s1. split.
    + by apply conserved_exactly_one, renderTiles_conserved.
    + intros Hpos ds.
      destruct (pans_keep L steady ds s1) as (s' & H & _ & Hc' & _).
      * apply steady_stable.
      * done.
      * done.
      * by apply renderTiles_steady.
      * exists s'. split; [done|]. by apply conserved_exactly_one.
Qed.

Lemma new_layer_conserved : wf_tiles (tiles new_layer) /\ conserved new_layer.
Proof.
  split; [split; [apply NoDup_nil_2|apply Forall_nil_2]|]. by split.
Qed.

Lemma conservation_witness :
  let L := full_layer 4 4 in
  exactly_one (clearTiles new_layer) /\
  (forall fx fy tx ty,
     tile_at (tiles new_layer) tx ty = None \/ (tx = fx /\ ty = fy) ->
     exactly_one (moveTileSprite L fx fy tx ty new_layer)) /\
  (forall startX startY numX numY,
     let s1 := renderTiles L startX startY numX numY new_layer in
     exactly_one s1 /\
     (positive (_rendered s1) ->
      forall ds, exists s', pans L ds s1 = Some s' /\ exactly_one s')).
Proof.
  apply (conservation (full_layer 4 4) new_layer).
  - apply new_layer_conserved.
  - apply new_layer_conserved.
  - reflexivity.
  - reflexivity.
Defined.

(** C2 as stated fails: after renderTiles(0,0,2,1) a moveTileSprite(0,0,1,0)
    overwrites the sprite at (1,0), which is then neither live nor pooled:
    two sprites were created, one is live, none is pooled. *)
Lemma overwritten_sprite_is_lost :
  let s := moveTileSprite (full_layer 4 4) 0 0 1 0
             (renderTiles (full_layer 4 4) 0 0 2 1 new_layer) in
  children s = [0; 1]%nat /\ live_nodes (tiles s) = [0%nat] /\ _tilePool s = [] /\
  ~ exactly_one s.
Proof.
  cbv zeta. split; [by vm_compute|]. split; [by vm_compute|]. split; [by vm_compute|].
  intros (_ & _ & Hlen). vm_compute in Hlen. discriminate.
Qed.

(** The same loss through the host calls alone, on a rectangle without
    rows: renderTiles(0,2,2,0), pan(-1,32), pan(0,-1) creates six sprites
    and keeps three. *)
Example empty_window_loses_sprites :
  exists s', pans (full_layer 4 4) [(-1, 32); (0, -1)]
               (renderTiles (full_layer 4 4) 0 2 2 0 new_layer) = Some s' /\
             length (children s') = 6%nat /\
             length (live_nodes (tiles s')) = 3%nat /\ _tilePool s' = [].
Proof. eexists. split; [vm_compute; reflexivity|]. by vm_compute. Qed.

Section WholeTilePans.

Variable L : Layer.
Implicit Types (s : TiledLayer).

Lemma pan_buffer_left dx dy s :
  0 < dx -> Buffered.left (_buffered s) = false ->
  pan_buffer L dx dy s = _renderLeft L true (set_buffered_left s).
Proof.
  intros Hdx Hb. unfold pan_buffer. rewrite Hb.
  by replace (0 <? dx) with true by (symmetry; by apply Z.ltb_lt).
Qed.

Lemma pan_buffer_skip dx s :
  0 < dx -> Buffered.left (_buffered s) = true -> pan_buffer L dx 0 s = s.
Proof.
  intros Hdx Hb. unfold pan_buffer. rewrite Hb.
  replace (0 <? dx) with true by (symmetry; by apply Z.ltb_lt).
  by replace (dx <? 0) with false by (symmetry; apply Z.ltb_ge; lia).
Qed.

(** A pan by exactly one scaled tile to the right, from a zero horizontal
    remainder: one buffering step if the left edge is not buffered yet,
    then exactly one pass of the first loop. *)
Lemma pan_one_tile s :
  0 < scaledX L -> 0 < scaledY L ->
  Vec.x (_panDelta s) = 0 ->
  - scaledY L < Vec.y (_panDelta s) < scaledY L ->
  pan L (scaledX L) 0 s =
  Some (add_panDelta (- scaledX L) 0
          (_renderLeft L false
             (pan_buffer L (scaledX L) 0 (add_panDelta (scaledX L) 0 s)))).
Proof.
  intros Hsx Hsy Hx Hy. unfold pan, pan_fuel.
  set (s0 := pan_buffer L (scaledX L) 0 (add_panDelta (scaledX L) 0 s)).
  assert (Hp0 : _panDelta s0 = Vec.mk (scaledX L) (Vec.y (_panDelta s))).
  { unfold s0. rewrite pan_buffer_panDelta. cbn. f_equal; lia. }
  set (s1 := add_panDelta (- scaledX L) 0 (_renderLeft L false s0)).
  assert (Hp1 : _panDelta s1 = Vec.mk 0 (Vec.y (_panDelta s))).
  { unfold s1, add_panDelta. cbn [_panDelta with_panDelta].
    rewrite _renderLeft_panDelta, Hp0. cbn. f_equal; lia. }
  destruct (Z.to_nat _) as [|fuel] eqn:E; [lia|].
  rewrite while_step by (rewrite Hp0; cbn; by apply Z.leb_le).
  fold s1. rewrite (while_false fuel) by (rewrite Hp1; cbn; by apply Z.leb_gt).
  cbn [mbind option_bind].
  rewrite while_false by (rewrite Hp1; cbn; apply Z.leb_gt; lia).
  cbn [mbind option_bind].
  rewrite while_false by (rewrite Hp1; cbn; apply Z.leb_gt; lia).
  cbn [mbind option_bind].
  by rewrite while_false by (rewrite Hp1; cbn; apply Z.leb_gt; lia).
Qed.

(** Once the left edge is buffered, [k] such pans move the rectangle [k]
    columns to the left and keep its width. *)
Lemma pans_whole_tiles (k : nat) s :
  0 < scaledX L -> 0 < scaledY L ->
  Vec.x (_panDelta s) = 0 ->
  - scaledY L < Vec.y (_panDelta s) < scaledY L ->
  Buffered.left (_buffered s) = true ->
  exists s', pans L (repeat (scaledX L, 0) k) s = Some s' /\
    Rect.x (_rendered s') = Rect.x (_rendered s) - Z.of_nat k /\
    Rect.width (_rendered s') = Rect.width (_rendered s) /\
    Vec.x (_panDelta s') = 0.
Proof.
  intros Hsx Hsy. revert s. induction k as [|k IH]; intros s Hx Hy Hb.
  - exists s. cbn. split; [done|]. split; [lia|done].
  - cbn [repeat pans]. rewrite pan_one_tile by done. cbn [mbind option_bind].
    rewrite pan_buffer_skip by done.
    set (s1 := add_panDelta _ _ _).
    destruct (IH s1) as (s' & H & Hrx & Hrw & Hpx).
    + unfold s1, add_panDelta. cbn [_panDelta with_panDelta Vec.x].
      rewrite _renderLeft_panDelta. cbn. lia.
    + unfold s1, add_panDelta. cbn [_panDelta with_panDelta Vec.y].
      rewrite _renderLeft_panDelta. cbn. lia.
    + unfold s1, add_panDelta. cbn [_buffered with_panDelta].
      by rewrite _renderLeft_buffered.
    + exists s'. split; [done|]. rewrite Hrx, Hrw.
      unfold s1, add_panDelta. cbn [_rendered with_panDelta].
      rewrite _renderLeft_rendered. cbn. split; [lia|done].
Qed.

Lemma edges_stable : pan_stable L (fun s => edges_ok (_rendered s)).
Proof.
  split; done.
Qed.

Lemma add_panDelta_panDelta a b s :
  _panDelta (add_panDelta a b s) =
  Vec.mk (Vec.x (_panDelta s) + a) (Vec.y (_panDelta s) + b).
Proof. reflexivity. Qed.
Lemma add_panDelta_rendered a b s : _rendered (add_panDelta a b s) = _rendered s.
Proof. reflexivity. Qed.
Lemma add_panDelta_buffered a b s : _buffered (add_panDelta a b s) = _buffered s.
Proof. reflexivity. Qed.
Lemma set_buffered_left_panDelta s : _panDelta (set_buffered_left s) = _panDelta s.
Proof. reflexivity. Qed.
Lemma set_buffered_left_rendered s : _rendered (set_buffered_left s) = _rendered s.
Proof. reflexivity. Qed.
Lemma set_buffered_left_flag s : Buffered.left (_buffered (set_buffered_left s)) = true.
Proof. reflexivity. Qed.


(** The same from the state [renderTiles] leaves, for any scaled tile
    width: the first call also renders the buffer column. *)
Lemma pans_from_render (s0 : TiledLayer) (k : nat) :
  0 < scaledX L -> 0 < scaledY L ->
  Z.rem (Vec.x (Map.position (parent L))) (scaledX L) = 0 ->
  (1 <= k)%nat ->
  let s1 := renderTiles L 0 0 10 10 s0 in
  Rect.x (_rendered s1) = 0 /\ Vec.x (_panDelta s1) = 0 /\
  exists s', pans L (repeat (scaledX L, 0) k) s1 = Some s' /\
    Rect.x (_rendered s') = - Z.of_nat k - 1 /\
    Rect.width (_rendered s') = Rect.width (_rendered s1) + 1 /\
    Rect.right (_rendered s') = Rect.right (_rendered s1) - Z.of_nat k /\
    Vec.x (_panDelta s') = 0.
Proof.
  intros Hsx Hsy Hrem Hk s1.
  assert (Hr1 : Rect.x (_rendered s1) = 0) by (unfold s1; by rewrite renderTiles_rendered).
  assert (Hp1 : _panDelta s1 =
                Vec.mk 0 (Z.rem (Vec.y (Map.position (parent L))) (scaledY L))).
  { unfold s1. rewrite renderTiles_moves. cbn [_panDelta with_panDelta].
    fold (scaledX L). by rewrite Hrem. }
  assert (Hb1 : Buffered.left (_buffered s1) = false)
    by (unfold s1; by rewrite renderTiles_moves).
  assert (He1 : edges_ok (_rendered s1)) by apply renderTiles_edges.
  assert (Hy1 : - scaledY L < Vec.y (_panDelta s1) < scaledY L).
  { rewrite Hp1. cbn [Vec.y].
    pose proof (Z.rem_bound_abs (Vec.y (Map.position (parent L))) (scaledY L)).
    lia. }
  assert (Hx1 : Vec.x (_panDelta s1) = 0) by by rewrite Hp1.
  clearbody s1. clear Hp1.
  split; [done|]. split; [done|].
  destruct k as [|k]; [lia|]. cbn [repeat pans].
  rewrite pan_one_tile by done.
  cbn [mbind option_bind].
  rewrite pan_buffer_left; [|done|by rewrite add_panDelta_buffered].
  set (s2 := add_panDelta _ _ _).
  assert (Hp2 : _panDelta s2 = Vec.mk (Vec.x (_panDelta s1) + scaledX L + - scaledX L)
                                 (Vec.y (_panDelta s1) + 0 + 0)).
  { unfold s2.
    rewrite add_panDelta_panDelta, !_renderLeft_panDelta, set_buffered_left_panDelta.
    by rewrite add_panDelta_panDelta. }
  assert (Hb2 : Buffered.left (_buffered s2) = true).
  { unfold s2.
    by rewrite add_panDelta_buffered, !_renderLeft_buffered, set_buffered_left_flag. }
  assert (Hr2 : _rendered s2 = rect_left false (rect_left true (_rendered s1))).
  { unfold s2.
    rewrite add_panDelta_rendered, !_renderLeft_rendered, set_buffered_left_rendered.
    by rewrite add_panDelta_rendered. }
  clearbody s2.
  destruct (pans_whole_tiles k s2) as (s' & H & Hrx & Hrw & Hpx).
  - done.
  - done.
  - rewrite Hp2. cbn [Vec.x]. lia.
  - rewrite Hp2. cbn [Vec.y]. lia.
  - done.
  - exists s'. split; [done|].
    rewrite Hr2 in Hrx, Hrw.
    cbn [rect_left rect_of grow Rect.x Rect.width] in Hrx, Hrw.
    destruct He1 as (_ & Her & _).
    assert (He' : Rect.right (_rendered s') =
                  Rect.x (_rendered s') + Rect.width (_rendered s') - 1).
    { destruct (pans_keep L (fun s => edges_ok (_rendered s)) (repeat (scaledX L, 0) k) s2)
        as (s'' & H'' & He''); [apply edges_stable|done|done| |].
      - rewrite Hr2. by repeat split.
      - rewrite H in H''. injection H'' as <-. by destruct He'' as (_ & ? & _). }
    rewrite He', Hrx, Hrw, Her. lia.
Qed.

End WholeTilePans.

(** C3 (as amended). After renderTiles(0,0,10,10) on 32-pixel-wide scaled
    tiles with a zero horizontal remainder, [k >= 1] calls of pan(32,0)
    end with the rectangle moved to the LEFT: its [x] is [-(k+1)] (one
    column for the buffered left edge, one per call), its width has grown
    by that buffered column, so its right edge has moved left by exactly
    [k]; and the accumulator [panX] is back at 0 after every call. After
    ten calls [x] is -11, not +10. *)
Theorem pan_whole_tiles (L : Layer) (s0 : TiledLayer) (k : nat) :
  scaledX L = 32 -> 0 < scaledY L ->
  Z.rem (Vec.x (Map.position (parent L))) 32 = 0 ->
  (1 <= k)%nat ->
  let s1 := renderTiles L 0 0 10 10 s0 in
  Rect.x (_rendered s1) = 0 /\ Vec.x (_panDelta s1) = 0 /\
  exists s', pans L (repeat (32, 0) k) s1 = Some s' /\
    Rect.x (_rendered s') = - Z.of_nat k - 1 /\
    Rect.width (_rendered s') = Rect.width (_rendered s1) + 1 /\
    Rect.right (_rendered s') = Rect.right (_rendered s1) - Z.of_nat k /\
    Vec.x (_panDelta s') = 0.
Proof.
  intros Hsx Hsy Hrem Hk. rewrite <- Hsx in Hrem |- *.
  apply pans_from_render; [lia|done|done|done].
Qed.

Lemma pan_whole_tiles_witness :
  let L := full_layer 20 20 in
  let s1 := renderTiles L 0 0 10 10 new_layer in
  Rect.x (_rendered s1) = 0 /\ Vec.x (_panDelta s1) = 0 /\
  exists s', pans L (repeat (32, 0) 10) s1 = Some s' /\
    Rect.x (_rendered s') = - Z.of_nat 10 - 1 /\
    Rect.width (_rendered s') = Rect.width (_rendered s1) + 1 /\
    Rect.right (_rendered s') = Rect.right (_rendered s1) - Z.of_nat 10 /\
    Vec.x (_panDelta s') = 0.
Proof.
  apply (pan_whole_tiles (full_layer 20 20) new_layer 10);
    [reflexivity|reflexivity|reflexivity|lia].
Defined.

(** C3 as stated fails: on a 20 x 20 map of 32-pixel tiles, ten calls of
    pan(32,0) after renderTiles(0,0,10,10) leave the rectangle at x = -11;
    its x has not increased by 10. *)
Lemma ten_pans_move_left :
  let L := full_layer 20 20 in
  let s1 := renderTiles L 0 0 10 10 new_layer in
  exists s', pans L (repeat (32, 0) 10) s1 = Some s' /\
    Rect.x (_rendered s') = -11 /\
    Rect.x (_rendered s') <> Rect.x (_rendered s1) + 10.
Proof. cbv zeta. eexists. split; [vm_compute; reflexivity|]. by vm_compute. Qed.

Section BeforeRender.

Variable L : Layer.
Implicit Types (s : TiledLayer) (f : bool).

Lemma _renderLeft_empty f s :
  Rect.height (_rendered s) = 0 ->
  _renderLeft L f s = with_rendered (rect_left f (_rendered s)) s.
Proof. intros H. by rewrite _renderLeft_moves, H. Qed.

Lemma _renderRight_empty f s :
  Rect.height (_rendered s) = 0 ->
  _renderRight L f s = with_rendered (rect_right f (_rendered s)) s.
Proof. intros H. by rewrite _renderRight_moves, H. Qed.

Lemma _renderUp_empty f s :
  Rect.width (_rendered s) = 0 ->
  _renderUp L f s = with_rendered (rect_up f (_rendered s)) s.
Proof. intros H. by rewrite _renderUp_moves, H. Qed.

Lemma _renderDown_empty f s :
  Rect.width (_rendered s) = 0 ->
  _renderDown L f s = with_rendered (rect_down f (_rendered s)) s.
Proof. intros H. by rewrite _renderDown_moves, H. Qed.

Lemma pan_nothing : 0 < scaledX L -> 0 < scaledY L -> pan L 0 0 new_layer = Some new_layer.
Proof.
  intros Hsx Hsy. unfold pan, pan_fuel. cbn.
  rewrite while_false by (cbn; apply Z.leb_gt; lia). cbn.
  rewrite while_false by (cbn; apply Z.leb_gt; lia). cbn.
  rewrite while_false by (cbn; apply Z.leb_gt; lia). cbn.
  by rewrite while_false by (cbn; apply Z.leb_gt; lia).
Qed.

(** With no horizontal delta the rectangle keeps zero width, and rows of
    zero width hold no tile. *)
Lemma pan_vertical_first dy :
  0 < scaledX L -> 0 < scaledY L ->
  exists s', pan L 0 dy new_layer = Some s' /\
    tiles s' = [] /\ _tilePool s' = [] /\ children s' = [].
Proof.
  intros Hsx Hsy.
  destruct (pan_spec L
    (fun s => tiles s = [] /\ _tilePool s = [] /\ children s = [] /\
              Rect.width (_rendered s) = 0 /\ Vec.x (_panDelta s) = 0)
    0 dy new_layer) as (s' & H & (Ht & Hp & Hc & _) & _); try done.
  - unfold pan_buffer. cbn [andb Z.ltb Z.compare].
    destruct (0 <? dy); cbn [andb negb _buffered add_panDelta with_panDelta new_layer
                               Buffered.top Buffered.bottom].
    + by rewrite _renderUp_empty.
    + destruct (dy <? 0); cbn [andb]; [|done]. by rewrite _renderDown_empty.
  - intros s (_ & _ & _ & _ & Hx) Hle. lia.
  - intros s (_ & _ & _ & _ & Hx) Hle. lia.
  - intros s (Ht & Hp & Hc & Hw & Hx) _. rewrite _renderUp_empty by done. cbn.
    repeat split; try done. lia.
  - intros s (Ht & Hp & Hc & Hw & Hx) _. rewrite _renderDown_empty by done. cbn.
    repeat split; try done. lia.
  - by exists s'.
Qed.

(** With a vertical delta below one scaled tile the rectangle keeps zero
    height, and columns of zero height hold no tile. *)
Lemma pan_horizontal_first dx dy :
  0 < scaledX L -> 0 < scaledY L -> dx <> 0 -> - scaledY L < dy < scaledY L ->
  exists s', pan L dx dy new_layer = Some s' /\
    tiles s' = [] /\ _tilePool s' = [] /\ children s' = [].
Proof.
  intros Hsx Hsy Hdx Hdy.
  destruct (pan_spec L
    (fun s => tiles s = [] /\ _tilePool s = [] /\ children s = [] /\
              Rect.height (_rendered s) = 0 /\
              - scaledY L < Vec.y (_panDelta s) < scaledY L)
    dx dy new_layer) as (s' & H & (Ht & Hp & Hc & _) & _); try done.
  - unfold pan_buffer. cbn [_buffered add_panDelta with_panDelta new_layer
                            Buffered.left Buffered.right negb].
    destruct (Z.ltb_spec 0 dx); cbn [andb].
    + rewrite _renderLeft_empty by done. cbn. repeat split; try done; lia.
    + destruct (Z.ltb_spec dx 0); cbn [andb]; [|lia].
      rewrite _renderRight_empty by done. cbn. repeat split; try done; lia.
  - intros s (Ht & Hp & Hc & Hh & Hy) _. rewrite _renderLeft_empty by done. cbn.
    repeat split; try done; lia.
  - intros s (Ht & Hp & Hc & Hh & Hy) _. rewrite _renderRight_empty by done. cbn.
    repeat split; try done; lia.
  - intros s (_ & _ & _ & _ & Hy) Hle. lia.
  - intros s (_ & _ & _ & _ & Hy) Hle. lia.
  - by exists s'.
Qed.

Lemma marked_stable : pan_stable L marked.
Proof.
  split; unfold marked; try done.
  - intros s (Hb & Hr). split; [done|exact Hr].
  - intros s (Hb & Hr). split; [|exact Hr]. cbn. by rewrite !orb_true_r.
  - intros s (Hb & Hr). split; [|exact Hr]. cbn. by rewrite !orb_true_r.
  - intros s (Hb & Hr). split; [|exact Hr]. cbn. by rewrite !orb_true_r.
  - intros f s (Hb & Hr). rewrite _renderLeft_buffered, _renderLeft_rendered.
    split; [done|]. destruct f; cbn; lia.
  - intros f s (Hb & Hr). rewrite _renderRight_buffered, _renderRight_rendered.
    split; [done|]. destruct f; cbn; lia.
  - intros f s (Hb & Hr). rewrite _renderUp_buffered, _renderUp_rendered.
    split; [done|]. destruct f; cbn; lia.
  - intros f s (Hb & Hr). rewrite _renderDown_buffered, _renderDown_rendered.
    split; [done|]. destruct f; cbn; lia.
Qed.

(** A first pan with a non-zero delta marks an edge and grows the
    rectangle. *)
Lemma pan_marks_first dx dy :
  0 < scaledX L -> 0 < scaledY L -> dx <> 0 \/ dy <> 0 ->
  exists s', pan L dx dy new_layer = Some s' /\
    _buffered s' <> _buffered new_layer /\ _rendered s' <> _rendered new_layer.
Proof.
  intros Hsx Hsy Hd. pose proof marked_stable as HP.
  destruct (pan_spec L marked dx dy new_layer Hsx Hsy)
    as (s' & H & (Hb & Hw & Hh & Hwh) & _).
  - unfold marked, pan_buffer. cbn [_buffered add_panDelta with_panDelta new_layer
      Buffered.left Buffered.right Buffered.top Buffered.bottom negb].
    destruct (Z.ltb_spec 0 dx); cbn [andb].
    { rewrite _renderLeft_buffered, _renderLeft_rendered. by cbn. }
    destruct (Z.ltb_spec dx 0); cbn [andb].
    { rewrite _renderRight_buffered, _renderRight_rendered. by cbn. }
    destruct (Z.ltb_spec 0 dy); cbn [andb].
    { rewrite _renderUp_buffered, _renderUp_rendered. by cbn. }
    destruct (Z.ltb_spec dy 0); cbn [andb]; [|lia].
    rewrite _renderDown_buffered, _renderDown_rendered. by cbn.
  - intros. by apply (stable_add L _ HP), (stable_left L _ HP).
  - intros. by apply (stable_add L _ HP), (stable_right L _ HP).
  - intros. by apply (stable_add L _ HP), (stable_up L _ HP).
  - intros. by apply (stable_add L _ HP), (stable_down L _ HP).
  - exists s'. split; [done|]. split.
    + intros Heq. rewrite Heq in Hb. by cbn in Hb.
    + intros Heq. rewrite Heq in Hwh. by cbn in Hwh.
Qed.

End BeforeRender.

(** C4 (as amended). A [pan] before any [renderTiles] is not rejected: it
    ends and acts on the zero-size rectangle of the constructor. pan(0,0)
    changes nothing; a non-zero delta marks an edge as buffered and grows
    the rectangle; the live grid and the pool (and the set of sprites)
    stay empty whenever dx = 0 or dy is below one scaled tile height in
    absolute value. *)
Theorem pan_before_renderTiles (L : Layer) (dx dy : Z) :
  0 < scaledX L -> 0 < scaledY L ->
  exists s', pan L dx dy new_layer = Some s' /\
    (dx = 0 /\ dy = 0 -> s' = new_layer) /\
    (dx = 0 \/ - scaledY L < dy < scaledY L ->
     tiles s' = [] /\ _tilePool s' = [] /\ children s' = []) /\
    (dx <> 0 \/ dy <> 0 ->
     _buffered s' <> _buffered new_layer /\ _rendered s' <> _rendered new_layer).
Proof.
  intros Hsx Hsy.
  destruct (pan_spec L (fun _ => True) dx dy new_layer) as (s' & H & _); try done.
  exists s'. split; [done|]. split; [|split].
  - intros [-> ->]. rewrite pan_nothing in H by done. by injection H.
  - intros Hd. destruct (decide (dx = 0)) as [->|Hdx].
    + destruct (pan_vertical_first L dy) as (s'' & H'' & Hs''); [done..|].
      rewrite H in H''. by injection H'' as <-.
    + destruct (pan_horizontal_first L dx dy) as (s'' & H'' & Hs''); [done|done|done|lia|].
      rewrite H in H''. by injection H'' as <-.
  - intros Hd. destruct (pan_marks_first L dx dy) as (s'' & H'' & Hs''); [done..|].
    rewrite H in H''. by injection H'' as <-.
Qed.

Lemma pan_before_renderTiles_witness :
  exists s', pan (full_layer 4 4) 5 (-3) new_layer = Some s' /\
    (5 = 0 /\ -3 = 0 -> s' = new_layer) /\
    (5 = 0 \/ - scaledY (full_layer 4 4) < -3 < scaledY (full_layer 4 4) ->
     tiles s' = [] /\ _tilePool s' = [] /\ children s' = []) /\
    (5 <> 0 \/ -3 <> 0 ->
     _buffered s' <> _buffered new_layer /\ _rendered s' <> _rendered new_layer).
Proof.
  apply (pan_before_renderTiles (full_layer 4 4) 5 (-3)); reflexivity.
Defined.

(** C4 as stated fails: pan(1,0) on a freshly constructed layer is carried
    out; it marks the left edge as buffered and moves the rectangle to
    x = -1 with width 1. *)
Lemma first_pan_is_not_rejected :
  exists s', pan (full_layer 4 4) 1 0 new_layer = Some s' /\
    Buffered.left (_buffered s') = true /\
    Rect.x (_rendered s') = -1 /\ Rect.width (_rendered s') = 1 /\
    _buffered s' <> _buffered new_layer /\ _rendered s' <> _rendered new_layer.
Proof.
  eexists. split; [vm_compute; reflexivity|].
  split; [done|]. split; [done|]. split; [done|]. split; discriminate.
Qed.





(** C6. Rendering twice in a row with the same arguments leaves, after the
    second call, the pool as large, the same coordinates occupied, as many
    live nodes, and the same rectangle, flags and accumulator as after the
    first call. *)
Theorem renderTiles_idempotent (L : Layer) (startX startY numX numY : Z)
    (s0 : TiledLayer) :
  wf_tiles (tiles s0) ->
  let s1 := renderTiles L startX startY numX numY s0 in
  let s2 := renderTiles L startX startY numX numY s1 in
  length (_tilePool s2) = length (_tilePool s1) /\
  (forall cx cy, occupied s2 cx cy = occupied s1 cx cy) /\
  length (live_nodes (tiles s2)) = length (live_nodes (tiles s1)) /\
  _rendered s2 = _rendered s1 /\ _buffered s2 = _buffered s1 /\
  _panDelta s2 = _panDelta s1.
Proof.
  intros Hwf0 s1 s2.
  assert (Hwf1 : wf_tiles (tiles s1)) by by apply renderTiles_wf.
  destruct (renderTiles_counts L startX startY numX numY) as [k Hk].
  destruct (Hk s0 Hwf0) as (Hp1 & Hl1 & Ho1).
  destruct (Hk s1 Hwf1) as (Hp2 & Hl2 & Ho2).
  fold s1 in Hp1, Hl1, Ho1. fold s2 in Hp2, Hl2, Ho2.
  split; [lia|]. split; [|split; [lia|]].
  - intros cx cy. by rewrite Ho2, Ho1.
  - unfold s2. by rewrite !renderTiles_moves.
Qed.

Lemma renderTiles_idempotent_witness :
  let L := full_layer 4 4 in
  let s1 := renderTiles L 1 1 2 2 new_layer in
  let s2 := renderTiles L 1 1 2 2 s1 in
  length (_tilePool s2) = length (_tilePool s1) /\
  (forall cx cy, occupied s2 cx cy = occupied s1 cx cy) /\
  length (live_nodes (tiles s2)) = length (live_nodes (tiles s1)) /\
  _rendered s2 = _rendered s1 /\ _buffered s2 = _buffered s1 /\
  _panDelta s2 = _panDelta s1.
Proof.
  apply (renderTiles_idempotent (full_layer 4 4) 1 1 2 2 new_layer).
  apply new_layer_conserved.
Defined.

(** C7. The interactive flag of a binding is decided by the first of the
    tile properties, the tileset properties, the layer properties and the
    map properties, in that order, that defines [interactive] or
    [interactiveTiles]; later sources are not consulted, and with no such
    source the flag is false. This is the flag [moveTileSprite] sets on the
    sprite it binds. *)
Theorem interactive_precedence (L : Layer) (set : Tileset.t) (o : Props.t)
    (x y : Z) (t0 : Tile.t) :
  _getInteractive L (Some set) o =
    first_defined [o; Tileset.properties set; properties L;
                   Map.properties (parent L)] /\
  Tile.interactive (binding L set x y t0) =
    first_defined
      [Tileset.getTileProperties set (tileId_at L (x + y * Vec.x (size L)));
       Tileset.properties set; properties L; Map.properties (parent L)].
Proof.
  assert (H : forall o, _getInteractive L (Some set) o =
    first_defined [o; Tileset.properties set; properties L;
                   Map.properties (parent L)]).
  { intros p. unfold _getInteractive. cbn [first_defined option_map].
    destruct (defines_interactive p); [done|].
    destruct (defines_interactive (Tileset.properties set)); [done|].
    destruct (defines_interactive (properties L)); [done|].
    by destruct (defines_interactive (Map.properties (parent L))). }
  split; [apply H|]. rewrite <- H. unfold binding, bind_tile.
  by repeat case_match.
Qed.

Lemma binding_position (L : Layer) (set : Tileset.t) (x y : Z) (t0 : Tile.t) :
  Tile.position (binding L set x y t0) = tile_position L set x y.
Proof.
  unfold binding, bind_tile. repeat case_match; cbn; by destruct (tile_position L set x y).
Qed.

(** C8. On an isometric map the sprite that [moveTileSprite] binds at tile
    coordinate (tileX, tileY) through a tileset is positioned at
    pixelX = (tileX - tileY) * (tileWidth / 2)
             + (tileWidth - tilesetTileWidth) + tilesetOffsetX and
    pixelY = (tileX + tileY) * (tileHeight / 2)
             + (tileHeight - tilesetTileHeight) + tilesetOffsetY,
    where the tile size is the map's. *)
Theorem isometric_projection (L : Layer) (set : Tileset.t)
    (fromTileX fromTileY tileX tileY : Z) (s : TiledLayer) :
  conserved s ->
  Map.orientation (parent L) = "isometric"%string ->
  Map.getTileset (parent L) (tileId_at L (tileX + tileY * Vec.x (size L))) = Some set ->
  let s' := moveTileSprite L fromTileX fromTileY tileX tileY s in
  exists n t,
    tile_at (tiles s') tileX tileY = Some n /\ sprites s' !! n = Some t /\
    (fst (Tile.position t) ==
       (inject_Z tileX - inject_Z tileY)
         * (inject_Z (Vec.x (Map.tileSize (parent L))) / 2)
       + (inject_Z (Vec.x (Map.tileSize (parent L)))
          - inject_Z (Vec.x (Tileset.tileSize set)))
       + inject_Z (Vec.x (Tileset.tileoffset set)))%Q /\
    (snd (Tile.position t) ==
       (inject_Z tileX + inject_Z tileY)
         * (inject_Z (Vec.y (Map.tileSize (parent L))) / 2)
       + (inject_Z (Vec.y (Map.tileSize (parent L)))
          - inject_Z (Vec.y (Tileset.tileSize set)))
       + inject_Z (Vec.y (Tileset.tileoffset set)))%Q.
Proof.
  intros Hc Hiso Hset s'.
  destruct (move_binds L fromTileX fromTileY tileX tileY s set Hc Hset)
    as (n & t0 & Hn & Ht).
  exists n, (binding L set tileX tileY t0). split; [done|]. split; [done|].
  rewrite binding_position. unfold tile_position. rewrite Hiso.
  cbn [String.eqb Ascii.eqb Bool.eqb fst snd]. split; field.
Qed.

Lemma isometric_projection_witness :
  let L := iso_layer in
  let set := Tileset.mk (Vec.mk 64 32) (Vec.mk 0 0) Props.empty
               (fun _ => 1) (fun _ => Props.empty) in
  let s' := moveTileSprite L 2 3 2 3 new_layer in
  exists n t,
    tile_at (tiles s') 2 3 = Some n /\ sprites s' !! n = Some t /\
    (fst (Tile.position t) ==
       (inject_Z 2 - inject_Z 3)
         * (inject_Z (Vec.x (Map.tileSize (parent L))) / 2)
       + (inject_Z (Vec.x (Map.tileSize (parent L)))
          - inject_Z (Vec.x (Tileset.tileSize set)))
       + inject_Z (Vec.x (Tileset.tileoffset set)))%Q /\
    (snd (Tile.position t) ==
       (inject_Z 2 + inject_Z 3)
         * (inject_Z (Vec.y (Map.tileSize (parent L))) / 2)
       + (inject_Z (Vec.y (Map.tileSize (parent L)))
          - inject_Z (Vec.y (Tileset.tileSize set)))
       + inject_Z (Vec.y (Tileset.tileoffset set)))%Q.
Proof.
  apply (isometric_projection iso_layer _ 2 3 2 3 new_layer).
  - apply new_layer_conserved.
  - reflexivity.
  - reflexivity.
Defined.

(** C9 (as amended). Under isometric projection with map tile size
    (64,32), tileset tile size (64,32) and tileset offset (0,0), the sprite
    bound at tile (1,0) is placed at pixel (32,16): (1 - 0) * (64 / 2) = 32
    and (1 + 0) * (32 / 2) = 16. *)
Theorem isometric_scenario (L : Layer) (set : Tileset.t)
    (fromTileX fromTileY : Z) (s : TiledLayer) :
  conserved s ->
  Map.orientation (parent L) = "isometric"%string ->
  Map.tileSize (parent L) = Vec.mk 64 32 ->
  Tileset.tileSize set = Vec.mk 64 32 ->
  Tileset.tileoffset set = Vec.mk 0 0 ->
  Map.getTileset (parent L) (tileId_at L (1 + 0 * Vec.x (size L))) = Some set ->
  let s' := moveTileSprite L fromTileX fromTileY 1 0 s in
  exists n t,
    tile_at (tiles s') 1 0 = Some n /\ sprites s' !! n = Some t /\
    (fst (Tile.position t) == 32)%Q /\ (snd (Tile.position t) == 16)%Q.
Proof.
  intros Hc Hiso Hts Hss Hoff Hset s'.
  destruct (move_binds L fromTileX fromTileY 1 0 s set Hc Hset) as (n & t0 & Hn & Ht).
  exists n, (binding L set 1 0 t0). split; [done|]. split; [done|].
  rewrite binding_position. unfold tile_position. rewrite Hiso, Hts, Hss, Hoff.
  by vm_compute.
Qed.

Lemma isometric_scenario_witness :
  let s' := moveTileSprite iso_layer 1 0 1 0 new_layer in
  exists n t,
    tile_at (tiles s') 1 0 = Some n /\ sprites s' !! n = Some t /\
    (fst (Tile.position t) == 32)%Q /\ (snd (Tile.position t) == 16)%Q.
Proof.
  apply (isometric_scenario iso_layer
           (Tileset.mk (Vec.mk 64 32) (Vec.mk 0 0) Props.empty
              (fun _ => 1) (fun _ => Props.empty)) 1 0 new_layer).
  - apply new_layer_conserved.
  - reflexivity.
  - reflexivity.
  - reflexivity.
  - reflexivity.
  - reflexivity.
Defined.

(** C9 as stated fails: on the isometric sample map (tile size (64,32),
    tileset tile size (64,32), offset (0,0)) the sprite bound at tile (1,0)
    has pixel x = 32, not 64. *)
Lemma isometric_scenario_is_32_16 :
  let s' := moveTileSprite iso_layer 1 0 1 0 new_layer in
  exists t,
    tile_at (tiles s') 1 0 = Some 0%nat /\ sprites s' !! 0%nat = Some t /\
    (fst (Tile.position t) == 32)%Q /\ (snd (Tile.position t) == 16)%Q /\
    ~ (fst (Tile.position t) == 64)%Q.
Proof.
  cbv zeta. eexists. split; [by vm_compute|]. split; [by vm_compute|].
  split; [by vm_compute|]. split; [by vm_compute|].
  intros H. vm_compute in H. discriminate.
Qed.

Section Rebinding.

Variable L : Layer.
Implicit Types (s : TiledLayer) (cs : list move).

Lemma moves_tile_at_other cs s cx cy :
  (forall c, c ∈ cs -> ~ (cx = toX c /\ cy = toY c) /\ ~ (cx = fromX c /\ cy = fromY c)) ->
  tile_at (tiles (moves L cs s)) cx cy = tile_at (tiles s) cx cy.
Proof.
  revert s. induction cs as [|c cs IH]; intros s H; [done|].
  rewrite moves_cons, IH.
  - destruct (H c) as [Hto Hfrom]; [apply list_elem_of_here|].
    by apply move_tile_at_other.
  - intros c' Hc'. apply H. by apply list_elem_of_further.
Qed.

(** Moves that share no coordinate, each from a live coordinate to a
    resolving one, carry every sprite to its target past the pool. *)
Lemma moves_rebind cs s :
  NoDup cs ->
  (forall c c', c ∈ cs -> c' ∈ cs -> c <> c' -> apart c c') ->
  (forall c, c ∈ cs ->
     is_Some (tile_at (tiles s) (fromX c) (fromY c)) /\
     resolves L (toX c) (toY c) = true) ->
  _tilePool (moves L cs s) = _tilePool s /\
  children (moves L cs s) = children s /\
  forall c, c ∈ cs ->
    tile_at (tiles (moves L cs s)) (toX c) (toY c) =
    tile_at (tiles s) (fromX c) (fromY c).
Proof.
  revert s. induction cs as [|c cs IH]; intros s Hnd Hap Hlive.
  - split; [done|]. split; [done|]. intros c Hc. by apply elem_of_nil in Hc.
  - apply NoDup_cons in Hnd as [Hc Hnd].
    destruct (Hlive c) as [[n Hn] Hres]; [apply list_elem_of_here|].
    destruct (move_live_resolved L _ _ _ _ s n Hn Hres) as (Hp & Hch & Hto & _ & Hoth).
    fold (move_by L c s) in Hp, Hch, Hto, Hoth.
    assert (Hfar : forall c', c' ∈ cs -> apart c c').
    { intros c' Hc'. apply Hap; [apply list_elem_of_here|by apply list_elem_of_further|].
      intros ->. done. }
    assert (Hsame : forall c', c' ∈ cs ->
              tile_at (tiles (move_by L c s)) (fromX c') (fromY c') =
              tile_at (tiles s) (fromX c') (fromY c')).
    { intros c' Hc'. destruct (Hfar c' Hc') as (H1 & H2 & _). by apply Hoth. }
    destruct (IH (move_by L c s)) as (Hp' & Hch' & Hto').
    { done. }
    { intros c1 c2 H1 H2. apply Hap; by apply list_elem_of_further. }
    { intros c' Hc'. rewrite Hsame by done. apply Hlive. by apply list_elem_of_further. }
    rewrite moves_cons, Hp', Hch'. split; [done|]. split; [done|].
    intros c0 [->|Hc0]%elem_of_cons.
    + rewrite moves_tile_at_other; [congruence|].
      intros c' Hc'. destruct (Hfar c' Hc') as (_ & H2 & H3 & _).
      split; intros [? ?]; [apply H3|apply H2]; done.
    + rewrite Hto' by done. by apply Hsame.
Qed.

Lemma shift_moves e s :
  shift L e s =
  with_rendered (_rendered (shift L e s))
    (moves L (shift_move e (_rendered s) <$> seqZ 0 (shift_length e (_rendered s))) s).
Proof.
  destruct e; cbn [shift shift_move shift_length].
  - by rewrite _renderLeft_moves.
  - by rewrite _renderRight_moves.
  - by rewrite _renderUp_moves.
  - by rewrite _renderDown_moves.
Qed.

Lemma shift_moves_apart e r i j : i <> j -> apart (shift_move e r i) (shift_move e r j).
Proof. intros Hne. destruct e; cbn; unfold apart; cbn; repeat split; lia. Qed.

End Rebinding.

(** ** Further properties of the layer *)

Section PanClosedForm.

Variable L : Layer.
Implicit Types (s : TiledLayer).

Lemma quot_rem_signed a b q r :
  0 < b -> a = b * q + r -> - b < r < b ->
  (0 <= a -> 0 <= r) -> (a <= 0 -> r <= 0) ->
  q = Z.quot a b /\ r = Z.rem a b.
Proof.
  intros Hb Ha Hr Hpos Hneg.
  destruct (Z.le_ge_cases 0 a) as [H|H].
  - split.
    + apply (Z.quot_unique a b q r); lia.
    + apply (Z.rem_unique a b q r); lia.
  - assert (- q = Z.quot (- a) b /\ - r = Z.rem (- a) b) as [H1 H2].
    { split.
      + apply (Z.quot_unique (- a) b (- q) (- r)); lia.
      + apply (Z.rem_unique (- a) b (- q) (- r)); lia. }
    rewrite Z.quot_opp_l in H1 by lia. rewrite Z.rem_opp_l in H2 by lia. lia.
Qed.

Lemma pan_buffer_choice dx dy s :
  pan_buffer L dx dy s =
  match buffer_choice dx dy (_buffered s) with
  | Some ToLeft => _renderLeft L true (set_buffered_left s)
  | Some ToRight => _renderRight L true (set_buffered_right s)
  | Some ToUp => _renderUp L true (set_buffered_top s)
  | Some ToDown => _renderDown L true (set_buffered_bottom s)
  | None => s
  end.
Proof. unfold pan_buffer, buffer_choice. by repeat case_match. Qed.

(** The buffering step of [pan]: the chosen edge is marked and the
    rectangle grows by one column or row on that side. *)
Lemma pan_buffer_effect dx dy s :
  let c := buffer_choice dx dy (_buffered s) in
  let s' := pan_buffer L dx dy s in
  _buffered s' = mark c (_buffered s) /\
  Rect.x (_rendered s') = Rect.x (_rendered s) - toward ToLeft c /\
  Rect.y (_rendered s') = Rect.y (_rendered s) - toward ToUp c /\
  Rect.width (_rendered s') =
    Rect.width (_rendered s) + toward ToLeft c + toward ToRight c /\
  Rect.height (_rendered s') =
    Rect.height (_rendered s) + toward ToUp c + toward ToDown c.
Proof.
  cbv zeta. rewrite pan_buffer_choice.
  destruct (buffer_choice dx dy (_buffered s)) as [[]|].
  - rewrite _renderLeft_buffered, _renderLeft_rendered. cbn. repeat split; first [done | lia].
  - rewrite _renderRight_buffered, _renderRight_rendered. cbn. repeat split; first [done | lia].
  - rewrite _renderUp_buffered, _renderUp_rendered. cbn. repeat split; first [done | lia].
  - rewrite _renderDown_buffered, _renderDown_rendered. cbn. repeat split; first [done | lia].
  - cbn. destruct (_buffered s). repeat split; first [done | lia].
Qed.

(** What a whole [pan] call does to the accumulator, the rectangle and the
    flags. *)
Lemma pan_closed_form dx dy s :
  0 < scaledX L -> 0 < scaledY L ->
  exists s', pan L dx dy s = Some s' /\
    let a := Vec.x (_panDelta s) + dx in
    let b := Vec.y (_panDelta s) + dy in
    let c := buffer_choice dx dy (_buffered s) in
    Vec.x (_panDelta s') = Z.rem a (scaledX L) /\
    Vec.y (_panDelta s') = Z.rem b (scaledY L) /\
    Rect.x (_rendered s') =
      Rect.x (_rendered s) - toward ToLeft c - Z.quot a (scaledX L) /\
    Rect.y (_rendered s') =
      Rect.y (_rendered s) - toward ToUp c - Z.quot b (scaledY L) /\
    Rect.width (_rendered s') =
      Rect.width (_rendered s) + toward ToLeft c + toward ToRight c /\
    Rect.height (_rendered s') =
      Rect.height (_rendered s) + toward ToUp c + toward ToDown c /\
    _buffered s' = mark c (_buffered s).
Proof.
  intros Hsx Hsy.
  set (a := Vec.x (_panDelta s) + dx). set (b := Vec.y (_panDelta s) + dy).
  set (s0 := pan_buffer L dx dy (add_panDelta dx dy s)).
  assert (Hp0 : _panDelta s0 = Vec.mk a b) by (unfold s0; by rewrite pan_buffer_panDelta).
  destruct (pan_buffer_effect dx dy (add_panDelta dx dy s))
    as (Hb0 & Hx0 & Hy0 & Hw0 & Hh0).
  fold s0 in Hb0, Hx0, Hy0, Hw0, Hh0.
  rewrite add_panDelta_buffered in Hb0, Hx0, Hy0, Hw0, Hh0.
  rewrite add_panDelta_rendered in Hx0, Hy0, Hw0, Hh0.
  destruct (pan_spec L (fun t =>
    Vec.x (_panDelta t) - scaledX L * Rect.x (_rendered t) =
      a - scaledX L * Rect.x (_rendered s0) /\
    Vec.y (_panDelta t) - scaledY L * Rect.y (_rendered t) =
      b - scaledY L * Rect.y (_rendered s0) /\
    Rect.width (_rendered t) = Rect.width (_rendered s0) /\
    Rect.height (_rendered t) = Rect.height (_rendered s0) /\
    _buffered t = _buffered s0 /\
    (0 <= a -> 0 <= Vec.x (_panDelta t)) /\ (a <= 0 -> Vec.x (_panDelta t) <= 0) /\
    (0 <= b -> 0 <= Vec.y (_panDelta t)) /\ (b <= 0 -> Vec.y (_panDelta t) <= 0))
    dx dy s Hsx Hsy)
    as (s' & H & (Hx & Hy & Hw & Hh & Hb & Hxp & Hxn & Hyp & Hyn) & Hbx & Hby).
  - fold s0. rewrite Hp0. cbn [Vec.x Vec.y]. repeat split; first [done | lia].
  - intros t (Hx & Hy & Hw & Hh & Hb & Hxp & Hxn & Hyp & Hyn) Hc.
    rewrite add_panDelta_panDelta, add_panDelta_rendered, add_panDelta_buffered.
    rewrite _renderLeft_panDelta, _renderLeft_rendered, _renderLeft_buffered.
    cbn [Vec.x Vec.y rect_left rect_of grow Rect.x Rect.y Rect.width Rect.height].
    repeat split; first [done | lia].
  - intros t (Hx & Hy & Hw & Hh & Hb & Hxp & Hxn & Hyp & Hyn) Hc.
    rewrite add_panDelta_panDelta, add_panDelta_rendered, add_panDelta_buffered.
    rewrite _renderRight_panDelta, _renderRight_rendered, _renderRight_buffered.
    cbn [Vec.x Vec.y rect_right rect_of grow Rect.x Rect.y Rect.width Rect.height].
    repeat split; first [done | lia].
  - intros t (Hx & Hy & Hw & Hh & Hb & Hxp & Hxn & Hyp & Hyn) Hc.
    rewrite add_panDelta_panDelta, add_panDelta_rendered, add_panDelta_buffered.
    rewrite _renderUp_panDelta, _renderUp_rendered, _renderUp_buffered.
    cbn [Vec.x Vec.y rect_up rect_of grow Rect.x Rect.y Rect.width Rect.height].
    repeat split; first [done | lia].
  - intros t (Hx & Hy & Hw & Hh & Hb & Hxp & Hxn & Hyp & Hyn) Hc.
    rewrite add_panDelta_panDelta, add_panDelta_rendered, add_panDelta_buffered.
    rewrite _renderDown_panDelta, _renderDown_rendered, _renderDown_buffered.
    cbn [Vec.x Vec.y rect_down rect_of grow Rect.x Rect.y Rect.width Rect.height].
    repeat split; first [done | lia].
  - exists s'. split; [done|]. cbv zeta. fold a b.
    destruct (quot_rem_signed a (scaledX L)
                (Rect.x (_rendered s0) - Rect.x (_rendered s')) (Vec.x (_panDelta s')))
      as [Hq Hr]; [lia..|].
    destruct (quot_rem_signed b (scaledY L)
                (Rect.y (_rendered s0) - Rect.y (_rendered s')) (Vec.y (_panDelta s')))
      as [Hq' Hr']; [lia..|].
    rewrite <- Hr, <- Hr', <- Hq, <- Hq', Hw, Hh, Hb, Hw0, Hh0, Hb0.
    repeat split; first [done | lia].
Qed.

End PanClosedForm.

(** X1. A [pan] call on scaled tiles of positive size ends; it leaves in
    the accumulator the truncated remainder of the accumulated delta by
    the scaled tile size, and has moved the rectangle by the truncated
    quotient: to the left and up for a positive quotient, to the right and
    down for a negative one (besides the one column or row of an edge that
    the call pre-renders on the left or top). So pan(33,0) on 32-pixel
    tiles with an empty accumulator shifts once and leaves 1. *)
Theorem pan_quotient_and_remainder (L : Layer) (dx dy : Z) (s : TiledLayer) :
  0 < scaledX L -> 0 < scaledY L ->
  exists s', pan L dx dy s = Some s' /\
    Vec.x (_panDelta s') = Z.rem (Vec.x (_panDelta s) + dx) (scaledX L) /\
    Vec.y (_panDelta s') = Z.rem (Vec.y (_panDelta s) + dy) (scaledY L) /\
    Rect.x (_rendered s') =
      Rect.x (_rendered s) - toward ToLeft (buffer_choice dx dy (_buffered s))
      - Z.quot (Vec.x (_panDelta s) + dx) (scaledX L) /\
    Rect.y (_rendered s') =
      Rect.y (_rendered s) - toward ToUp (buffer_choice dx dy (_buffered s))
      - Z.quot (Vec.y (_panDelta s) + dy) (scaledY L) /\
    - scaledX L < Vec.x (_panDelta s') < scaledX L /\
    - scaledY L < Vec.y (_panDelta s') < scaledY L.
Proof.
  intros Hsx Hsy.
  destruct (pan_closed_form L dx dy s Hsx Hsy) as (s' & H & Hx & Hy & Hrx & Hry & _).
  exists s'. split; [done|]. do 4 (split; [done|]). rewrite Hx, Hy.
  pose proof (Z.rem_bound_abs (Vec.x (_panDelta s) + dx) (scaledX L)).
  pose proof (Z.rem_bound_abs (Vec.y (_panDelta s) + dy) (scaledY L)).
  lia.
Qed.

Lemma pan_quotient_and_remainder_witness :
  let L := full_layer 4 4 in
  let s := renderTiles L 0 0 2 2 new_layer in
  exists s', pan L 33 0 s = Some s' /\
    Vec.x (_panDelta s') = Z.rem (Vec.x (_panDelta s) + 33) (scaledX L) /\
    Vec.y (_panDelta s') = Z.rem (Vec.y (_panDelta s) + 0) (scaledY L) /\
    Rect.x (_rendered s') =
      Rect.x (_rendered s) - toward ToLeft (buffer_choice 33 0 (_buffered s))
      - Z.quot (Vec.x (_panDelta s) + 33) (scaledX L) /\
    Rect.y (_rendered s') =
      Rect.y (_rendered s) - toward ToUp (buffer_choice 33 0 (_buffered s))
      - Z.quot (Vec.y (_panDelta s) + 0) (scaledY L) /\
    - scaledX L < Vec.x (_panDelta s') < scaledX L /\
    - scaledY L < Vec.y (_panDelta s') < scaledY L.
Proof.
  apply (pan_quotient_and_remainder (full_layer 4 4) 33 0
           (renderTiles (full_layer 4 4) 0 0 2 2 new_layer)); reflexivity.
Defined.

Lemma buffer_choice_fresh dx dy b :
  match buffer_choice dx dy b with
  | Some ToLeft => 0 < dx /\ Buffered.left b = false
  | Some ToRight => dx < 0 /\ Buffered.right b = false
  | Some ToUp => 0 < dy /\ Buffered.top b = false
  | Some ToDown => dy < 0 /\ Buffered.bottom b = false
  | None => True
  end.
Proof.
  unfold buffer_choice.
  destruct (Z.ltb_spec 0 dx), (Buffered.left b); cbn [andb negb]; try done;
  destruct (Z.ltb_spec dx 0), (Buffered.right b); cbn [andb negb]; try done;
  destruct (Z.ltb_spec 0 dy), (Buffered.top b); cbn [andb negb]; try done;
  destruct (Z.ltb_spec dy 0), (Buffered.bottom b); cbn [andb negb]; done.
Qed.

(** X2. A [pan] call marks at most one more edge as buffered and never
    unmarks one. After it the left edge is buffered if dx > 0 and the right
    edge if dx < 0; the top (bottom) edge is buffered if dy > 0 (dy < 0)
    and no horizontal edge was taken by this call. A call that takes a
    horizontal edge leaves the vertical flags as they were, also when dy is
    not zero. *)
Theorem pan_marks_one_edge (L : Layer) (dx dy : Z) (s : TiledLayer) :
  0 < scaledX L -> 0 < scaledY L ->
  exists s', pan L dx dy s = Some s' /\
    _buffered s' = mark (buffer_choice dx dy (_buffered s)) (_buffered s) /\
    marks (_buffered s) <= marks (_buffered s') <= marks (_buffered s) + 1 /\
    (Buffered.left (_buffered s) = true -> Buffered.left (_buffered s') = true) /\
    (Buffered.right (_buffered s) = true -> Buffered.right (_buffered s') = true) /\
    (Buffered.top (_buffered s) = true -> Buffered.top (_buffered s') = true) /\
    (Buffered.bottom (_buffered s) = true -> Buffered.bottom (_buffered s') = true) /\
    (0 < dx -> Buffered.left (_buffered s') = true) /\
    (dx < 0 -> Buffered.right (_buffered s') = true) /\
    (0 < dx -> Buffered.left (_buffered s) = false ->
     Buffered.top (_buffered s') = Buffered.top (_buffered s) /\
     Buffered.bottom (_buffered s') = Buffered.bottom (_buffered s)) /\
    (dx < 0 -> Buffered.right (_buffered s) = false ->
     Buffered.top (_buffered s') = Buffered.top (_buffered s) /\
     Buffered.bottom (_buffered s') = Buffered.bottom (_buffered s)).
Proof.
  intros Hsx Hsy.
  destruct (pan_closed_form L dx dy s Hsx Hsy) as (s' & H & _ & _ & _ & _ & _ & _ & Hb).
  exists s'. split; [done|]. split; [done|]. rewrite Hb. clear Hb H.
  pose proof (buffer_choice_fresh dx dy (_buffered s)) as Hc.
  unfold marks, buffer_choice in *.
  destruct (_buffered s) as [l r t b]. cbn [Buffered.left Buffered.right Buffered.top
    Buffered.bottom] in *.
  destruct (Z.ltb_spec 0 dx), (Z.ltb_spec dx 0), (Z.ltb_spec 0 dy), (Z.ltb_spec dy 0),
    l, r, t, b; cbn in *; repeat split; intros; first [done | lia].
Qed.

Lemma pan_marks_one_edge_witness :
  let L := full_layer 4 4 in
  let s := renderTiles L 0 0 2 2 new_layer in
  exists s', pan L 5 7 s = Some s' /\
    _buffered s' = mark (buffer_choice 5 7 (_buffered s)) (_buffered s) /\
    marks (_buffered s) <= marks (_buffered s') <= marks (_buffered s) + 1 /\
    (Buffered.left (_buffered s) = true -> Buffered.left (_buffered s') = true) /\
    (Buffered.right (_buffered s) = true -> Buffered.right (_buffered s') = true) /\
    (Buffered.top (_buffered s) = true -> Buffered.top (_buffered s') = true) /\
    (Buffered.bottom (_buffered s) = true -> Buffered.bottom (_buffered s') = true) /\
    (0 < 5 -> Buffered.left (_buffered s') = true) /\
    (5 < 0 -> Buffered.right (_buffered s') = true) /\
    (0 < 5 -> Buffered.left (_buffered s) = false ->
     Buffered.top (_buffered s') = Buffered.top (_buffered s) /\
     Buffered.bottom (_buffered s') = Buffered.bottom (_buffered s)) /\
    (5 < 0 -> Buffered.right (_buffered s) = false ->
     Buffered.top (_buffered s') = Buffered.top (_buffered s) /\
     Buffered.bottom (_buffered s') = Buffered.bottom (_buffered s)).
Proof.
  apply (pan_marks_one_edge (full_layer 4 4) 5 7
           (renderTiles (full_layer 4 4) 0 0 2 2 new_layer)); reflexivity.
Defined.

(** What a sequence of pans keeps: the pixels panned are all accounted for
    by whole-tile moves of the rectangle and the accumulator, and the
    rectangle has its size plus one column or row per buffered edge. *)
Lemma pans_closed_form (L : Layer) (ds : list (Z * Z)) (s : TiledLayer) :
  0 < scaledX L -> 0 < scaledY L ->
  exists s', pans L ds s = Some s' /\
    scaledX L * (Rect.x (_rendered s') + Z.b2z (Buffered.left (_buffered s')))
      - Vec.x (_panDelta s') =
    scaledX L * (Rect.x (_rendered s) + Z.b2z (Buffered.left (_buffered s)))
      - Vec.x (_panDelta s) - total_dx ds /\
    scaledY L * (Rect.y (_rendered s') + Z.b2z (Buffered.top (_buffered s')))
      - Vec.y (_panDelta s') =
    scaledY L * (Rect.y (_rendered s) + Z.b2z (Buffered.top (_buffered s)))
      - Vec.y (_panDelta s) - total_dy ds /\
    Rect.width (_rendered s') - Z.b2z (Buffered.left (_buffered s'))
      - Z.b2z (Buffered.right (_buffered s')) =
    Rect.width (_rendered s) - Z.b2z (Buffered.left (_buffered s))
      - Z.b2z (Buffered.right (_buffered s)) /\
    Rect.height (_rendered s') - Z.b2z (Buffered.top (_buffered s'))
      - Z.b2z (Buffered.bottom (_buffered s')) =
    Rect.height (_rendered s) - Z.b2z (Buffered.top (_buffered s))
      - Z.b2z (Buffered.bottom (_buffered s)).
Proof.
  intros Hsx Hsy. revert s. induction ds as [|[dx dy] ds IH]; intros s.
  - exists s. cbn. repeat split; lia.
  - destruct (pan_closed_form L dx dy s Hsx Hsy)
      as (s1 & H1 & Hx & Hy & Hrx & Hry & Hw & Hh & Hb).
    destruct (IH s1) as (s' & H & Ex & Ey & Ew & Eh).
    exists s'. split; [cbn; by rewrite H1|].
    rewrite Ex, Ey, Ew, Eh, Hx, Hy, Hrx, Hry, Hw, Hh, Hb.
    pose proof (Z.quot_rem' (Vec.x (_panDelta s) + dx) (scaledX L)).
    pose proof (Z.quot_rem' (Vec.y (_panDelta s) + dy) (scaledY L)).
    pose proof (buffer_choice_fresh dx dy (_buffered s)) as Hc.
    unfold total_dx, total_dy. cbn [fmap list_fmap foldr fst snd].
    destruct (buffer_choice dx dy (_buffered s)) as [[]|];
      destruct (_buffered s) as [l r t b];
      cbn [mark toward Buffered.left Buffered.right Buffered.top Buffered.bottom] in *;
      match type of Hc with
      | _ /\ _ => destruct Hc as [_ ->]
      | _ => clear Hc
      end; cbn [Z.b2z]; repeat split; lia.
Qed.

Section TidyFacts.

Variable L : Layer.
Implicit Types (s : TiledLayer) (cs : list move).

Lemma conserved_NoDup s : conserved s -> NoDup (live_nodes (tiles s) ++ _tilePool s).
Proof. intros [Hch Hperm]. rewrite Hperm, Hch. apply NoDup_seq. Qed.

(** A sprite is stored under one coordinate at most. *)
Lemma live_unique t x1 y1 x2 y2 n :
  NoDup (live_nodes t) -> tile_at t x1 y1 = Some n -> tile_at t x2 y2 = Some n ->
  x2 = x1 /\ y2 = y1.
Proof.
  intros Hnd H1 H2. destruct (decide (x2 = x1 /\ y2 = y1)) as [|Hne]; [done|].
  exfalso. rewrite (live_nodes_put_None _ _ _ _ H1) in Hnd.
  apply NoDup_cons in Hnd as [Hn _]. apply Hn.
  apply (tile_at_live _ x2 y2). by rewrite tile_at_put_ne.
Qed.

Lemma binding_visible set x y t0 : Tile.visible (binding L set x y t0) = true.
Proof. unfold binding, bind_tile. by repeat case_match. Qed.

Lemma move_tidy fx fy tx ty s :
  conserved s ->
  tile_at (tiles s) tx ty = None \/ (tx = fx /\ ty = fy) ->
  tidy L s -> tidy L (moveTileSprite L fx fy tx ty s).
Proof.
  intros Hc Hto [Hshow Hpool].
  pose proof (conserved_NoDup s Hc) as Hnd.
  assert (Hlive : NoDup (live_nodes (tiles s))) by by apply NoDup_app in Hnd as (? & _).
  assert (Hsprite : forall n, n ∈ live_nodes (tiles s) ++ _tilePool s ->
                      is_Some (sprites s !! n)) by (intros; by apply conserved_sprite).
  assert (Hapart : forall n m, n ∈ live_nodes (tiles s) -> m ∈ _tilePool s -> n <> m).
  { intros n m Hn Hm ->. apply NoDup_app in Hnd as (_ & Hd & _). by apply (Hd m). }
  destruct (Map.getTileset (parent L) (tileId_at L (tx + ty * Vec.x (size L))))
    as [set|] eqn:Hr.
  - destruct (tile_at (tiles s) fx fy) as [n|] eqn:Hf;
      [|destruct (_tilePool s) as [|n p] eqn:Hp].
    + rewrite (move_resolved_live L fx fy tx ty s n set Hr Hf). cbn. split.
      * intros cx cy m Hm. cbn in Hm.
        destruct (decide (cx = tx /\ cy = ty)) as [[-> ->]|Hne].
        -- rewrite tile_at_place_eq in Hm. injection Hm as <-.
           destruct (Hsprite n) as [t0 Ht0].
           { apply elem_of_app. left. by eapply tile_at_live. }
           exists set, t0. split; [done|]. cbn. by rewrite list_lookup_alter_eq, Ht0.
        -- rewrite tile_at_place_ne in Hm by done.
           destruct (decide (cx = fx /\ cy = fy)) as [[-> ->]|Hne'].
           { rewrite tile_at_put_eq in Hm; [done|].
             apply tile_at_row in Hf as (row & -> & _). eauto. }
           rewrite tile_at_put_ne in Hm by done.
           destruct (Hshow cx cy m Hm) as (set' & t0 & Hset' & Ht0).
           exists set', t0. split; [done|]. cbn.
           rewrite list_lookup_alter_ne; [done|]. intros ->.
           apply Hne'. by apply (live_unique (tiles s) fx fy cx cy m).
      * intros m Hm. cbn in Hm. destruct (Hpool m Hm) as (t & Ht & Hv).
        exists t. split; [|done]. cbn. rewrite list_lookup_alter_ne; [done|].
        apply Hapart; [by eapply tile_at_live|done].
    + rewrite (move_resolved_new L fx fy tx ty s set Hr Hf Hp). cbn. split.
      * intros cx cy m Hm. cbn in Hm.
        destruct (decide (cx = tx /\ cy = ty)) as [[-> ->]|Hne].
        -- rewrite tile_at_place_eq in Hm. injection Hm as <-.
           eexists set, _. split; [done|]. cbn. rewrite list_lookup_alter_eq.
           by rewrite lookup_app_r, Nat.sub_diag.
        -- rewrite tile_at_place_ne in Hm by done.
           destruct (Hshow cx cy m Hm) as (set' & t0 & Hset' & Ht0).
           exists set', t0. split; [done|]. cbn.
           rewrite list_lookup_alter_ne.
           ++ rewrite lookup_app_l; [done|]. by apply lookup_lt_Some in Ht0.
           ++ intros <-. apply lookup_lt_Some in Ht0. lia.
      * intros m Hm. cbn in Hm. rewrite Hp in Hm. by apply elem_of_nil in Hm.
    + assert (Hn : n ∈ n :: p) by apply list_elem_of_here.
      rewrite (move_resolved_pool L fx fy tx ty s n p set Hr Hf Hp). cbn. split.
      * intros cx cy m Hm. cbn in Hm.
        destruct (decide (cx = tx /\ cy = ty)) as [[-> ->]|Hne].
        -- rewrite tile_at_place_eq in Hm. injection Hm as <-.
           destruct (Hsprite n) as [t0 Ht0]; [apply elem_of_app; by right|].
           exists set, t0. split; [done|]. cbn. by rewrite list_lookup_alter_eq, Ht0.
        -- rewrite tile_at_place_ne in Hm by done.
           destruct (Hshow cx cy m Hm) as (set' & t0 & Hset' & Ht0).
           exists set', t0. split; [done|]. cbn.
           rewrite list_lookup_alter_ne; [done|].
           intros ->. apply (Hapart m m); [by eapply tile_at_live|done|done].
      * intros m Hm. cbn in Hm.
        destruct (Hpool m) as (t & Ht & Hv); [rewrite Hp; by apply list_elem_of_further|].
        exists t. split; [|done]. cbn. rewrite list_lookup_alter_ne; [done|].
        intros ->. apply NoDup_app in Hnd as (_ & _ & Hpnd).
        by apply NoDup_cons in Hpnd as [? _].
  - apply resolves_false in Hr.
    destruct (tile_at (tiles s) fx fy) as [n|] eqn:Hf.
    + rewrite (move_unresolved_live L fx fy tx ty s n Hr Hf). cbn. split.
      * intros cx cy m Hm. cbn in Hm.
        destruct (decide (cx = fx /\ cy = fy)) as [[-> ->]|Hne'].
        { rewrite tile_at_put_eq in Hm; [done|].
          apply tile_at_row in Hf as (row & -> & _). eauto. }
        rewrite tile_at_put_ne in Hm by done.
        destruct (Hshow cx cy m Hm) as (set' & t0 & Hset' & Ht0).
        exists set', t0. split; [done|]. cbn.
        rewrite list_lookup_alter_ne; [done|]. intros ->.
        apply Hne'. by apply (live_unique (tiles s) fx fy cx cy m).
      * intros m Hm. cbn in Hm. cbn. destruct (decide (m = n)) as [->|Hne].
        -- destruct (Hsprite n) as [t0 Ht0].
           { apply elem_of_app. left. by eapply tile_at_live. }
           exists (Tile.setVisible false t0). by rewrite list_lookup_alter_eq, Ht0.
        -- apply elem_of_cons in Hm as [?|Hm]; [done|].
           destruct (Hpool m Hm) as (t & Ht & Hv).
           exists t. by rewrite list_lookup_alter_ne.
    + by rewrite (move_unresolved_free L fx fy tx ty s Hr Hf).
Qed.

Lemma moves_tidy cs s :
  conserved s -> NoDup (target <$> cs) ->
  (forall c, c ∈ cs -> tile_at (tiles s) (toX c) (toY c) = None) ->
  tidy L s -> tidy L (moves L cs s).
Proof.
  revert s. induction cs as [|c cs IH]; intros s Hc Hnd Hfree Ht; [done|].
  rewrite fmap_cons in Hnd. apply NoDup_cons in Hnd as [Hc' Hnd].
  assert (Hc0 : tile_at (tiles s) (toX c) (toY c) = None) by apply Hfree, list_elem_of_here.
  rewrite moves_cons. apply IH; [| done | |].
  - apply move_conserved; [done|by left].
  - intros c' Hin.
    destruct (tile_at (tiles (move_by L c s)) (toX c') (toY c')) as [n|] eqn:E; [|done].
    apply move_tile_at in E as [[Hx Hy]|[_ E]].
    + exfalso. apply Hc'. apply list_elem_of_fmap. exists c'. split; [|done].
      unfold target. congruence.
    + rewrite Hfree in E; [done|]. by apply list_elem_of_further.
  - apply move_tidy; [done|by left|done].
Qed.

End TidyFacts.

Section TidyRenders.

Variable L : Layer.
Implicit Types (s : TiledLayer) (f : bool).

Lemma tidy_with_rendered r s : tidy L (with_rendered r s) <-> tidy L s.
Proof. done. Qed.

Lemma tidy_renderLeft f s : steady s -> tidy L s -> tidy L (_renderLeft L f s).
Proof.
  intros (((El & Er & Et & Eb) & [Hw Hh] & Hcont) & Hcons & _) Ht.
  rewrite _renderLeft_moves. apply tidy_with_rendered, moves_tidy; [done| | |done].
  - apply NoDup_loop_targets. intros i j [= H]. lia.
  - intros c (i & Hi & ->)%elem_of_loop. cbn.
    apply contained_free; [done|]. unfold in_window. lia.
Qed.

Lemma tidy_renderRight f s : steady s -> tidy L s -> tidy L (_renderRight L f s).
Proof.
  intros (((El & Er & Et & Eb) & [Hw Hh] & Hcont) & Hcons & _) Ht.
  rewrite _renderRight_moves. apply tidy_with_rendered, moves_tidy; [done| | |done].
  - apply NoDup_loop_targets. intros i j [= H]. lia.
  - intros c (i & Hi & ->)%elem_of_loop. cbn.
    apply contained_free; [done|]. unfold in_window. lia.
Qed.

Lemma tidy_renderUp f s : steady s -> tidy L s -> tidy L (_renderUp L f s).
Proof.
  intros (((El & Er & Et & Eb) & [Hw Hh] & Hcont) & Hcons & _) Ht.
  rewrite _renderUp_moves. apply tidy_with_rendered, moves_tidy; [done| | |done].
  - apply NoDup_loop_targets. intros i j [= H]. lia.
  - intros c (i & Hi & ->)%elem_of_loop. cbn.
    apply contained_free; [done|]. unfold in_window. lia.
Qed.

Lemma tidy_renderDown f s : steady s -> tidy L s -> tidy L (_renderDown L f s).
Proof.
  intros (((El & Er & Et & Eb) & [Hw Hh] & Hcont) & Hcons & _) Ht.
  rewrite _renderDown_moves. apply tidy_with_rendered, moves_tidy; [done| | |done].
  - apply NoDup_loop_targets. intros i j [= H]. lia.
  - intros c (i & Hi & ->)%elem_of_loop. cbn.
    apply contained_free; [done|]. unfold in_window. lia.
Qed.

Lemma steady_tidy_stable : pan_stable L (fun s => steady s /\ tidy L s).
Proof.
  split; try done.
  - intros f s [Hs Ht]. split; [by apply steady_renderLeft|by apply tidy_renderLeft].
  - intros f s [Hs Ht]. split; [by apply steady_renderRight|by apply tidy_renderRight].
  - intros f s [Hs Ht]. split; [by apply steady_renderUp|by apply tidy_renderUp].
  - intros f s [Hs Ht]. split; [by apply steady_renderDown|by apply tidy_renderDown].
Qed.

Lemma clearTiles_tidy s :
  wf_tiles (tiles s) -> conserved s -> pool_hidden s -> tidy L (clearTiles s).
Proof.
  intros Hwf Hc Hpool. split.
  - intros cx cy n H. by rewrite clearTiles_tile_at in H.
  - intros n Hn.
    destruct (clearTiles_spec s Hwf) as (_ & _ & Hperm & _).
    destruct (clearing_clearTiles s Hwf) as (_ & _ & _ & _ & _ & _ & _ & Hsp1 & Hsp2).
    rewrite Hperm in Hn. apply elem_of_app in Hn as [Hn|Hn].
    + destruct (conserved_sprite s n Hc) as [t Ht]; [apply elem_of_app; by left|].
      apply elem_of_live_nodes in Hn as (x & y & Hxy); [|done].
      destruct (Hsp2 x y n Hxy) as [H|H]; [by rewrite clearTiles_tile_at in H|].
      exists (freed t). by rewrite H, Ht.
    + destruct (Hpool n Hn) as (t & Ht & Hv).
      destruct (Hsp1 n) as [H|H]; rewrite H, Ht; [by exists t|by exists (freed t)].
Qed.

Lemma renderTiles_tidy startX startY numX numY s :
  wf_tiles (tiles s) -> conserved s -> pool_hidden s ->
  tidy L (renderTiles L startX startY numX numY s).
Proof.
  intros Hwf Hc Hpool. rewrite renderTiles_moves. cbv zeta.
  set (cs := window_moves _ _ _ _).
  change (tidy L (moves L cs (clearTiles s))).
  apply moves_tidy.
  - by apply clearTiles_conserved.
  - apply NoDup_window_targets.
  - intros c _. apply clearTiles_tile_at.
  - by apply clearTiles_tidy.
Qed.

(** After [renderTiles] on a rectangle with a column and a row, and any
    pans, the layer is conserved, contained and tidy. *)
Lemma pans_tidy startX startY numX numY ds s :
  wf_tiles (tiles s) -> conserved s -> pool_hidden s ->
  0 < scaledX L -> 0 < scaledY L ->
  positive (_rendered (renderTiles L startX startY numX numY s)) ->
  exists s', pans L ds (renderTiles L startX startY numX numY s) = Some s' /\
             steady s' /\ tidy L s'.
Proof.
  intros Hwf Hc Hpool Hsx Hsy Hpos.
  apply (pans_keep L (fun s => steady s /\ tidy L s)); [apply steady_tidy_stable|done..|].
  split; [by apply renderTiles_steady|by apply renderTiles_tidy].
Qed.

End TidyRenders.

(** X3. Whatever sequence of pans is made (scaled tiles of positive size),
    no pixel is lost or counted twice: the scaled tile width times the
    column of the rectangle's unbuffered left edge, minus the accumulator,
    goes down by exactly the sum of the horizontal deltas; likewise for the
    rows, the top edge and the vertical deltas. *)
Theorem pans_account_for_every_pixel (L : Layer) (ds : list (Z * Z)) (s : TiledLayer) :
  0 < scaledX L -> 0 < scaledY L ->
  exists s', pans L ds s = Some s' /\
    scaledX L * (Rect.x (_rendered s') + Z.b2z (Buffered.left (_buffered s')))
      - Vec.x (_panDelta s') =
    scaledX L * (Rect.x (_rendered s) + Z.b2z (Buffered.left (_buffered s)))
      - Vec.x (_panDelta s) - total_dx ds /\
    scaledY L * (Rect.y (_rendered s') + Z.b2z (Buffered.top (_buffered s')))
      - Vec.y (_panDelta s') =
    scaledY L * (Rect.y (_rendered s) + Z.b2z (Buffered.top (_buffered s)))
      - Vec.y (_panDelta s) - total_dy ds.
Proof.
  intros Hsx Hsy.
  destruct (pans_closed_form L ds s Hsx Hsy) as (s' & H & Hx & Hy & _).
  by exists s'.
Qed.

Lemma pans_account_for_every_pixel_witness :
  let L := full_layer 4 4 in
  let s := renderTiles L 0 0 2 2 new_layer in
  let ds := [(33, 5); (-70, 40); (3, -100)] in
  exists s', pans L ds s = Some s' /\
    scaledX L * (Rect.x (_rendered s') + Z.b2z (Buffered.left (_buffered s')))
      - Vec.x (_panDelta s') =
    scaledX L * (Rect.x (_rendered s) + Z.b2z (Buffered.left (_buffered s)))
      - Vec.x (_panDelta s) - total_dx ds /\
    scaledY L * (Rect.y (_rendered s') + Z.b2z (Buffered.top (_buffered s')))
      - Vec.y (_panDelta s') =
    scaledY L * (Rect.y (_rendered s) + Z.b2z (Buffered.top (_buffered s)))
      - Vec.y (_panDelta s) - total_dy ds.
Proof.
  apply (pans_account_for_every_pixel (full_layer 4 4) [(33, 5); (-70, 40); (3, -100)]
           (renderTiles (full_layer 4 4) 0 0 2 2 new_layer)); reflexivity.
Defined.

(** X4. After [renderTiles] and any sequence of pans the rectangle is as
    wide as [renderTiles] made it plus one column for each of the left and
    right edges that is buffered, and as high plus one row for each of the
    top and bottom edges that is buffered: shifts never change its size,
    which stays within two of the rendered one. *)
Theorem pans_keep_window_size (L : Layer) (startX startY numX numY : Z)
    (ds : list (Z * Z)) (s0 : TiledLayer) :
  0 < scaledX L -> 0 < scaledY L ->
  let s1 := renderTiles L startX startY numX numY s0 in
  exists s', pans L ds s1 = Some s' /\
    Rect.width (_rendered s') =
      Rect.width (_rendered s1) + Z.b2z (Buffered.left (_buffered s'))
      + Z.b2z (Buffered.right (_buffered s')) /\
    Rect.height (_rendered s') =
      Rect.height (_rendered s1) + Z.b2z (Buffered.top (_buffered s'))
      + Z.b2z (Buffered.bottom (_buffered s')) /\
    Rect.width (_rendered s1) <= Rect.width (_rendered s') <= Rect.width (_rendered s1) + 2 /\
    Rect.height (_rendered s1) <= Rect.height (_rendered s') <= Rect.height (_rendered s1) + 2.
Proof.
  intros Hsx Hsy s1.
  destruct (pans_closed_form L ds s1 Hsx Hsy) as (s' & H & _ & _ & Hw & Hh).
  exists s'. split; [done|].
  assert (Hb : _buffered s1 = Buffered.mk false false false false)
    by (unfold s1; by rewrite renderTiles_moves).
  rewrite Hb in Hw, Hh. cbn [Buffered.left Buffered.right Buffered.top Buffered.bottom Z.b2z] in *.
  destruct (_buffered s') as [[] [] [] []]; cbn [Buffered.left Buffered.right
    Buffered.top Buffered.bottom Z.b2z] in *; repeat split; lia.
Qed.

Lemma pans_keep_window_size_witness :
  let L := full_layer 4 4 in
  let s1 := renderTiles L 0 0 2 2 new_layer in
  exists s', pans L [(33, 5); (-70, 40)] s1 = Some s' /\
    Rect.width (_rendered s') =
      Rect.width (_rendered s1) + Z.b2z (Buffered.left (_buffered s'))
      + Z.b2z (Buffered.right (_buffered s')) /\
    Rect.height (_rendered s') =
      Rect.height (_rendered s1) + Z.b2z (Buffered.top (_buffered s'))
      + Z.b2z (Buffered.bottom (_buffered s')) /\
    Rect.width (_rendered s1) <= Rect.width (_rendered s') <= Rect.width (_rendered s1) + 2 /\
    Rect.height (_rendered s1) <= Rect.height (_rendered s') <= Rect.height (_rendered s1) + 2.
Proof.
  apply (pans_keep_window_size (full_layer 4 4) 0 0 2 2 [(33, 5); (-70, 40)] new_layer);
    reflexivity.
Defined.

Lemma binding_texture L set x y t0 :
  Tile.texture (binding L set x y t0) =
  Tileset.getTileTexture set (tileId_at L (x + y * Vec.x (size L))).
Proof. unfold binding, bind_tile. by repeat case_match. Qed.

Lemma binding_interactive L set x y t0 :
  Tile.interactive (binding L set x y t0) =
  _getInteractive L (Some set)
    (Tileset.getTileProperties set (tileId_at L (x + y * Vec.x (size L)))).
Proof. unfold binding, bind_tile. by repeat case_match. Qed.

(** X5. After [renderTiles] (on a conserved layer whose pooled sprites are
    hidden, for a rectangle with a column and a row) and any sequence of
    pans, every live sprite shows the tile of the coordinate it is stored
    under: that tile id has a tileset, and the sprite is visible and has
    the texture, the pixel position and the interactive flag computed for
    that coordinate. *)
Theorem live_sprites_show_their_tile (L : Layer) (startX startY numX numY : Z)
    (ds : list (Z * Z)) (s0 : TiledLayer) :
  wf_tiles (tiles s0) -> conserved s0 -> pool_hidden s0 ->
  0 < scaledX L -> 0 < scaledY L ->
  positive (_rendered (renderTiles L startX startY numX numY s0)) ->
  exists s', pans L ds (renderTiles L startX startY numX numY s0) = Some s' /\
    forall cx cy n, tile_at (tiles s') cx cy = Some n ->
      exists set t,
        Map.getTileset (parent L) (tileId_at L (cx + cy * Vec.x (size L))) = Some set /\
        sprites s' !! n = Some t /\
        Tile.visible t = true /\
        Tile.texture t =
          Tileset.getTileTexture set (tileId_at L (cx + cy * Vec.x (size L))) /\
        Tile.position t = tile_position L set cx cy /\
        Tile.interactive t =
          _getInteractive L (Some set)
            (Tileset.getTileProperties set (tileId_at L (cx + cy * Vec.x (size L)))).
Proof.
  intros Hwf Hc Hpool Hsx Hsy Hpos.
  destruct (pans_tidy L startX startY numX numY ds s0) as (s' & H & _ & Hshow & _);
    [done..|].
  exists s'. split; [done|]. intros cx cy n Hn.
  destruct (Hshow cx cy n Hn) as (set & t0 & Hset & Ht).
  exists set, (binding L set cx cy t0). split; [done|]. split; [done|].
  split; [apply binding_visible|]. split; [apply binding_texture|].
  split; [apply binding_position|apply binding_interactive].
Qed.

Lemma new_layer_pool_hidden : pool_hidden new_layer.
Proof. intros n Hn. by apply elem_of_nil in Hn. Qed.

Lemma live_sprites_show_their_tile_witness :
  let L := full_layer 4 4 in
  exists s', pans L [(33, 5); (-70, 40)] (renderTiles L 0 0 2 2 new_layer) = Some s' /\
    forall cx cy n, tile_at (tiles s') cx cy = Some n ->
      exists set t,
        Map.getTileset (parent L) (tileId_at L (cx + cy * Vec.x (size L))) = Some set /\
        sprites s' !! n = Some t /\
        Tile.visible t = true /\
        Tile.texture t =
          Tileset.getTileTexture set (tileId_at L (cx + cy * Vec.x (size L))) /\
        Tile.position t = tile_position L set cx cy /\
        Tile.interactive t =
          _getInteractive L (Some set)
            (Tileset.getTileProperties set (tileId_at L (cx + cy * Vec.x (size L)))).
Proof.
  apply (live_sprites_show_their_tile (full_layer 4 4) 0 0 2 2 [(33, 5); (-70, 40)] new_layer).
  - apply new_layer_conserved.
  - apply new_layer_conserved.
  - apply new_layer_pool_hidden.
  - reflexivity.
  - reflexivity.
  - split; reflexivity.
Defined.

(** X6. After [renderTiles] (on a conserved layer whose pooled sprites are
    hidden, for a rectangle with a column and a row) and any sequence of
    pans, every pooled sprite is hidden: a sprite waiting in the pool is
    never visible. *)
Theorem pooled_sprites_are_hidden (L : Layer) (startX startY numX numY : Z)
    (ds : list (Z * Z)) (s0 : TiledLayer) :
  wf_tiles (tiles s0) -> conserved s0 -> pool_hidden s0 ->
  0 < scaledX L -> 0 < scaledY L ->
  positive (_rendered (renderTiles L startX startY numX numY s0)) ->
  exists s', pans L ds (renderTiles L startX startY numX numY s0) = Some s' /\
    forall n, n ∈ _tilePool s' ->
      exists t, sprites s' !! n = Some t /\ Tile.visible t = false.
Proof.
  intros Hwf Hc Hpool Hsx Hsy Hpos.
  destruct (pans_tidy L startX startY numX numY ds s0) as (s' & H & _ & _ & Hp);
    [done..|].
  by exists s'.
Qed.

Lemma pooled_sprites_are_hidden_witness :
  let L := solid_layer in
  exists s', pans L [(33, 5); (-70, 40)] (renderTiles L 0 0 2 1 new_layer) = Some s' /\
    forall n, n ∈ _tilePool s' ->
      exists t, sprites s' !! n = Some t /\ Tile.visible t = false.
Proof.
  apply (pooled_sprites_are_hidden solid_layer 0 0 2 1 [(33, 5); (-70, 40)] new_layer).
  - apply new_layer_conserved.
  - apply new_layer_conserved.
  - apply new_layer_pool_hidden.
  - reflexivity.
  - reflexivity.
  - split; reflexivity.
Defined.

Section MoreRenderFacts.

Variable L : Layer.
Implicit Types (s : TiledLayer).

Lemma elem_of_window_targets x0 y0 w h cx cy :
  (cx, cy) ∈ target <$> window_moves x0 y0 w h <->
  x0 <= cx < x0 + w /\ y0 <= cy < y0 + h.
Proof.
  rewrite list_elem_of_fmap. split.
  - intros (c & Heq & (x & y & Hx & Hy & ->)%elem_of_window_moves).
    injection Heq as -> ->. done.
  - intros [Hx Hy]. exists (mkMove cx cy cx cy). split; [done|].
    apply elem_of_window_moves. by exists cx, cy.
Qed.

Lemma renderTiles_occupied startX startY numX numY s cx cy :
  occupied (renderTiles L startX startY numX numY s) cx cy =
  if decide (in_window (_rendered (renderTiles L startX startY numX numY s)) cx cy)
  then resolves L cx cy else false.
Proof.
  rewrite renderTiles_rendered.
  set (cs := window_moves (clamp_start startX) (clamp_start startY)
     (clamp_end startX numX (Vec.x (Map.size (parent L))) - clamp_start startX)
     (clamp_end startY numY (Vec.y (Map.size (parent L))) - clamp_start startY)).
  assert (Hocc : occupied (renderTiles L startX startY numX numY s) cx cy =
                 occupied (moves L cs (clearTiles s)) cx cy)
    by (by rewrite renderTiles_moves).
  rewrite Hocc.
  destruct (moves_fresh_counts L cs) as [k Hk].
  { intros c (x & y & _ & _ & ->)%elem_of_window_moves. done. }
  { apply NoDup_window_targets. }
  destruct (Hk (clearTiles s)) as (_ & _ & Ho).
  { intros c _. apply clearTiles_tile_at. }
  rewrite Ho.
  unfold occupied at 1. rewrite clearTiles_tile_at.
  destruct (decide ((cx, cy) ∈ target <$> cs)) as [Hin|Hout];
    destruct (decide _) as [Hw|Hw]; try done.
  - destruct Hw. unfold cs in Hin. apply elem_of_window_targets in Hin.
    unfold in_window. cbn. lia.
  - destruct Hout. unfold cs. apply elem_of_window_targets.
    unfold in_window in Hw. cbn in Hw. lia.
Qed.

End MoreRenderFacts.

(** X7. Right after [renderTiles] the live grid is exact: a coordinate
    holds a sprite if and only if it lies in the rendered rectangle and its
    tile id has a tileset. Whatever was live before is gone. *)
Theorem renderTiles_occupies_exactly (L : Layer) (startX startY numX numY : Z)
    (s : TiledLayer) (cx cy : Z) :
  occupied (renderTiles L startX startY numX numY s) cx cy = true <->
  in_window (_rendered (renderTiles L startX startY numX numY s)) cx cy /\
  resolves L cx cy = true.
Proof.
  rewrite renderTiles_occupied. destruct (decide _) as [Hin|Hout].
  - split; [done|]. by intros [_ ?].
  - split; [done|]. by intros [? _].
Qed.

(** X8. [renderTiles] reuses before it creates: on a conserved layer the
    sprites created so far are kept, in order, and after the call their
    number is the larger of what it was and the number of live nodes the
    call leaves; new sprites are created only when the resolving
    coordinates outnumber the sprites that exist. *)
Theorem renderTiles_reuses_sprites (L : Layer) (startX startY numX numY : Z)
    (s : TiledLayer) :
  wf_tiles (tiles s) -> conserved s ->
  let s' := renderTiles L startX startY numX numY s in
  length (children s') =
    Nat.max (length (children s)) (length (live_nodes (tiles s'))) /\
  children s `prefix_of` children s'.
Proof.
  intros Hwf Hc s'.
  destruct (renderTiles_counts L startX startY numX numY) as [k Hk].
  destruct (Hk s Hwf) as (Hp & Hl & _). fold s' in Hp, Hl.
  pose proof (renderTiles_conserved L startX startY numX numY s Hwf Hc) as Hc'.
  fold s' in Hc'.
  destruct (conserved_exactly_one s Hc) as (_ & _ & Hlen).
  destruct (conserved_exactly_one s' Hc') as (_ & _ & Hlen').
  assert (Hn : length (children s') =
               Nat.max (length (children s)) (length (live_nodes (tiles s')))) by lia.
  split; [done|].
  destruct Hc as [Hch _], Hc' as [Hch' _]. rewrite Hch, Hch'.
  rewrite Hch, Hch', !length_seq in Hn.
  exists (seq (length (sprites s)) (length (sprites s') - length (sprites s))).
  rewrite <- seq_app. f_equal. lia.
Qed.

Lemma renderTiles_reuses_sprites_witness :
  let L := full_layer 4 4 in
  let s := renderTiles L 0 0 3 3 new_layer in
  let s' := renderTiles L 1 1 2 2 s in
  length (children s') =
    Nat.max (length (children s)) (length (live_nodes (tiles s'))) /\
  children s `prefix_of` children s'.
Proof.
  apply (renderTiles_reuses_sprites (full_layer 4 4) 1 1 2 2
           (renderTiles (full_layer 4 4) 0 0 3 3 new_layer)).
  - apply renderTiles_wf, new_layer_conserved.
  - apply renderTiles_conserved; apply new_layer_conserved.
Defined.

(** X9. The rectangle [renderTiles] sets, axis by axis: a start at or
    below 0 is clamped to 0 and the size is then the smaller of the
    requested one and the map's; a start and size that fit in the map are
    taken as they are; for a start above 0 whose size reaches past the map
    the end is set to the map's size less the start, so the size is the
    map's less twice the start. The four edges agree with x, y, width and
    height. *)
Theorem renderTiles_rectangle (L : Layer) (startX startY numX numY : Z)
    (s : TiledLayer) :
  let s' := renderTiles L startX startY numX numY s in
  let mapW := Vec.x (Map.size (parent L)) in
  let mapH := Vec.y (Map.size (parent L)) in
  (startX <= 0 ->
   Rect.x (_rendered s') = 0 /\ Rect.width (_rendered s') = Z.min numX mapW) /\
  (startY <= 0 ->
   Rect.y (_rendered s') = 0 /\ Rect.height (_rendered s') = Z.min numY mapH) /\
  (0 <= startX -> startX + numX <= mapW ->
   Rect.x (_rendered s') = startX /\ Rect.width (_rendered s') = numX) /\
  (0 <= startY -> startY + numY <= mapH ->
   Rect.y (_rendered s') = startY /\ Rect.height (_rendered s') = numY) /\
  (0 <= startX -> mapW < startX + numX ->
   Rect.x (_rendered s') = startX /\ Rect.width (_rendered s') = mapW - 2 * startX) /\
  (0 <= startY -> mapH < startY + numY ->
   Rect.y (_rendered s') = startY /\ Rect.height (_rendered s') = mapH - 2 * startY) /\
  edges_ok (_rendered s').
Proof.
  cbv zeta. rewrite renderTiles_rendered.
  split; [|split; [|split; [|split; [|split; [|split]]]]].
  - intros H. unfold clamp_end, clamp_start. cbn. repeat case_match; lia.
  - intros H. unfold clamp_end, clamp_start. cbn. repeat case_match; lia.
  - intros H1 H2. unfold clamp_end, clamp_start. cbn. repeat case_match; lia.
  - intros H1 H2. unfold clamp_end, clamp_start. cbn. repeat case_match; lia.
  - intros H1 H2. unfold clamp_end, clamp_start. cbn. repeat case_match; lia.
  - intros H1 H2. unfold clamp_end, clamp_start. cbn. repeat case_match; lia.
  - by repeat split.
Qed.

(** X10. On a map that is not isometric the sprite that [moveTileSprite]
    binds at tile (tileX, tileY) through a tileset is positioned at
    pixelX = tileX * tileWidth + tilesetOffsetX and
    pixelY = tileY * tileHeight + tilesetOffsetY. *)
Theorem orthogonal_projection (L : Layer) (set : Tileset.t)
    (fromTileX fromTileY tileX tileY : Z) (s : TiledLayer) :
  conserved s ->
  String.eqb (Map.orientation (parent L)) "isometric" = false ->
  Map.getTileset (parent L) (tileId_at L (tileX + tileY * Vec.x (size L))) = Some set ->
  let s' := moveTileSprite L fromTileX fromTileY tileX tileY s in
  exists n t,
    tile_at (tiles s') tileX tileY = Some n /\ sprites s' !! n = Some t /\
    (fst (Tile.position t) ==
       inject_Z tileX * inject_Z (Vec.x (Map.tileSize (parent L)))
       + inject_Z (Vec.x (Tileset.tileoffset set)))%Q /\
    (snd (Tile.position t) ==
       inject_Z tileY * inject_Z (Vec.y (Map.tileSize (parent L)))
       + inject_Z (Vec.y (Tileset.tileoffset set)))%Q.
Proof.
  intros Hc Horth Hset s'.
  destruct (move_binds L fromTileX fromTileY tileX tileY s set Hc Hset)
    as (n & t0 & Hn & Ht).
  exists n, (binding L set tileX tileY t0). split; [done|]. split; [done|].
  rewrite binding_position. unfold tile_position. rewrite Horth. by cbn.
Qed.

Lemma orthogonal_projection_witness :
  let L := full_layer 4 4 in
  let s' := moveTileSprite L 2 3 2 3 new_layer in
  exists n t,
    tile_at (tiles s') 2 3 = Some n /\ sprites s' !! n = Some t /\
    (fst (Tile.position t) ==
       inject_Z 2 * inject_Z (Vec.x (Map.tileSize (parent L)))
       + inject_Z (Vec.x (Tileset.tileoffset plain_tileset)))%Q /\
    (snd (Tile.position t) ==
       inject_Z 3 * inject_Z (Vec.y (Map.tileSize (parent L)))
       + inject_Z (Vec.y (Tileset.tileoffset plain_tileset)))%Q.
Proof.
  apply (orthogonal_projection (full_layer 4 4) plain_tileset 2 3 2 3 new_layer).
  - apply new_layer_conserved.
  - reflexivity.
  - reflexivity.
Defined.

(** X11. With a scaled tile width that is not positive, a pan whose
    accumulated horizontal delta is at or above it never ends: no bound on
    the number of passes lets the first loop of [pan] return. *)
Theorem pan_needs_positive_tile_size (L : Layer) (dx dy : Z) (s : TiledLayer) :
  scaledX L <= 0 -> scaledX L <= Vec.x (_panDelta s) + dx ->
  (forall fuel, pan_fuel L fuel dx dy s = None) /\ pan L dx dy s = None.
Proof.
  intros Hsx Hpx.
  assert (Hloop : forall fuel t, scaledX L <= Vec.x (_panDelta t) ->
            while fuel (fun s => scaledX L <=? Vec.x (_panDelta s))
              (fun s => add_panDelta (- scaledX L) 0 (_renderLeft L false s)) t = None).
  { induction fuel as [|fuel IH]; intros t Ht.
    - cbn. by replace (scaledX L <=? _) with true by (symmetry; by apply Z.leb_le).
    - rewrite while_step by by apply Z.leb_le.
      apply IH. rewrite add_panDelta_panDelta, _renderLeft_panDelta. cbn. lia. }
  assert (forall fuel, pan_fuel L fuel dx dy s = None) as Hall.
  { intros fuel. unfold pan_fuel. rewrite Hloop; [done|].
    rewrite pan_buffer_panDelta, add_panDelta_panDelta. by cbn. }
  split; [done|]. apply Hall.
Qed.

Lemma pan_needs_positive_tile_size_witness :
  let L := mkLayer [] (Vec.mk 0 0) Props.empty
             (Map.mk (Vec.mk 0 0) (Vec.mk 0 0) (Vec.mk 0 0) (Vec.mk 0 0)
                "orthogonal" Props.empty (fun _ => None)) in
  (forall fuel, pan_fuel L fuel 1 0 new_layer = None) /\ pan L 1 0 new_layer = None.
Proof.
  apply (pan_needs_positive_tile_size
           (mkLayer [] (Vec.mk 0 0) Props.empty
              (Map.mk (Vec.mk 0 0) (Vec.mk 0 0) (Vec.mk 0 0) (Vec.mk 0 0)
                 "orthogonal" Props.empty (fun _ => None))) 1 0 new_layer);
    vm_compute; discriminate.
Defined.

Section ColumnFacts.

Implicit Types (s : TiledLayer) (t : obj (obj (option node))).

Lemma keys_del_tile x y t : fst <$> del_tile x y t = fst <$> t.
Proof.
  unfold del_tile. destruct (oget x t) as [row|] eqn:E; [|done].
  by rewrite keys_oset, E.
Qed.

Lemma oget_del_tile x y t x' :
  oget x' (del_tile x y t) =
  if decide (x' = x) then odel y <$> oget x t else oget x' t.
Proof.
  unfold del_tile. destruct (decide (x' = x)) as [->|Hne].
  - destruct (oget x t) as [row|] eqn:E; [|by rewrite E].
    by rewrite oget_oset_eq.
  - destruct (oget x t) as [row|]; [|done]. by rewrite oget_oset_ne.
Qed.

Lemma clear_cells_keys x ys s :
  fst <$> tiles (foldl (fun s y => clear_cell x y s) s ys) = fst <$> tiles s.
Proof.
  revert s. induction ys as [|y ys IH]; intros s; [done|].
  cbn. by rewrite IH, clear_cell_tiles, keys_del_tile.
Qed.

Lemma clear_cells_oget x ys s x' :
  oget x' (tiles (foldl (fun s y => clear_cell x y s) s ys)) =
  if decide (x' = x)
  then (fun row => foldl (fun r y => odel y r) row ys) <$> oget x (tiles s)
  else oget x' (tiles s).
Proof.
  revert s. induction ys as [|y ys IH]; intros s.
  - cbn. destruct (decide (x' = x)) as [->|]; [|done]. by destruct (oget x (tiles s)).
  - cbn. rewrite IH, clear_cell_tiles, !oget_del_tile.
    rewrite (decide_True (P := x = x)) by done.
    destruct (decide (x' = x)); [|done]. by destruct (oget x (tiles s)).
Qed.

Lemma odel_all {V} (row : obj V) ys :
  (forall k, k ∈ fst <$> row -> k ∈ ys) -> foldl (fun r y => odel y r) row ys = [].
Proof.
  revert row. induction ys as [|y ys IH]; intros row Hall.
  - destruct row as [|[k v] row]; [done|].
    specialize (Hall k). csimpl in Hall.
    by apply elem_of_nil in Hall; [|apply list_elem_of_here].
  - cbn. apply IH. intros k. rewrite keys_odel, list_elem_of_filter.
    intros [Hne Hk]. specialize (Hall k Hk).
    apply elem_of_cons in Hall as [->|]; done.
Qed.

Lemma clear_row_keys x s : fst <$> tiles (clear_row x s) = fst <$> tiles s.
Proof.
  unfold clear_row. destruct (oget x (tiles s)); [|done]. apply clear_cells_keys.
Qed.

Lemma clear_row_oget x s x' :
  oget x' (tiles (clear_row x s)) =
  if decide (x' = x) then (fun _ => []) <$> oget x (tiles s) else oget x' (tiles s).
Proof.
  unfold clear_row. destruct (oget x (tiles s)) as [row|] eqn:E.
  - rewrite clear_cells_oget, E. destruct (decide (x' = x)); [|done].
    cbn. f_equal. apply odel_all. intros k Hk. apply elem_of_for_in.
    destruct (oget k row) eqn:Ek; [done|]. by apply oget_None in Ek.
  - destruct (decide (x' = x)) as [->|]; [|done]. by rewrite E.
Qed.

Lemma clear_rows_keys xs s :
  fst <$> tiles (foldl (fun s x => clear_row x s) s xs) = fst <$> tiles s.
Proof.
  revert s. induction xs as [|x xs IH]; intros s; [done|].
  cbn. by rewrite IH, clear_row_keys.
Qed.

Lemma clear_rows_oget xs s x' :
  oget x' (tiles (foldl (fun s x => clear_row x s) s xs)) =
  if decide (x' ∈ xs) then (fun _ => []) <$> oget x' (tiles s) else oget x' (tiles s).
Proof.
  revert s. induction xs as [|x xs IH]; intros s.
  - cbn. rewrite decide_False; [done|]. apply not_elem_of_nil.
  - cbn. rewrite IH, clear_row_oget.
    destruct (decide (x' = x)) as [->|Hne].
    + rewrite (decide_True (P := x ∈ x :: xs)) by apply list_elem_of_here.
      destruct (decide (x ∈ xs)); by destruct (oget x (tiles s)).
    + destruct (decide (x' ∈ xs)) as [Hin|Hout].
      * rewrite decide_True; [done|]. by apply list_elem_of_further.
      * rewrite decide_False; [done|]. intros [->|]%elem_of_cons; done.
Qed.

Lemma length_window_moves x0 y0 w h :
  length (window_moves x0 y0 w h) = (Z.to_nat w * Z.to_nat h)%nat.
Proof.
  unfold window_moves. rewrite <- (length_seqZ x0 w).
  induction (seqZ x0 w) as [|x xs IH]; [done|].
  rewrite bind_cons, length_app, IH, length_fmap, length_seqZ. cbn. lia.
Qed.

Lemma omap_length_le {A B} (f : A -> option B) (l : list A) :
  (length (omap f l) <= length l)%nat.
Proof.
  induction l as [|a l IH]; [done|]. csimpl. destruct (f a); cbn; lia.
Qed.

(** The live nodes of a steady layer are no more than the coordinates of
    its rectangle. *)
Lemma steady_live_count s :
  steady s ->
  Z.of_nat (length (live_nodes (tiles s))) <=
  Rect.width (_rendered s) * Rect.height (_rendered s).
Proof.
  intros ((_ & [Hw Hh] & Hcont) & Hc & Hwf).
  set (r := _rendered s) in *.
  set (cs := window_moves (Rect.x r) (Rect.y r) (Rect.width r) (Rect.height r)).
  assert (Hsub : live_nodes (tiles s) ⊆+
                 omap (fun c => tile_at (tiles s) (toX c) (toY c)) cs).
  { apply NoDup_submseteq.
    - destruct (conserved_exactly_one s Hc) as (Hnd & _). by apply NoDup_app in Hnd as [? _].
    - intros n Hn. apply elem_of_live_nodes in Hn as (x & y & Hxy); [|done].
      apply list_elem_of_omap. exists (mkMove x y x y). split; [|done].
      apply elem_of_window_moves. exists x, y.
      destruct (Hcont x y n Hxy) as [Hx Hy]. fold r in Hx, Hy. done. }
  apply submseteq_length in Hsub.
  pose proof (omap_length_le (fun c => tile_at (tiles s) (toX c) (toY c)) cs) as Hle.
  unfold cs in Hle at 2. rewrite length_window_moves in Hle. nia.
Qed.

End ColumnFacts.

(** X12. [clearTiles] empties every column of the grid and removes none:
    [tiles] keeps the same x keys in the same order, and every x key that
    was bound is bound to an empty object afterwards. *)
Theorem clearTiles_keeps_columns (s : TiledLayer) (x : Z) :
  fst <$> tiles (clearTiles s) = fst <$> tiles s /\
  oget x (tiles (clearTiles s)) = (fun _ => []) <$> oget x (tiles s).
Proof.
  unfold clearTiles. split; [apply clear_rows_keys|].
  rewrite clear_rows_oget. destruct (decide _) as [Hin|Hout]; [done|].
  destruct (oget x (tiles s)) eqn:E; [|done].
  destruct Hout. apply elem_of_for_in. by rewrite E.
Qed.

(** X13. After [renderTiles] (on a conserved layer, for a rectangle with a
    column and a row) and any sequence of pans, the live sprites are no
    more than the coordinates of the rectangle: at most width * height. *)
Theorem live_sprites_fit_the_window (L : Layer) (startX startY numX numY : Z)
    (ds : list (Z * Z)) (s0 : TiledLayer) :
  wf_tiles (tiles s0) -> conserved s0 ->
  0 < scaledX L -> 0 < scaledY L ->
  positive (_rendered (renderTiles L startX startY numX numY s0)) ->
  exists s', pans L ds (renderTiles L startX startY numX numY s0) = Some s' /\
    Z.of_nat (length (live_nodes (tiles s'))) <=
    Rect.width (_rendered s') * Rect.height (_rendered s').
Proof.
  intros Hwf Hc Hsx Hsy Hpos.
  destruct (pans_keep L steady ds (renderTiles L startX startY numX numY s0))
    as (s' & H & Hs'); [apply steady_stable|done..|by apply renderTiles_steady|].
  exists s'. split; [done|]. by apply steady_live_count.
Qed.

Lemma live_sprites_fit_the_window_witness :
  let L := full_layer 4 4 in
  exists s', pans L [(33, 5); (-70, 40)] (renderTiles L 0 0 2 2 new_layer) = Some s' /\
    Z.of_nat (length (live_nodes (tiles s'))) <=
    Rect.width (_rendered s') * Rect.height (_rendered s').
Proof.
  apply (live_sprites_fit_the_window (full_layer 4 4) 0 0 2 2 [(33, 5); (-70, 40)] new_layer).
  - apply new_layer_conserved.
  - apply new_layer_conserved.
  - reflexivity.
  - reflexivity.
  - split; reflexivity.
Defined.

(** ** Rebinding *)

Section RebindingBound.

Variable L : Layer.
Implicit Types (s : TiledLayer) (cs : list move).

Lemma binding_collisionType set x y t0 :
  Tile.collisionType (binding L set x y t0) =
  Props.type (Tileset.getTileProperties set (tileId_at L (x + y * Vec.x (size L)))).
Proof. unfold binding, bind_tile. by repeat case_match. Qed.

Lemma binding_hitArea set x y t0 :
  Tile.hitArea (binding L set x y t0) =
  match Props.hitArea
          (Tileset.getTileProperties set (tileId_at L (x + y * Vec.x (size L)))) with
  | Some h => Some h
  | None => Props.tileHitArea (Tileset.properties set)
  end.
Proof. unfold binding, bind_tile. by repeat case_match. Qed.

Lemma binding_shows set x y t0 :
  Map.getTileset (parent L) (tileId_at L (x + y * Vec.x (size L))) = Some set ->
  shows L x y (binding L set x y t0).
Proof.
  intros Hset. exists set. cbv zeta. split; [done|].
  split; [apply binding_visible|]. split; [apply binding_texture|].
  split; [apply binding_position|]. split; [apply binding_interactive|].
  split; [apply binding_collisionType|apply binding_hitArea].
Qed.

(** A move from a live coordinate to a resolving one rewrites the sprite
    it carries, and no other. *)
Lemma move_rebinds fx fy tx ty s n :
  tile_at (tiles s) fx fy = Some n -> resolves L tx ty = true ->
  exists set,
    Map.getTileset (parent L) (tileId_at L (tx + ty * Vec.x (size L))) = Some set /\
    sprites (moveTileSprite L fx fy tx ty s) = alter (binding L set tx ty) n (sprites s).
Proof.
  intros Hf [set Hset]%resolves_true. exists set. split; [done|].
  by rewrite (move_resolved_live L fx fy tx ty s n set Hset Hf).
Qed.

(** Moves that share no coordinate, each from a live coordinate to a
    resolving one: every source is left empty, only the sprites carried
    are rewritten, and each of them, when no two sources hold the same
    sprite, with the binding of its target. *)
Lemma moves_rebound cs s :
  NoDup cs ->
  (forall c c', c ∈ cs -> c' ∈ cs -> c <> c' -> apart c c') ->
  (forall c, c ∈ cs ->
     is_Some (tile_at (tiles s) (fromX c) (fromY c)) /\
     resolves L (toX c) (toY c) = true) ->
  (forall c, c ∈ cs -> ~ (fromX c = toX c /\ fromY c = toY c) ->
     tile_at (tiles (moves L cs s)) (fromX c) (fromY c) = None) /\
  (forall m, (forall c, c ∈ cs -> tile_at (tiles s) (fromX c) (fromY c) <> Some m) ->
     sprites (moves L cs s) !! m = sprites s !! m) /\
  ((forall c c', c ∈ cs -> c' ∈ cs -> c <> c' ->
      tile_at (tiles s) (fromX c) (fromY c) <> tile_at (tiles s) (fromX c') (fromY c')) ->
   forall c n t0, c ∈ cs ->
     tile_at (tiles s) (fromX c) (fromY c) = Some n -> sprites s !! n = Some t0 ->
     exists set,
       Map.getTileset (parent L) (tileId_at L (toX c + toY c * Vec.x (size L))) = Some set /\
       sprites (moves L cs s) !! n = Some (binding L set (toX c) (toY c) t0)).
Proof.
  revert s. induction cs as [|c cs IH]; intros s Hnd Hap Hlive.
  - split; [|split]; [intros c Hc; by apply elem_of_nil in Hc|done|].
    intros _ c n t0 Hc. by apply elem_of_nil in Hc.
  - apply NoDup_cons in Hnd as [Hc Hnd].
    destruct (Hlive c) as [[n Hn] Hres]; [apply list_elem_of_here|].
    destruct (move_live_resolved L _ _ _ _ s n Hn Hres) as (_ & _ & _ & Hvac & Hoth).
    destruct (move_rebinds _ _ _ _ s n Hn Hres) as (set & Hset & Hspr).
    fold (move_by L c s) in Hvac, Hoth, Hspr.
    assert (Hfar : forall c', c' ∈ cs -> apart c c').
    { intros c' Hc'. apply Hap; [apply list_elem_of_here|by apply list_elem_of_further|].
      intros ->. done. }
    assert (Hsame : forall c', c' ∈ cs ->
              tile_at (tiles (move_by L c s)) (fromX c') (fromY c') =
              tile_at (tiles s) (fromX c') (fromY c')).
    { intros c' Hc'. destruct (Hfar c' Hc') as (H1 & H2 & _). by apply Hoth. }
    destruct (IH (move_by L c s)) as (Hv & Hf & Hb).
    { done. }
    { intros c1 c2 H1 H2. apply Hap; by apply list_elem_of_further. }
    { intros c' Hc'. rewrite Hsame by done. apply Hlive. by apply list_elem_of_further. }
    split; [|split].
    + intros c0 [->|Hc0]%elem_of_cons Hne; rewrite moves_cons.
      * rewrite moves_tile_at_other; [by apply Hvac|].
        intros c' Hc'. destruct (Hfar c' Hc') as (H1 & _ & _ & H4).
        split; intros [? ?]; [apply H4|apply H1]; done.
      * by apply Hv.
    + intros m Hm. rewrite moves_cons, Hf.
      * rewrite Hspr. apply list_lookup_alter_ne. intros ->.
        by apply (Hm c); [apply list_elem_of_here|].
      * intros c' Hc'. rewrite Hsame by done. apply Hm. by apply list_elem_of_further.
    + intros Hdist c0 n0 t0 [->|Hc0]%elem_of_cons Hn0 Ht0; rewrite moves_cons.
      * rewrite Hn in Hn0. injection Hn0 as <-. exists set. split; [done|].
        rewrite Hf.
        -- by rewrite Hspr, list_lookup_alter_eq, Ht0.
        -- intros c' Hc'. rewrite Hsame, <- Hn by done.
           apply Hdist; [by apply list_elem_of_further|apply list_elem_of_here|].
           intros ->. done.
      * apply Hb; [|done|by rewrite Hsame|].
        -- intros c1 c2 H1 H2 Hne. rewrite !Hsame by done.
           apply Hdist; [by apply list_elem_of_further..|done].
        -- rewrite Hspr, list_lookup_alter_ne; [done|]. intros ->.
           apply (Hdist c c0); [apply list_elem_of_here|by apply list_elem_of_further| |congruence].
           intros ->. done.
Qed.

End RebindingBound.

(** C10. A [moveTileSprite] call from a coordinate that holds a live
    sprite to a coordinate whose tile id has a tileset rebinds that very
    sprite: the sprite is stored under the target, the source (when it
    is another coordinate) is left empty, the sprite shows the tile of the
    target and no other sprite is touched; the pool is neither popped nor
    pushed, and no sprite is created. A threshold shift of [pan], in any
    of the four directions, in which every departing coordinate is live
    and every entering coordinate resolves leaves the pool as it was and
    carries each departing sprite to its entering coordinate: the
    departing coordinate is left empty and the sprite (no sprite being
    stored under two coordinates) shows the tile of the entering
    coordinate. *)
Theorem rebinding_bypasses_pool (L : Layer) (s : TiledLayer)
    (fromTileX fromTileY toTileX toTileY : Z) (n : node) (e : edge) :
  tile_at (tiles s) fromTileX fromTileY = Some n ->
  resolves L toTileX toTileY = true ->
  (let s' := moveTileSprite L fromTileX fromTileY toTileX toTileY s in
   _tilePool s' = _tilePool s /\ children s' = children s /\
   tile_at (tiles s') toTileX toTileY = Some n /\
   (~ (fromTileX = toTileX /\ fromTileY = toTileY) ->
    tile_at (tiles s') fromTileX fromTileY = None) /\
   (forall t0, sprites s !! n = Some t0 ->
      exists t, sprites s' !! n = Some t /\ shows L toTileX toTileY t) /\
   (forall m, m <> n -> sprites s' !! m = sprites s !! m)) /\
  ((forall i, 0 <= i < shift_length e (_rendered s) ->
      let c := shift_move e (_rendered s) i in
      is_Some (tile_at (tiles s) (fromX c) (fromY c)) /\
      resolves L (toX c) (toY c) = true) ->
   _tilePool (shift L e s) = _tilePool s /\
   children (shift L e s) = children s /\
   forall i, 0 <= i < shift_length e (_rendered s) ->
     let c := shift_move e (_rendered s) i in
     tile_at (tiles (shift L e s)) (toX c) (toY c) =
       tile_at (tiles s) (fromX c) (fromY c) /\
     (~ (fromX c = toX c /\ fromY c = toY c) ->
      tile_at (tiles (shift L e s)) (fromX c) (fromY c) = None) /\
     (NoDup (live_nodes (tiles s)) ->
      forall m t0, tile_at (tiles s) (fromX c) (fromY c) = Some m ->
        sprites s !! m = Some t0 ->
        exists t, sprites (shift L e s) !! m = Some t /\ shows L (toX c) (toY c) t)).
Proof.
  intros Hn Hres. split.
  - destruct (move_live_resolved L _ _ _ _ s n Hn Hres) as (Hp & Hch & Hto & Hvac & _).
    destruct (move_rebinds L _ _ _ _ s n Hn Hres) as (set & Hset & Hspr).
    cbv zeta. do 4 (split; [done|]). rewrite Hspr. split.
    + intros t0 Ht0. exists (binding L set toTileX toTileY t0).
      split; [by rewrite list_lookup_alter_eq, Ht0|by apply binding_shows].
    + intros m Hm. by apply list_lookup_alter_ne.
  - intros Hall. rewrite shift_moves.
    cbn [with_rendered _tilePool children tiles sprites].
    set (g := shift_move e (_rendered s)). set (len := shift_length e (_rendered s)).
    assert (Hnd : NoDup (g <$> seqZ 0 len)).
    { apply NoDup_fmap_2_strong; [|apply NoDup_seqZ].
      intros i j _ _ Heq. destruct (decide (i = j)) as [|Hne]; [done|].
      destruct (shift_moves_apart e (_rendered s) i j Hne) as (_ & _ & H & _).
      destruct H. unfold g in Heq. by rewrite Heq. }
    assert (Hap : forall c c', c ∈ g <$> seqZ 0 len -> c' ∈ g <$> seqZ 0 len ->
                    c <> c' -> apart c c').
    { intros c c' (i & Hi & ->)%elem_of_loop (j & Hj & ->)%elem_of_loop Hne.
      apply shift_moves_apart. intros ->. done. }
    assert (Hlive : forall c, c ∈ g <$> seqZ 0 len ->
                      is_Some (tile_at (tiles s) (fromX c) (fromY c)) /\
                      resolves L (toX c) (toY c) = true).
    { intros c (i & Hi & ->)%elem_of_loop. by apply Hall. }
    destruct (moves_rebind L (g <$> seqZ 0 len) s Hnd Hap Hlive) as (Hp & Hch & Hto).
    destruct (moves_rebound L (g <$> seqZ 0 len) s Hnd Hap Hlive) as (Hv & _ & Hb).
    split; [done|]. split; [done|]. intros i Hi.
    assert (Hin : g i ∈ g <$> seqZ 0 len) by (apply elem_of_loop; by exists i).
    cbv zeta. split; [by apply Hto|]. split; [by apply Hv|].
    intros Huniq m t0 Hm Ht0.
    destruct (Hb) with (c := g i) (n := m) (t0 := t0) as (set & Hset & Hs); try done.
    + intros c c' Hc Hc' Hne Heq.
      destruct (Hlive c Hc) as [[k Hk] _].
      destruct (Hap c c' Hc Hc' Hne) as (H1 & _). apply H1.
      apply (live_unique (tiles s) _ _ _ _ k); [done|done|congruence].
    + exists (binding L set (toX (g i)) (toY (g i)) t0). split; [done|].
      by apply binding_shows.
Qed.

Lemma rebinding_bypasses_pool_witness :
  let L := full_layer 4 4 in
  let s := renderTiles L 0 0 2 2 new_layer in
  (let s' := moveTileSprite L 0 0 2 0 s in
   _tilePool s' = _tilePool s /\ children s' = children s /\
   tile_at (tiles s') 2 0 = Some 0%nat /\
   (~ (0 = 2 /\ 0 = 0) -> tile_at (tiles s') 0 0 = None) /\
   (forall t0, sprites s !! 0%nat = Some t0 ->
      exists t, sprites s' !! 0%nat = Some t /\ shows L 2 0 t) /\
   (forall m, m <> 0%nat -> sprites s' !! m = sprites s !! m)) /\
  ((forall i, 0 <= i < shift_length ToRight (_rendered s) ->
      let c := shift_move ToRight (_rendered s) i in
      is_Some (tile_at (tiles s) (fromX c) (fromY c)) /\
      resolves L (toX c) (toY c) = true) ->
   _tilePool (shift L ToRight s) = _tilePool s /\
   children (shift L ToRight s) = children s /\
   forall i, 0 <= i < shift_length ToRight (_rendered s) ->
     let c := shift_move ToRight (_rendered s) i in
     tile_at (tiles (shift L ToRight s)) (toX c) (toY c) =
       tile_at (tiles s) (fromX c) (fromY c) /\
     (~ (fromX c = toX c /\ fromY c = toY c) ->
      tile_at (tiles (shift L ToRight s)) (fromX c) (fromY c) = None) /\
     (NoDup (live_nodes (tiles s)) ->
      forall m t0, tile_at (tiles s) (fromX c) (fromY c) = Some m ->
        sprites s !! m = Some t0 ->
        exists t, sprites (shift L ToRight s) !! m = Some t /\
                  shows L (toX c) (toY c) t)).
Proof.
  apply (rebinding_bypasses_pool (full_layer 4 4)
           (renderTiles (full_layer 4 4) 0 0 2 2 new_layer) 0 0 2 0 0%nat ToRight);
    vm_compute; reflexivity.
Defined.

(** ** The event emitter *)

Section EmitterFacts.

Context {A : Type}.
Implicit Types (e : EventEmitter.t A) (f g : EventEmitter.fn) (type : string).

Lemma same_refl f : EventEmitter.same f f = true.
Proof.
  induction f as [i|i t f IH]; cbn.
  - apply Nat.eqb_refl.
  - by rewrite Nat.eqb_refl, String.eqb_refl, IH.
Qed.

Lemma events_set_eq type h e :
  EventEmitter._events (EventEmitter.set_handler type h e) type = h.
Proof. cbn. by rewrite String.eqb_refl. Qed.

Lemma events_set_ne type type' h e :
  type' <> type ->
  EventEmitter._events (EventEmitter.set_handler type h e) type' =
  EventEmitter._events e type'.
Proof. intros Hne. cbn. by apply String.eqb_neq in Hne as ->. Qed.

Lemma listeners_set_ne type type' h e :
  type' <> type -> listeners (EventEmitter.set_handler type h e) type' = listeners e type'.
Proof. intros Hne. unfold listeners. by rewrite events_set_ne. Qed.

Lemma listeners_on type l e :
  listeners (EventEmitter.on type l e) type = listeners e type ++ [l].
Proof.
  unfold EventEmitter.on, listeners at 2.
  destruct (EventEmitter._events e type) as [[f|a]|];
    unfold listeners; by rewrite events_set_eq.
Qed.

Lemma listeners_on_ne type type' l e :
  type' <> type -> listeners (EventEmitter.on type l e) type' = listeners e type'.
Proof.
  intros Hne. unfold EventEmitter.on.
  destruct (EventEmitter._events e type) as [[f|a]|]; by apply listeners_set_ne.
Qed.

Lemma calls_on type l e : EventEmitter.calls (EventEmitter.on type l e) = EventEmitter.calls e.
Proof.
  unfold EventEmitter.on. by destruct (EventEmitter._events e type) as [[f|a]|].
Qed.

Lemma position_last l a :
  EventEmitter.position l (a ++ [l]) (length (a ++ [l])) = Some (length a).
Proof.
  rewrite length_app, Nat.add_1_r. cbn.
  rewrite lookup_app_r, Nat.sub_diag by done. cbn. by rewrite same_refl.
Qed.

Lemma position_lt l a i p :
  EventEmitter.position l a i = Some p -> (p < i)%nat.
Proof.
  induction i as [|i IH]; cbn; [done|].
  destruct (a !! i) as [f|]; [|done].
  destruct (_ || _).
  - intros [= <-]. lia.
  - intros H%IH. lia.
Qed.

Lemma delete_last (a : list EventEmitter.fn) l : delete (length a) (a ++ [l]) = a.
Proof. induction a as [|x a IH]; cbn; [done|]. f_equal. apply IH. Qed.

Lemma calls_off type l e :
  EventEmitter.calls (EventEmitter.off type l e) = EventEmitter.calls e.
Proof.
  unfold EventEmitter.off.
  destruct (EventEmitter._events e type) as [[f|a]|]; [| |done].
  - by destruct (_ || _).
  - destruct (EventEmitter.position l a (length a)); [|done].
    by destruct (Nat.eqb (length a) 1).
Qed.

Lemma listeners_off_ne type type' l e :
  type' <> type -> listeners (EventEmitter.off type l e) type' = listeners e type'.
Proof.
  intros Hne. unfold EventEmitter.off.
  destruct (EventEmitter._events e type) as [[f|a]|]; [| |done].
  - destruct (_ || _); [by apply listeners_set_ne|done].
  - destruct (EventEmitter.position l a (length a)); [|done].
    destruct (Nat.eqb (length a) 1); by apply listeners_set_ne.
Qed.

(** Removing the listener registered last gives back the listeners before
    it. *)
Lemma off_last type l e ls :
  listeners e type = ls ++ [l] -> listeners (EventEmitter.off type l e) type = ls.
Proof.
  unfold EventEmitter.off, listeners at 1.
  destruct (EventEmitter._events e type) as [[f|a]|] eqn:E; intros Hl.
  - destruct ls as [|x ls]; [|by destruct ls]. injection Hl as ->.
    rewrite same_refl. cbn [orb]. unfold listeners. by rewrite events_set_eq.
  - subst a. rewrite position_last.
    destruct (Nat.eqb_spec (length (ls ++ [l])) 1) as [H1|H1];
      unfold listeners; rewrite events_set_eq.
    + rewrite length_app in H1. cbn in H1. destruct ls; [done|cbn in H1; lia].
    + by rewrite delete_last.
  - by destruct ls.
Qed.

Lemma log_nil e : EventEmitter.log [] e = e.
Proof. destruct e. unfold EventEmitter.log. cbn. by rewrite app_nil_r. Qed.

Lemma log_log l1 l2 e :
  EventEmitter.log l2 (EventEmitter.log l1 e) = EventEmitter.log (l1 ++ l2) e.
Proof. unfold EventEmitter.log. cbn. by rewrite app_assoc. Qed.

(** Calling plain listeners only records the calls. *)
Lemma call_plain_all (a : A) l e :
  Forall is_plain l ->
  foldl (fun e f => EventEmitter.call f a e) e l = EventEmitter.log (calls_of a l) e.
Proof.
  intros Hl. revert e. induction Hl as [|f l Hf _ IH]; intros e.
  - by rewrite log_nil.
  - destruct f as [i|]; [|done]. cbn. by rewrite IH, log_log.
Qed.

Lemma emit_plain type (a : A) e :
  Forall is_plain (listeners e type) ->
  snd (EventEmitter.emit type a e) = EventEmitter.log (calls_of a (listeners e type)) e.
Proof.
  unfold EventEmitter.emit, listeners.
  destruct (EventEmitter._events e type) as [[f|l]|]; intros Hl; cbn.
  - apply Forall_cons in Hl as [Hf _]. by destruct f.
  - by apply call_plain_all.
  - by rewrite log_nil.
Qed.

(** An [emit] on plain listeners followed by a wrapper of a plain one. *)
Lemma emit_then_wrapper type (a : A) e ls j i :
  let g := EventEmitter.Wrapper j type (EventEmitter.Plain i) in
  listeners e type = ls ++ [g] -> Forall is_plain ls ->
  EventEmitter.emit type a e =
  (true, EventEmitter.log [(i, a)]
           (EventEmitter.off type g (EventEmitter.log (calls_of a ls) e))).
Proof.
  intros g. unfold EventEmitter.emit, listeners.
  destruct (EventEmitter._events e type) as [[f|l]|]; intros Hl Hp.
  - destruct ls as [|x ls]; [|by destruct ls]. injection Hl as ->.
    cbn. by rewrite log_nil.
  - subst l. rewrite foldl_app, (call_plain_all a ls) by done. done.
  - by destruct ls.
Qed.

Lemma listeners_register type ids e :
  listeners (register type ids e) type = listeners e type ++ (EventEmitter.Plain <$> ids).
Proof.
  revert e. induction ids as [|i ids IH]; intros e; cbn.
  - by rewrite app_nil_r.
  - unfold register in IH. rewrite IH, listeners_on. by rewrite <- app_assoc.
Qed.

Lemma calls_register type ids e :
  EventEmitter.calls (register type ids e) = EventEmitter.calls e.
Proof.
  revert e. induction ids as [|i ids IH]; intros e; cbn; [done|].
  unfold register in IH. by rewrite IH, calls_on.
Qed.

Lemma no_empty_array_set type h e :
  h <> Some (EventEmitter.Several []) ->
  no_empty_array e -> no_empty_array (EventEmitter.set_handler type h e).
Proof.
  intros Hh He ty. cbn. destruct (String.eqb ty type); [done|apply He].
Qed.

Lemma on_no_empty_array type l e :
  no_empty_array e -> no_empty_array (EventEmitter.on type l e).
Proof.
  intros He. unfold EventEmitter.on.
  destruct (EventEmitter._events e type) as [[f|a]|]; apply no_empty_array_set; try done.
  intros [= H]. by destruct a.
Qed.

Lemma off_no_empty_array type l e :
  no_empty_array e -> no_empty_array (EventEmitter.off type l e).
Proof.
  intros He. unfold EventEmitter.off.
  destruct (EventEmitter._events e type) as [[f|a]|]; [| |done].
  - destruct (_ || _); [by apply no_empty_array_set|done].
  - destruct (EventEmitter.position l a (length a)) as [p|] eqn:Hp; [|done].
    destruct (Nat.eqb_spec (length a) 1) as [|Hne]; apply no_empty_array_set; try done.
    intros [= H]. apply position_lt in Hp.
    apply (f_equal length) in H. rewrite length_delete in H.
    + cbn in H. lia.
    + by apply lookup_lt_is_Some_2.
Qed.

Lemma log_no_empty_array l e :
  no_empty_array e -> no_empty_array (EventEmitter.log l e).
Proof. done. Qed.

Lemma call_no_empty_array f (a : A) e :
  no_empty_array e -> no_empty_array (EventEmitter.call f a e).
Proof.
  revert e. induction f as [i|i t f IH]; intros e He; cbn.
  - done.
  - by apply IH, off_no_empty_array.
Qed.

Lemma emit_no_empty_array type (a : A) e :
  no_empty_array e -> no_empty_array (snd (EventEmitter.emit type a e)).
Proof.
  intros He. unfold EventEmitter.emit.
  destruct (EventEmitter._events e type) as [[f|l]|]; cbn; [|  |done].
  - by apply call_no_empty_array.
  - apply foldl_preserves; [|done]. intros. by apply call_no_empty_array.
Qed.

Lemma run_no_empty_array (ops : list (op A)) e :
  no_empty_array e -> no_empty_array (run ops e).
Proof.
  revert e. induction ops as [|o ops IH]; intros e He; [done|].
  cbn. apply IH. destruct o; cbn.
  - by apply on_no_empty_array.
  - by apply off_no_empty_array.
  - apply on_no_empty_array. done.
  - by apply emit_no_empty_array.
Qed.

End EmitterFacts.

(** X14. [emit] calls the listeners in the order they were registered,
    each with the emitted data: after [on] for the plain listeners [ids],
    in order, on an emitter with nothing registered for the type, one
    [emit] makes exactly the calls [(i, a)] for [i] in [ids], in that
    order, leaves the registrations as they are, and returns false exactly
    when [ids] is empty. The switch from one listener to an array of
    listeners does not show. *)
Theorem emit_in_registration_order {A : Type} (type : string) (ids : list nat) (a : A)
    (e : EventEmitter.t A) :
  EventEmitter._events e type = None ->
  let e1 := register type ids e in
  fst (EventEmitter.emit type a e1) = negb (bool_decide (ids = [])) /\
  EventEmitter.calls (snd (EventEmitter.emit type a e1)) =
    EventEmitter.calls e ++ ((fun i => (i, a)) <$> ids) /\
  listeners (snd (EventEmitter.emit type a e1)) type = EventEmitter.Plain <$> ids.
Proof.
  intros Hnone e1.
  assert (Hl : listeners e1 type = EventEmitter.Plain <$> ids).
  { unfold e1. rewrite listeners_register. unfold listeners. by rewrite Hnone. }
  assert (Hp : Forall is_plain (listeners e1 type)).
  { rewrite Hl. apply Forall_fmap, Forall_forall. done. }
  split; [|split].
  - unfold EventEmitter.emit. unfold listeners in Hl.
    destruct ids as [|i ids].
    + unfold e1. cbn. by rewrite Hnone.
    + destruct (EventEmitter._events e1 type) as [[f|l]|]; try done.
  - rewrite emit_plain by done. cbn. unfold e1 at 1. rewrite calls_register.
    f_equal. rewrite Hl. unfold calls_of. rewrite <- list_fmap_compose. done.
  - rewrite emit_plain by done. done.
Qed.

Lemma emit_in_registration_order_witness :
  let e1 := register "click" [7; 3; 7]%nat (@EventEmitter.create Z object_prototype) in
  fst (EventEmitter.emit "click" 5 e1) = negb (bool_decide ([7; 3; 7]%nat = [])) /\
  EventEmitter.calls (snd (EventEmitter.emit "click" 5 e1)) =
    EventEmitter.calls (@EventEmitter.create Z object_prototype)
      ++ ((fun i => (i, 5)) <$> [7; 3; 7]%nat) /\
  listeners (snd (EventEmitter.emit "click" 5 e1)) "click" =
    EventEmitter.Plain <$> [7; 3; 7]%nat.
Proof.
  apply (emit_in_registration_order "click" [7; 3; 7]%nat 5
           (EventEmitter.create object_prototype)).
  reflexivity.
Defined.

(** X15. [off] undoes the latest [on]: registering a listener and removing
    it at once leaves the listeners of every event type, and the calls
    made, as they were. *)
Theorem off_undoes_on {A : Type} (type : string) (l : EventEmitter.fn)
    (e : EventEmitter.t A) (type' : string) :
  listeners (EventEmitter.off type l (EventEmitter.on type l e)) type' = listeners e type' /\
  EventEmitter.calls (EventEmitter.off type l (EventEmitter.on type l e)) =
    EventEmitter.calls e.
Proof.
  split; [|by rewrite calls_off, calls_on].
  destruct (String.eqb_spec type' type) as [->|Hne].
  - apply off_last, listeners_on.
  - by rewrite listeners_off_ne, listeners_on_ne.
Qed.

(** X16. On an emitter no slot of which holds an empty array (a new
    emitter is one, whatever its slots inherit), after any calls of [on],
    [off], [once] and [emit], [emit] returns false exactly when the slot
    of the type holds nothing, neither a registered listener nor an
    inherited function: [off] never leaves an empty array behind. *)
Theorem emit_reports_listeners {A : Type} (ops : list (op A)) (type : string) (a : A)
    (e0 : EventEmitter.t A) :
  no_empty_array e0 ->
  let e := run ops e0 in
  fst (EventEmitter.emit type a e) = false <-> listeners e type = [].
Proof.
  intros He0 e.
  assert (He : no_empty_array e) by (by apply run_no_empty_array).
  specialize (He type). unfold EventEmitter.emit, listeners.
  destruct (EventEmitter._events e type) as [[f|l]|]; cbn; [done| |done].
  split; [done|]. by intros ->.
Qed.

Lemma emit_reports_listeners_witness :
  let ops := [On "toString" (EventEmitter.Plain 1); Once "load" (EventEmitter.Plain 2);
              Emit "load" 0; Off "toString" (EventEmitter.Plain 1)] in
  let e := run ops (EventEmitter.create object_prototype) in
  fst (EventEmitter.emit "toString" 0 e) = false <-> listeners e "toString" = [].
Proof.
  apply (emit_reports_listeners
           [On "toString" (EventEmitter.Plain 1); Once "load" (EventEmitter.Plain 2);
            Emit "load" 0; Off "toString" (EventEmitter.Plain 1)]
           "toString" 0 (EventEmitter.create object_prototype)).
  intros type. unfold EventEmitter.create. cbn. by destruct (object_prototype type).
Defined.

(** X17. A listener registered with [once] is called once: with plain
    listeners registered for the type, [once] followed by an [emit] calls
    them and then the new listener, and leaves the listeners as they were
    before [once]; a second [emit] calls only those. *)
Theorem once_fires_once {A : Type} (type : string) (i : nat) (a b : A)
    (e : EventEmitter.t A) :
  Forall is_plain (listeners e type) ->
  let e1 := EventEmitter.once type (EventEmitter.Plain i) e in
  let e2 := snd (EventEmitter.emit type a e1) in
  fst (EventEmitter.emit type a e1) = true /\
  listeners e2 type = listeners e type /\
  EventEmitter.calls e2 =
    EventEmitter.calls e ++ calls_of a (listeners e type) ++ [(i, a)] /\
  EventEmitter.calls (snd (EventEmitter.emit type b e2)) =
    EventEmitter.calls e2 ++ calls_of b (listeners e type).
Proof.
  intros Hp e1 e2.
  set (g := EventEmitter.Wrapper (EventEmitter.fresh e) type (EventEmitter.Plain i)).
  assert (Hl1 : listeners e1 type = listeners e type ++ [g])
    by (unfold e1, EventEmitter.once; by rewrite listeners_on).
  assert (Hc1 : EventEmitter.calls e1 = EventEmitter.calls e)
    by (unfold e1, EventEmitter.once; by rewrite calls_on).
  pose proof (emit_then_wrapper type a e1 _ _ i Hl1 Hp) as Hemit. fold g in Hemit.
  assert (Hl2 : listeners e2 type = listeners e type).
  { unfold e2. rewrite Hemit. cbn [snd].
    change (listeners (EventEmitter.off type g
              (EventEmitter.log (calls_of a (listeners e type)) e1)) type =
            listeners e type).
    by apply off_last. }
  assert (Hc2 : EventEmitter.calls e2 =
                EventEmitter.calls e ++ calls_of a (listeners e type) ++ [(i, a)]).
  { unfold e2. rewrite Hemit. cbn [snd EventEmitter.log EventEmitter.calls].
    rewrite calls_off. cbn [EventEmitter.log EventEmitter.calls].
    by rewrite Hc1, <- app_assoc. }
  split; [by rewrite Hemit|]. do 2 (split; [done|]).
  rewrite emit_plain by (by rewrite Hl2). cbn. by rewrite Hl2.
Qed.

Lemma once_fires_once_witness :
  let e := register "hit" [4; 9]%nat (@EventEmitter.create Z object_prototype) in
  let e1 := EventEmitter.once "hit" (EventEmitter.Plain 2) e in
  let e2 := snd (EventEmitter.emit "hit" 10 e1) in
  fst (EventEmitter.emit "hit" 10 e1) = true /\
  listeners e2 "hit" = listeners e "hit" /\
  EventEmitter.calls e2 =
    EventEmitter.calls e ++ calls_of 10 (listeners e "hit") ++ [(2%nat, 10)] /\
  EventEmitter.calls (snd (EventEmitter.emit "hit" 20 e2)) =
    EventEmitter.calls e2 ++ calls_of 20 (listeners e "hit").
Proof.
  apply (once_fires_once "hit" 2 10 20
           (register "hit" [4; 9]%nat (EventEmitter.create object_prototype))).
  repeat constructor.
Defined.

(** ** Tile lookup by pixel *)

Lemma to_int32_small z : 0 <= z < 2 ^ 31 -> TileIndex.to_int32 z = z.
Proof.
  intros Hz. unfold TileIndex.to_int32.
  rewrite Z.mod_small; lia.
Qed.

Lemma trunc_div_inside t d o :
  0 < d -> 0 <= t < 2 ^ 31 -> 0 <= o < d ->
  TileIndex.trunc_div (TileIndex.Num (t * d + o)) d = t.
Proof.
  intros Hd Ht Ho. unfold TileIndex.trunc_div.
  destruct (Z.eqb_spec d 0) as [|_]; [lia|].
  rewrite Z.quot_div_nonneg by nia.
  replace ((t * d + o) / d) with t by (apply Z.div_unique with o; lia).
  by apply to_int32_small.
Qed.

(** X18. [getTileIndex] on numbers finds the tile a pixel lies in: for
    tiles of positive size, every pixel of the tile in column [tx] and row
    [ty] gives the index [tx + ty * size.x], the same index for the whole
    tile, and [getTileId] reads the tile id stored there. *)
Theorem getTileIndex_locates (tiles : list Z) (tileSize size : Vec.t) (tx ty ox oy : Z) :
  0 < Vec.x tileSize -> 0 < Vec.y tileSize ->
  0 <= tx < 2 ^ 31 -> 0 <= ty < 2 ^ 31 -> 0 <= Vec.x size ->
  0 <= ox < Vec.x tileSize -> 0 <= oy < Vec.y tileSize ->
  let x := TileIndex.Num (tx * Vec.x tileSize + ox) in
  let y := TileIndex.Num (ty * Vec.y tileSize + oy) in
  TileIndex.getTileIndex tileSize size x y = tx + ty * Vec.x size /\
  TileIndex.getTileId tiles tileSize size x y = tiles !! Z.to_nat (tx + ty * Vec.x size).
Proof.
  intros Hsx Hsy Htx Hty Hw Hox Hoy x y.
  assert (Hi : TileIndex.getTileIndex tileSize size x y = tx + ty * Vec.x size).
  { unfold TileIndex.getTileIndex, x, y. by rewrite !trunc_div_inside. }
  split; [done|]. unfold TileIndex.getTileId. rewrite Hi.
  destruct (Z.ltb_spec (tx + ty * Vec.x size) 0); [nia|done].
Qed.

Lemma getTileIndex_locates_witness :
  let tileSize := Vec.mk 32 16 in
  let size := Vec.mk 4 3 in
  let x := TileIndex.Num (2 * Vec.x tileSize + 31) in
  let y := TileIndex.Num (1 * Vec.y tileSize + 0) in
  TileIndex.getTileIndex tileSize size x y = 2 + 1 * Vec.x size /\
  TileIndex.getTileId [1; 2; 3; 4; 5; 6; 7; 8; 9; 10; 11; 12] tileSize size x y =
    [1; 2; 3; 4; 5; 6; 7; 8; 9; 10; 11; 12] !! Z.to_nat (2 + 1 * Vec.x size).
Proof.
  apply (getTileIndex_locates [1; 2; 3; 4; 5; 6; 7; 8; 9; 10; 11; 12]
           (Vec.mk 32 16) (Vec.mk 4 3) 2 1 31 0); cbn; lia.
Defined.

(** X19. With a gf.Vector as its argument [getTileIndex] never reads the
    vector's y: by the time y is chosen, x holds a number, so the y
    parameter is taken. Called with the vector alone, y is undefined and
    the index is the column only: every pixel of the tile in column [tx]
    and row [ty] gives [tx], whatever the row. *)
Theorem getTileIndex_ignores_vector_y (tileSize size : Vec.t) (tx ox vy : Z) (y : TileIndex.arg) :
  0 < Vec.x tileSize -> 0 <= tx < 2 ^ 31 -> 0 <= ox < Vec.x tileSize ->
  let vx := tx * Vec.x tileSize + ox in
  TileIndex.getTileIndex tileSize size (TileIndex.Vector vx vy) y =
    TileIndex.getTileIndex tileSize size (TileIndex.Num vx) y /\
  TileIndex.getTileIndex tileSize size (TileIndex.Vector vx vy) TileIndex.Undefined = tx.
Proof.
  intros Hsx Htx Hox vx. split; [done|].
  unfold TileIndex.getTileIndex, vx. rewrite trunc_div_inside by done.
  cbn. lia.
Qed.

Lemma getTileIndex_ignores_vector_y_witness :
  let tileSize := Vec.mk 32 16 in
  let size := Vec.mk 4 3 in
  let vx := 2 * Vec.x tileSize + 5 in
  TileIndex.getTileIndex tileSize size (TileIndex.Vector vx 40) (TileIndex.Num 16) =
    TileIndex.getTileIndex tileSize size (TileIndex.Num vx) (TileIndex.Num 16) /\
  TileIndex.getTileIndex tileSize size (TileIndex.Vector vx 40) TileIndex.Undefined = 2.
Proof.
  apply (getTileIndex_ignores_vector_y (Vec.mk 32 16) (Vec.mk 4 3) 2 5 40 (TileIndex.Num 16));
    cbn; lia.
Defined.

(** ** The texture font *)

Section FontFacts.

Variable F : TextureFont.Font.
Implicit Types (f : TextureFont.t) (str : list ascii) (strs : list (list ascii)).

Lemma free_all_sprites l f :
  let f' := foldl (fun f c => TextureFont._freeSprite c f) f (reverse l) in
  TextureFont.sprites f' = l ++ TextureFont.sprites f /\
  TextureFont.children f' = TextureFont.children f /\
  length (TextureFont.store f') = length (TextureFont.store f) /\
  TextureFont.text f' = TextureFont.text f /\
  TextureFont.dirty f' = TextureFont.dirty f.
Proof.
  induction l as [|c l IH]; [done|].
  cbn zeta in *. rewrite reverse_cons, foldl_app. cbn.
  destruct IH as (-> & -> & <- & -> & ->). rewrite length_alter. done.
Qed.

Lemma _getSprite_Some ch f :
  is_Some (TextureFont._getSprite F ch f) <->
  is_Some (TextureFont.textures F (TextureFont.key F ch)).
Proof.
  unfold TextureFont._getSprite.
  destruct (TextureFont.textures F (TextureFont.key F ch)) as [tex|].
  - destruct (TextureFont.sprites f); split; eauto.
  - done.
Qed.

Lemma type_line_Some str w x y f :
  is_Some (TextureFont.type_line F str w x y f) <->
  forall ch, ch ∈ str -> is_Some (TextureFont.textures F (TextureFont.key F ch)).
Proof.
  revert x f. induction str as [|c str IH]; intros x f; cbn.
  - split; [|eauto]. intros _ ch Hch. by apply elem_of_nil in Hch.
  - destruct (TextureFont._getSprite F c f) as [[spr f']|] eqn:E.
    + rewrite IH. split.
      * intros H ch [->|Hch]%elem_of_cons; [|by apply H].
        apply (_getSprite_Some c f). by rewrite E.
      * intros H ch Hch. apply H. by apply list_elem_of_further.
    + split; [by intros [? ?]|]. intros H.
      assert (is_Some (TextureFont._getSprite F c f)) as [? Hs].
      { apply _getSprite_Some, H, list_elem_of_here. }
      by rewrite E in Hs.
Qed.

Lemma type_lines_Some strs w h x y f :
  is_Some (TextureFont.type_lines F strs w h x y f) <->
  forall str ch, str ∈ strs -> ch ∈ str ->
    is_Some (TextureFont.textures F (TextureFont.key F ch)).
Proof.
  revert x y f. induction strs as [|s strs IH]; intros x y f; cbn.
  - split; [|eauto]. intros _ str ch Hs. by apply elem_of_nil in Hs.
  - destruct (TextureFont.type_line F s w x y f) as [[f' x']|] eqn:E.
    + rewrite IH. split.
      * intros H str ch [->|Hs]%elem_of_cons; [|by apply H].
        intros Hc. apply (type_line_Some s w x y f); [by rewrite E|done].
      * intros H str ch Hs. apply H. by apply list_elem_of_further.
    + split; [by intros [? ?]|]. intros H.
      assert (is_Some (TextureFont.type_line F s w x y f)) as [? Hs].
      { apply type_line_Some. intros ch. apply H, list_elem_of_here. }
      by rewrite E in Hs.
Qed.

Lemma elem_of_cells_from i0 strs ch :
  (exists i, (ch, i) ∈ cells_from i0 strs) <-> exists str, str ∈ strs /\ ch ∈ str.
Proof.
  revert i0. induction strs as [|s strs IH]; intros i0; cbn.
  - split; [intros [i H]; by apply elem_of_nil in H|].
    intros (str & H & _). by apply elem_of_nil in H.
  - split.
    + intros [i [H|H]%elem_of_app].
      * apply list_elem_of_fmap in H as (c & [= -> ->] & Hc).
        exists s. split; [apply list_elem_of_here|done].
      * destruct (proj1 (IH (S i0))) as (str & Hs & Hc); [by exists i|].
        exists str. split; [by apply list_elem_of_further|done].
    + intros (str & [->|Hs]%elem_of_cons & Hc).
      * exists i0. apply elem_of_app. left. apply list_elem_of_fmap. by exists ch.
      * destruct (proj2 (IH (S i0))) as [i Hi]; [by exists str|].
        exists i. apply elem_of_app. by right.
Qed.

Lemma drawable_lines txt :
  drawable F txt <->
  forall str ch, str ∈ TextureFont.split_lines txt -> ch ∈ str ->
    is_Some (TextureFont.textures F (TextureFont.key F ch)).
Proof.
  unfold drawable, cells. split.
  - intros H str ch Hs Hc.
    destruct (proj2 (elem_of_cells_from 0 (TextureFont.split_lines txt) ch)) as [i Hi];
      [by exists str|]. by apply (H ch i).
  - intros H ch i Hi.
    destruct (proj1 (elem_of_cells_from 0 (TextureFont.split_lines txt) ch)) as (str & Hs & Hc);
      [by exists i|]. by apply (H str ch).
Qed.

Lemma length_cells_from i0 strs :
  length (cells_from i0 strs) = length (concat strs).
Proof.
  revert i0. induction strs as [|s strs IH]; intros i0; cbn; [done|].
  by rewrite !length_app, length_fmap, IH.
Qed.

(** What one [_getSprite] does to the pool and the display list. *)
Lemma _getSprite_counts ch f spr f' :
  TextureFont._getSprite F ch f = Some (spr, f') ->
  length (TextureFont.sprites f') = (length (TextureFont.sprites f) - 1)%nat /\
  length (TextureFont.children f') =
    (length (TextureFont.children f) + (1 - length (TextureFont.sprites f)))%nat /\
  TextureFont.children f `prefix_of` TextureFont.children f' /\
  TextureFont.text f' = TextureFont.text f /\
  TextureFont.dirty f' = TextureFont.dirty f.
Proof.
  unfold TextureFont._getSprite.
  destruct (TextureFont.textures F (TextureFont.key F ch)) as [tex|]; [|done].
  destruct (TextureFont.sprites f) as [|n rest] eqn:E; intros [= <- <-]; cbn.
  - rewrite length_app. cbn. repeat split; try done. by eexists.
  - repeat split; try done; lia.
Qed.

Lemma type_line_counts str w x y f f' x' :
  TextureFont.type_line F str w x y f = Some (f', x') ->
  length (TextureFont.sprites f') =
    (length (TextureFont.sprites f) - length str)%nat /\
  length (TextureFont.children f') =
    (length (TextureFont.children f) + (length str - length (TextureFont.sprites f)))%nat /\
  TextureFont.children f `prefix_of` TextureFont.children f' /\
  TextureFont.text f' = TextureFont.text f /\
  TextureFont.dirty f' = TextureFont.dirty f.
Proof.
  revert x f. induction str as [|c str IH]; intros x f; cbn.
  - intros [= <- <-]. repeat split; try done; lia.
  - destruct (TextureFont._getSprite F c f) as [[spr f1]|] eqn:E; [|done].
    intros H. apply IH in H as (Hs & Hc & Hp & Ht & Hd). cbn in *.
    apply _getSprite_counts in E as (Hs1 & Hc1 & Hp1 & Ht1 & Hd1).
    repeat split; try congruence; try lia. by etrans.
Qed.

Lemma type_lines_counts strs w h x y f f' :
  TextureFont.type_lines F strs w h x y f = Some f' ->
  length (TextureFont.sprites f') =
    (length (TextureFont.sprites f) - length (concat strs))%nat /\
  length (TextureFont.children f') =
    (length (TextureFont.children f)
     + (length (concat strs) - length (TextureFont.sprites f)))%nat /\
  TextureFont.children f `prefix_of` TextureFont.children f' /\
  TextureFont.text f' = TextureFont.text f /\
  TextureFont.dirty f' = TextureFont.dirty f.
Proof.
  revert x y f. induction strs as [|s strs IH]; intros x y f; cbn.
  - intros [= <-]. repeat split; try done; lia.
  - destruct (TextureFont.type_line F s w x y f) as [[f1 x1]|] eqn:E; [|done].
    intros H. apply IH in H as (Hs & Hc & Hp & Ht & Hd).
    apply type_line_counts in E as (Hs1 & Hc1 & Hp1 & Ht1 & Hd1).
    rewrite length_app. repeat split; try congruence; try lia. by etrans.
Qed.

Lemma alter_new {X} (g : X -> X) (l : list X) a :
  alter g (length l) (l ++ [a]) = l ++ [g a].
Proof. induction l as [|b l IH]; cbn; [done|]. f_equal. apply IH. Qed.

(** A line typed with an empty pool: one new sprite per character, placed
    from [x] on in steps of [w]. *)
Lemma type_line_fresh str w x y f :
  TextureFont.sprites f = [] ->
  (forall ch, ch ∈ str -> is_Some (TextureFont.textures F (TextureFont.key F ch))) ->
  exists f',
    TextureFont.type_line F str w x y f = Some (f', x + Z.of_nat (length str) * w) /\
    TextureFont.sprites f' = [] /\
    TextureFont.children f' =
      TextureFont.children f ++ seq (length (TextureFont.store f)) (length str) /\
    length (TextureFont.store f') = (length (TextureFont.store f) + length str)%nat /\
    (forall j, (j < length (TextureFont.store f))%nat ->
       TextureFont.store f' !! j = TextureFont.store f !! j) /\
    (forall j ch, str !! j = Some ch ->
       exists tex, TextureFont.textures F (TextureFont.key F ch) = Some tex /\
         TextureFont.store f' !! (length (TextureFont.store f) + j)%nat =
           Some (TextureFont.mkSprite tex true (x + Z.of_nat j * w, y))).
Proof.
  revert x f. induction str as [|c str IH]; intros x f Hpool Hall.
  - exists f. cbn. rewrite Z.add_0_r, app_nil_r, Nat.add_0_r. by repeat split.
  - destruct (Hall c) as [tex Htex]; [apply list_elem_of_here|].
    cbn [TextureFont.type_line]. unfold TextureFont._getSprite. rewrite Htex, Hpool.
    set (f2 := TextureFont.on_sprite _ _ _).
    assert (Hstore : TextureFont.store f2 =
              TextureFont.store f ++ [TextureFont.mkSprite tex true (x, y)]).
    { unfold f2, TextureFont.on_sprite. cbn [TextureFont.store].
      by rewrite !alter_new. }
    destruct (IH (x + w) f2) as (f' & Hrun & Hp & Hc & Hlen & Hold & Hnew).
    { done. }
    { intros ch Hch. by apply Hall, list_elem_of_further. }
    rewrite Hstore, length_app in Hc, Hlen, Hold, Hnew. cbn [length] in *.
    change (TextureFont.children f2)
      with (TextureFont.children f ++ [length (TextureFont.store f)]) in Hc.
    clearbody f2.
    set (n := length (TextureFont.store f)) in *.
    replace (n + 1)%nat with (S n) in * by lia.
    exists f'. split; [|split; [done|split; [|split; [|split]]]].
    + rewrite Hrun. do 2 f_equal. lia.
    + rewrite Hc, <- app_assoc. done.
    + lia.
    + intros j Hj. rewrite Hold by lia. by apply lookup_app_l.
    + intros [|j] ch Hch.
      * injection Hch as <-. exists tex. split; [done|].
        rewrite Nat.add_0_r, Hold by lia.
        rewrite lookup_app_r by (fold n; lia). fold n. rewrite Nat.sub_diag. cbn.
        do 3 f_equal. lia.
      * destruct (Hnew j ch Hch) as (tex' & Htex' & Hj). exists tex'. split; [done|].
        replace (n + S j)%nat with (S n + j)%nat by lia.
        rewrite Hj. do 3 f_equal. lia.
Qed.

Lemma type_lines_fresh strs w h x y i0 f :
  TextureFont.sprites f = [] ->
  (forall str ch, str ∈ strs -> ch ∈ str ->
     is_Some (TextureFont.textures F (TextureFont.key F ch))) ->
  exists f',
    TextureFont.type_lines F strs w h x y f = Some f' /\
    TextureFont.sprites f' = [] /\
    TextureFont.children f' =
      TextureFont.children f ++
      seq (length (TextureFont.store f)) (length (cells_from i0 strs)) /\
    length (TextureFont.store f') =
      (length (TextureFont.store f) + length (cells_from i0 strs))%nat /\
    (forall j, (j < length (TextureFont.store f))%nat ->
       TextureFont.store f' !! j = TextureFont.store f !! j) /\
    (forall j ch i, cells_from i0 strs !! j = Some (ch, i) ->
       exists tex, TextureFont.textures F (TextureFont.key F ch) = Some tex /\
         TextureFont.store f' !! (length (TextureFont.store f) + j)%nat =
           Some (TextureFont.mkSprite tex true
                   (x + Z.of_nat j * w, y + (Z.of_nat i - Z.of_nat i0) * h))).
Proof.
  revert x y i0 f. induction strs as [|s strs IH]; intros x y i0 f Hpool Hall.
  - exists f. cbn. rewrite app_nil_r, Nat.add_0_r. by repeat split.
  - destruct (type_line_fresh s w x y f Hpool) as (f1 & Hrun1 & Hp1 & Hc1 & Hlen1 & Hold1 & Hnew1).
    { intros ch. apply Hall, list_elem_of_here. }
    destruct (IH (x + Z.of_nat (length s) * w) (y + h) (S i0) f1 Hp1)
      as (f' & Hrun & Hp & Hc & Hlen & Hold & Hnew).
    { intros str ch Hs. apply Hall. by apply list_elem_of_further. }
    set (n := length (TextureFont.store f)) in *.
    exists f'. cbn [TextureFont.type_lines cells_from]. rewrite Hrun1.
    rewrite length_app, length_fmap.
    split; [done|split; [done|split; [|split; [|split]]]].
    + rewrite Hc, Hc1, Hlen1, <- app_assoc. f_equal. by rewrite seq_app.
    + lia.
    + intros j Hj. rewrite Hold by lia. by apply Hold1.
    + intros j ch i Hj.
      destruct (decide (j < length s)%nat) as [Hlt|Hge].
      * rewrite lookup_app_l in Hj by (by rewrite length_fmap).
        apply list_lookup_fmap_Some in Hj as (c & [= -> ->] & Hc').
        destruct (Hnew1 j c Hc') as (tex & Htex & Hs). exists tex. split; [done|].
        rewrite Hold by lia. rewrite Hs. do 3 f_equal. lia.
      * rewrite lookup_app_r in Hj by (rewrite length_fmap; lia).
        rewrite length_fmap in Hj.
        destruct (Hnew _ ch i Hj) as (tex & Htex & Hs). exists tex. split; [done|].
        replace (n + j)%nat with (length (TextureFont.store f1) + (j - length s))%nat by lia.
        rewrite Hs. do 2 f_equal.
        f_equal; [rewrite Nat2Z.inj_sub by lia|rewrite Nat2Z.inj_succ]; lia.
Qed.

End FontFacts.

(** X20. [update] on a dirty font either draws the whole text or throws:
    it returns exactly when every character of the text has a texture
    under its name (the mapped name, if the map has one, with the
    extension). *)
Theorem update_draws_or_throws (F : TextureFont.Font) (f : TextureFont.t) :
  TextureFont.dirty f = true ->
  is_Some (TextureFont.update F f) <-> drawable F (TextureFont.text f).
Proof.
  intros Hd. unfold TextureFont.update. rewrite Hd, drawable_lines.
  set (f1 := foldl _ f _).
  rewrite <- (type_lines_Some F (TextureFont.split_lines (TextureFont.text f))
    (Vec.x (TextureFont.size F) * TextureFont.lineWidth F)
    (Vec.y (TextureFont.size F) * TextureFont.lineHeight F) 0 0 f1).
  destruct (TextureFont.type_lines F _ _ _ 0 0 f1); split; eauto.
Qed.

Lemma update_draws_or_throws_witness :
  let F := TextureFont.mkFont ".png" (Vec.mk 8 8) 1 1 (fun _ => None) (fun _ => Some 1) in
  let f := TextureFont.setText "ab" TextureFont.create in
  is_Some (TextureFont.update F f) <-> drawable F (TextureFont.text f).
Proof.
  apply (update_draws_or_throws
           (TextureFont.mkFont ".png" (Vec.mk 8 8) 1 1 (fun _ => None) (fun _ => Some 1))
           (TextureFont.setText "ab" TextureFont.create)).
  reflexivity.
Defined.

(** X21. What [update] does to the pool: every child is pushed on the
    pool, whether or not it is there already, and one sprite is taken for
    each character. With [p] pooled sprites, [n] children and [k]
    characters before, the pool holds [p + n - k] afterwards and the
    display list [n + (k - (p + n))] (subtraction stopping at 0): the
    children are kept, and a sprite is created only when the characters
    outnumber pool and children together. *)
Theorem update_pool_accounting (F : TextureFont.Font) (f : TextureFont.t) :
  TextureFont.dirty f = true -> drawable F (TextureFont.text f) ->
  let p := length (TextureFont.sprites f) in
  let n := length (TextureFont.children f) in
  let k := length (cells (TextureFont.text f)) in
  exists f', TextureFont.update F f = Some f' /\
    length (TextureFont.sprites f') = (p + n - k)%nat /\
    length (TextureFont.children f') = (n + (k - (p + n)))%nat /\
    TextureFont.children f `prefix_of` TextureFont.children f' /\
    TextureFont.text f' = TextureFont.text f /\
    TextureFont.dirty f' = false.
Proof.
  intros Hd Hdraw p n k.
  destruct (proj2 (update_draws_or_throws F f Hd) Hdraw) as [f' Hup].
  exists f'. split; [done|].
  unfold TextureFont.update in Hup. rewrite Hd in Hup.
  destruct (free_all_sprites (TextureFont.children f) f) as (Hs & Hc & _ & Ht & _).
  cbn zeta in Hs, Hc, Ht.
  set (f1 := foldl _ f _) in *.
  destruct (TextureFont.type_lines F _ _ _ 0 0 f1) as [f2|] eqn:E; [|done].
  injection Hup as <-. cbn.
  apply type_lines_counts in E as (Hs2 & Hc2 & Hp2 & Ht2 & _).
  rewrite Hs, length_app in Hs2, Hc2. rewrite Hc in Hc2, Hp2.
  unfold k, cells. rewrite length_cells_from.
  repeat split; try done; try lia. congruence.
Qed.

Lemma update_pool_accounting_witness :
  let F := TextureFont.mkFont ".png" (Vec.mk 8 8) 1 1 (fun _ => None) (fun _ => Some 1) in
  let f := TextureFont.mk "abc" true [1%nat] [0%nat; 1%nat]
             [TextureFont.mkSprite 1 true (0, 0); TextureFont.mkSprite 1 false (8, 0)] in
  let p := length (TextureFont.sprites f) in
  let n := length (TextureFont.children f) in
  let k := length (cells (TextureFont.text f)) in
  exists f', TextureFont.update F f = Some f' /\
    length (TextureFont.sprites f') = (p + n - k)%nat /\
    length (TextureFont.children f') = (n + (k - (p + n)))%nat /\
    TextureFont.children f `prefix_of` TextureFont.children f' /\
    TextureFont.text f' = TextureFont.text f /\
    TextureFont.dirty f' = false.
Proof.
  apply (update_pool_accounting
           (TextureFont.mkFont ".png" (Vec.mk 8 8) 1 1 (fun _ => None) (fun _ => Some 1))
           (TextureFont.mk "abc" true [1%nat] [0%nat; 1%nat]
              [TextureFont.mkSprite 1 true (0, 0); TextureFont.mkSprite 1 false (8, 0)])).
  - reflexivity.
  - intros ch i _. by eexists.
Defined.

(** X22. The first [update] of a font lays the text out with one new
    sprite per character, in order: the sprite of the character number [j]
    of the text (line breaks not counted), which is on line [i], is
    visible, has the character's texture and is at x = j * size.x *
    lineWidth, y = i * size.y * lineHeight. The x is not set back at a line
    break. *)
Theorem first_update_layout (F : TextureFont.Font) (txt : string) :
  drawable F txt ->
  let w := Vec.x (TextureFont.size F) * TextureFont.lineWidth F in
  let h := Vec.y (TextureFont.size F) * TextureFont.lineHeight F in
  exists f',
    TextureFont.update F (TextureFont.setText txt TextureFont.create) = Some f' /\
    TextureFont.sprites f' = [] /\
    TextureFont.children f' = seq 0 (length (cells txt)) /\
    length (TextureFont.store f') = length (cells txt) /\
    forall j ch i, cells txt !! j = Some (ch, i) ->
      exists tex, TextureFont.textures F (TextureFont.key F ch) = Some tex /\
        TextureFont.store f' !! j =
          Some (TextureFont.mkSprite tex true (Z.of_nat j * w, Z.of_nat i * h)).
Proof.
  intros Hdraw w h.
  assert (Hup : TextureFont.update F (TextureFont.setText txt TextureFont.create) =
    match TextureFont.type_lines F (TextureFont.split_lines txt) w h 0 0
            (TextureFont.mk txt true [] [] []) with
    | None => None
    | Some f2 =>
        Some (TextureFont.mk (TextureFont.text f2) false (TextureFont.sprites f2)
                (TextureFont.children f2) (TextureFont.store f2))
    end) by reflexivity.
  destruct (type_lines_fresh F (TextureFont.split_lines txt) w h 0 0 0
              (TextureFont.mk txt true [] [] []))
    as (f' & Hrun & Hp & Hc & Hlen & _ & Hnew); [done|by apply drawable_lines|].
  rewrite Hup, Hrun. cbn in Hc, Hlen, Hnew.
  eexists. split; [done|]. cbn. split; [done|]. split; [done|]. split; [done|].
  intros j ch i Hj. destruct (Hnew j ch i Hj) as (tex & Htex & Hs).
  exists tex. split; [done|]. rewrite Hs. do 3 f_equal; lia.
Qed.

Lemma first_update_layout_witness :
  let F := TextureFont.mkFont ".png" (Vec.mk 8 10) 1 2 (fun _ => None) (fun _ => Some 1) in
  let w := Vec.x (TextureFont.size F) * TextureFont.lineWidth F in
  let h := Vec.y (TextureFont.size F) * TextureFont.lineHeight F in
  exists f',
    TextureFont.update F (TextureFont.setText "abc" TextureFont.create) = Some f' /\
    TextureFont.sprites f' = [] /\
    TextureFont.children f' = seq 0 (length (cells "abc")) /\
    length (TextureFont.store f') = length (cells "abc") /\
    forall j ch i, cells "abc" !! j = Some (ch, i) ->
      exists tex, TextureFont.textures F (TextureFont.key F ch) = Some tex /\
        TextureFont.store f' !! j =
          Some (TextureFont.mkSprite tex true (Z.of_nat j * w, Z.of_nat i * h)).
Proof.
  apply (first_update_layout
           (TextureFont.mkFont ".png" (Vec.mk 8 10) 1 2 (fun _ => None) (fun _ => Some 1))
           "abc").
  intros ch i _. by eexists.
Defined.

(** ** The camera shake *)

Lemma displaced_update p0 dt rx ry s :
  displaced p0 s -> displaced p0 (Shake.update dt rx ry s).
Proof.
  destruct s as [[] it du [h v] [ox oy] c [px py]]; destruct p0 as [x0 y0];
    unfold displaced, Shake.update;
    cbn [Shake.duration Shake.pan Shake.set_offset Shake.offset
      Shake.panned Shake.direction Shake.done Shake.cb Shake.intensity fst snd];
    [done|].
  intros [= -> ->].
  destruct (Qle_bool _ 0).
  - unfold Shake._complete. destruct c as [[]|]; cbn; f_equal; lia.
  - destruct h, v; cbn; f_equal; lia.
Qed.

(** X23. The shake returns the camera: from [start] on, whatever the
    time steps and the random offsets drawn, the pans made so far add up
    to the current offset while the effect runs and to nothing once it is
    done, whether it ended by itself, with or without a callback, also one
    that returns false. *)
Theorem shake_returns_camera (i d : option Q) (dir : bool * bool)
    (c : option bool) (frames : list (Q * Z * Z)) (s0 : Shake.t) :
  let s := shake_frames frames (Shake.start i d dir c s0) in
  Shake.panned s =
  if Shake.done s then Shake.panned s0
  else (fst (Shake.panned s0) + fst (Shake.offset s),
        snd (Shake.panned s0) + snd (Shake.offset s)).
Proof.
  cbv zeta. change (displaced (Shake.panned s0)
    (shake_frames frames (Shake.start i d dir c s0))).
  unfold shake_frames. apply foldl_preserves.
  - intros s [[dt rx] ry]. apply displaced_update.
  - unfold displaced. cbn. destruct (Shake.panned s0). cbn. f_equal; lia.
Qed.
